(** * Transcript alignment and timestamp reconciliation

    A shallow embedding of the alignment core of the transcription server:

    - [stripPunctuation], [editDistance], [isFuzzyMatch] and
      [alignWhisperToOriginal] of [server/media/text-utils.js];
    - the per-batch two-pointer walk of [addPunctuation] of
      [server/media/transcription.js];

    and of the code around it: [estimateWordTimestamps] of [text-utils.js];
    the batches and the segments of [addPunctuation], and [lemmatizeWords],
    of [transcription.js]; [transcribeAndAlignTTS] and the heartbeat of
    [generateTtsAudio] of [server/media/tts.js]; [mapProgress],
    [computeRanges] and [createHeartbeat] of
    [server/media/progress-utils.js]. The services that correct and
    lemmatise are parameters: functions from a request to its answer, or to
    [None] when the request throws.

    JavaScript strings are sequences of UTF-16 code units ([list N]); arrays
    are lists read with stdpp's lookup and written with its insert; numbers
    that carry time are exact rationals ([Q]), compared with [Qeq_bool] where
    the source writes [===]; lengths, indices and edit distances are naturals.
    The built-in [String.prototype.toLowerCase] is a parameter of the
    development. The values of the worked examples are computed a second
    time on binary64 numbers. *)

From Stdlib Require Import QArith Qround Lqa PrimFloat.
From Equations Require Import Equations.
From stdpp Require Import base numbers gmap list.

Open Scope nat_scope.

(** ** [server/media/text-utils.js] *)

Module TextUtils.

(** *** Strings *)

(** A JavaScript string: its UTF-16 code units. *)
Abbreviation jsstring := (list N).

(** The class [\s] of a JavaScript regular expression. *)
Definition isWhiteSpace (c : N) : bool :=
  ((9 <=? c) && (c <=? 13) || (c =? 32) || (c =? 160) || (c =? 5760)
   || (8192 <=? c) && (c <=? 8202) || (c =? 8232) || (c =? 8233)
   || (c =? 8239) || (c =? 8287) || (c =? 12288) || (c =? 65279))%N.

(** The character class of [stripPunctuation]: full stop, comma, exclamation
    and question marks, semicolon, colon, em and en dashes, hyphen, the two
    guillemets, the straight double and single quotes, the two parentheses,
    the ellipsis, and [\s]. *)
Definition isEdgeChar (c : N) : bool :=
  ((c =? 46) || (c =? 44) || (c =? 33) || (c =? 63) || (c =? 59) || (c =? 58)
   || (c =? 8212) || (c =? 8211) || (c =? 45) || (c =? 171) || (c =? 187)
   || (c =? 34) || (c =? 39) || (c =? 40) || (c =? 41) || (c =? 8230))%N
  || isWhiteSpace c.

Fixpoint dropWhile {A} (p : A -> bool) (l : list A) : list A :=
  match l with
  | [] => []
  | x :: l' => if p x then dropWhile p l' else l
  end.

Fixpoint takeWhile {A} (p : A -> bool) (l : list A) : list A :=
  match l with
  | [] => []
  | x :: l' => if p x then x :: takeWhile p l' else []
  end.

(** [word.replace(/^[...]+|[...]+$/g, '')]: the global replace deletes the
    longest run of class characters at the start and the longest one at the
    end. *)
Definition stripPunctuation (word : jsstring) : jsstring :=
  rev (dropWhile isEdgeChar (rev (dropWhile isEdgeChar word))).

(** [word.match(/^\s*/)[0]]: the leading white space of a word. *)
Definition leadingWhiteSpace (word : jsstring) : jsstring :=
  takeWhile isWhiteSpace word.

(** A model of [toLowerCase] on the alphabets of the transcripts: Basic Latin,
    Latin-1 and the Cyrillic block; other code units are left as they are.
    Only the worked examples use it. *)
Definition lowerUnit (c : N) : N :=
  (if (65 <=? c) && (c <=? 90) then c + 32
   else if (192 <=? c) && (c <=? 222) && negb (c =? 215) then c + 32
   else if (1040 <=? c) && (c <=? 1071) then c + 32
   else if (1024 <=? c) && (c <=? 1039) then c + 80
   else c)%N.

Definition toLowerCaseRu (s : jsstring) : jsstring := lowerUnit <$> s.

(** *** Edit distance *)

(** [row[j]] for an array of numbers; every read of the source is in range. *)
Definition cell (row : list nat) (j : nat) : nat := default 0 (row !! j).

(** [Math.min(x, y, z)] *)
Definition min3 (x y z : nat) : nat := Nat.min (Nat.min x y) z.

(** The body of the inner loop of [editDistance]: [curr[j] = Math.min(...)].
    [a[j - 1] === b[i - 1]] compares two code units. *)
Definition fillCell (a b : jsstring) (i : nat) (prev curr : list nat) (j : nat)
  : list nat :=
  let cost := if bool_decide (a !! (j - 1) = b !! (i - 1)) then 0 else 1 in
  <[ j := min3 (cell prev j + 1) (cell curr (j - 1) + 1) (cell prev (j - 1) + cost) ]> curr.

(** The body of the outer loop, on the pair [(prev, curr)]: set [curr[0]],
    run the inner loop for [j = 1 .. a.length], swap the two rows. *)
Definition fillRow (a b : jsstring) (rows : list nat * list nat) (i : nat)
  : list nat * list nat :=
  let prev := rows.1 in
  let curr := <[ 0 := i ]> rows.2 in
  let curr := foldl (fillCell a b i prev) curr (seq 1 (length a)) in
  (curr, prev).

(** The two rolling rows after the outer loop, [a] being the shorter string.
    [new Array(a.length + 1)] has empty slots, each written before it is
    read; [0] stands for them. *)
Definition editRows (a b : jsstring) : list nat * list nat :=
  let prev := seq 0 (length a + 1) in
  let curr := replicate (length a + 1) 0 in
  foldl (fillRow a b) (prev, curr) (seq 1 (length b)).

Definition editDistance (a b : jsstring) : nat :=
  if length a =? 0 then length b
  else if length b =? 0 then length a
  else
    let ab := if length b <? length a then (b, a) else (a, b) in
    cell (editRows ab.1 ab.2).1 (length ab.1).

(** The cost of writing [y] for [x]. *)
Definition cost (x y : N) : nat := if bool_decide (x = y) then 0 else 1.

(** The reference: the Levenshtein distance by its naive recursion on the two
    strings. *)
Fixpoint levenshtein (a : jsstring) : jsstring -> nat :=
  match a with
  | [] => fun b => length b
  | x :: a' =>
      fix lev_x (b : jsstring) : nat :=
        match b with
        | [] => length a
        | y :: b' =>
            min3 (levenshtein a' b + 1) (lev_x b' + 1)
                 (levenshtein a' b' + cost x y)
        end
  end.

(** [row] is row [i] of the matrix of the distances between the prefixes of
    [a] (the columns) and the prefixes of [b] (the rows). *)
Definition isRow (a b : jsstring) (i : nat) (row : list nat) : Prop :=
  length row = length a + 1
  /\ forall j, j <= length a -> cell row j = levenshtein (take j a) (take i b).

(** Edit scripts: [edits n a b] when [n] insertions, deletions and
    substitutions turn [a] into [b]. *)
Inductive edits : nat -> jsstring -> jsstring -> Prop :=
| edits_nil : edits 0 [] []
| edits_keep x a b n : edits n a b -> edits n (x :: a) (x :: b)
| edits_subst x y a b n : edits n a b -> edits (S n) (x :: a) (y :: b)
| edits_delete x a b n : edits n a b -> edits (S n) (x :: a) b
| edits_insert y a b n : edits n a b -> edits (S n) a (y :: b).

(** A natural number (a length, a counter) as a JavaScript number. *)
Definition num (n : nat) : Q := inject_Z (Z.of_nat n).

(** [Math.floor(maxLen * 0.3)] *)
Definition fuzzyTolerance (maxLen : nat) : nat :=
  Z.to_nat (Qfloor (num maxLen * 0.3)).

Definition isFuzzyMatch (a b : jsstring) : bool :=
  if (length a <? 4) || (length b <? 4) then false
  else
    let dist := editDistance a b in
    let maxLen := Nat.max (length a) (length b) in
    dist <=? Nat.max 2 (fuzzyTolerance maxLen).

(** *** Words with timing *)

(** A value together with the equation that names it, for the loops below. *)
Definition inspect {A} (a : A) : {b : A | a = b} := exist _ a eq_refl.

(** [{ word, start, end }]: a word of a transcript with its time range. *)
Record WordTimestamp : Type :=
  mkWord { word : jsstring; start : Q; end_ : Q }.

(** [x === -1] and [x !== -1] on a time. *)
Definition isMinusOne (x : Q) : bool := Qeq_bool x (-1).

(** [i > 0 ? ' ' : ''] *)
Definition leadingSpaceAt (i : nat) : jsstring :=
  if 0 <? i then [32%N] else [].

(** The texts asked of the output: [originalWords], each word but the first
    after one space. *)
Definition originalTexts (originalWords : list jsstring) : list jsstring :=
  imap (fun i w => leadingSpaceAt i ++ w) originalWords.

(** [{ word: w, start: -1, end: -1 }]: a word left for the interpolation. *)
Definition unmatched (w : jsstring) : WordTimestamp :=
  {| word := w; start := -1; end_ := -1 |}.

Section Align.

(** [String.prototype.toLowerCase] *)
Variable toLowerCase : jsstring -> jsstring.

(** [stripPunctuation(w).toLowerCase()] *)
Definition baseOf (w : jsstring) : jsstring :=
  toLowerCase (stripPunctuation w).

(** [x === y || isFuzzyMatch(x, y)] *)
Definition sameWord (x y : jsstring) : bool :=
  bool_decide (x = y) || isFuzzyMatch x y.

Variable whisperWords : list WordTimestamp.
Variable originalWords : list jsstring.

(** The two pointers and the array under construction. *)
Record AlignState : Type :=
  mkAlign { wi : nat; oi : nat; result : list WordTimestamp }.

(** [for (let la = 1; la <= 3 && wi + la < whisperWords.length; la++)],
    run over [las = [1; 2; 3]]: the first [la] whose whisper word matches
    [origBase], with that word. *)
Fixpoint lookaheadWhisper (wi : nat) (origBase : jsstring) (las : list nat)
  : option (nat * WordTimestamp) :=
  match las with
  | [] => None
  | la :: las' =>
      match whisperWords !! (wi + la) with
      | None => None
      | Some w =>
          if sameWord (baseOf (word w)) origBase then Some (la, w)
          else lookaheadWhisper wi origBase las'
      end
  end.

(** [for (let la = 1; la <= 3 && oi + la < originalWords.length; la++)]:
    the first [la] whose original word matches [whisperBase]. *)
Fixpoint lookaheadOriginal (oi : nat) (whisperBase : jsstring) (las : list nat)
  : option nat :=
  match las with
  | [] => None
  | la :: las' =>
      match originalWords !! (oi + la) with
      | None => None
      | Some w =>
          if sameWord (baseOf w) whisperBase then Some la
          else lookaheadOriginal oi whisperBase las'
      end
  end.

(** [for (let skip = 0; skip < la; skip++) result.push(...)]: the words
    pushed for the original words [oi .. oi + la - 1], all in range. *)
Definition skippedOriginals (oi la : nat) : list WordTimestamp :=
  (fun skip =>
     unmatched (leadingSpaceAt (oi + skip)
                  ++ default [] (originalWords !! (oi + skip))))
    <$> seq 0 la.

(** One iteration of the [while] loop, [origWord] being [originalWords[oi]]. *)
Definition alignStep (s : AlignState) (origWord : jsstring) : AlignState :=
  let origBase := baseOf origWord in
  let leadingSpace := leadingSpaceAt (oi s) in
  match whisperWords !! wi s with
  | Some w =>
      let whisperBase := baseOf (word w) in
      if sameWord origBase whisperBase then
        {| wi := S (wi s); oi := S (oi s);
           result := result s ++ [mkWord (leadingSpace ++ origWord) (start w) (end_ w)] |}
      else
        match lookaheadWhisper (wi s) origBase [1; 2; 3] with
        | Some (la, lw) =>
            {| wi := S (wi s + la); oi := S (oi s);
               result := result s ++ [mkWord (leadingSpace ++ origWord) (start lw) (end_ lw)] |}
        | None =>
            match lookaheadOriginal (oi s) whisperBase [1; 2; 3] with
            | Some la =>
                {| wi := wi s; oi := oi s + la;
                   result := result s ++ skippedOriginals (oi s) la |}
            | None =>
                {| wi := wi s; oi := S (oi s);
                   result := result s ++ [unmatched (leadingSpace ++ origWord)] |}
            end
        end
  | None =>
      {| wi := wi s; oi := S (oi s);
         result := result s ++ [unmatched (leadingSpace ++ origWord)] |}
  end.

(** [while (oi < originalWords.length) { ... }], by well-founded recursion
    on the number of original words still to place. *)
Equations? alignLoop (s : AlignState) : AlignState
  by wf (length originalWords - oi s) lt :=
  alignLoop s with inspect (originalWords !! oi s) => {
    | exist _ (Some origWord) _ := alignLoop (alignStep s origWord);
    | exist _ None _ := s }.
Proof.
  apply lookup_lt_Some in e.
  unfold alignStep.
  repeat case_match; simpl; try lia.
  match goal with
  | H : lookaheadOriginal _ _ _ = Some _ |- _ =>
      simpl in H; repeat case_match; try discriminate;
      injection H as <-; lia
  end.
Qed.

(** The invariant of the loop on the texts: the words pushed so far carry
    the texts asked for the original words before [oi]. *)
Definition textInvariant (s : AlignState) : Prop :=
  oi s <= length originalWords
  /\ word <$> result s = take (oi s) (originalTexts originalWords).

(** The array after the walk, before the interpolation. *)
Definition alignWalk : list WordTimestamp :=
  result (alignLoop {| wi := 0; oi := 0; result := [] |}).

End Align.

(** *** Interpolation of the words left unmatched *)

(** [for (let j = i - 1; j >= 0; j--)
       if (result[j].end !== -1) { prevEnd = result[j].end; break; }],
    with [prevEnd = 0] at the start; every [j] is in range. *)
Fixpoint findPrevEnd (result : list WordTimestamp) (i : nat) : Q :=
  match i with
  | 0 => 0%Q
  | S j =>
      match result !! j with
      | Some t => if isMinusOne (end_ t) then findPrevEnd result j else end_ t
      | None => findPrevEnd result j
      end
  end.

(** [for (let j = i + 1; j < result.length; j++)
       { if (result[j].start !== -1) { nextStart = result[j].start; break; }
         gapCount++; }]
    over [rest], the words from position [i + 1] on; [nextStart] starts as
    [totalDuration]. The pair is [(nextStart, gapCount)]. *)
Fixpoint findNextStart (totalDuration : Q) (rest : list WordTimestamp)
  (gapCount : nat) : Q * nat :=
  match rest with
  | [] => (totalDuration, gapCount)
  | t :: rest' =>
      if isMinusOne (start t) then findNextStart totalDuration rest' (S gapCount)
      else (start t, gapCount)
  end.

(** The word [t] after [t.start = prevEnd + step * pos] and
    [t.end = prevEnd + step * (pos + 0.8)]. *)
Definition filled (prevEnd step : Q) (pos : nat) (t : WordTimestamp)
  : WordTimestamp :=
  {| word := word t;
     start := prevEnd + step * num pos;
     end_ := prevEnd + step * (num pos + 0.8) |}.

(** [for (let j = i; j < result.length && result[j].start === -1; j++)
       { pos++; result[j].start = prevEnd + step * pos;
                result[j].end = prevEnd + step * (pos + 0.8); }] *)
Equations? fillGap (prevEnd step : Q) (j pos : nat) (result : list WordTimestamp)
  : list WordTimestamp by wf (length result - j) lt :=
  fillGap prevEnd step j pos result with inspect (result !! j) => {
    | exist _ (Some t) _ with isMinusOne (start t) => {
        | true :=
            fillGap prevEnd step (S j) (S pos)
              (<[ j := filled prevEnd step (S pos) t ]> result);
        | false := result };
    | exist _ None _ := result }.
Proof.
  apply lookup_lt_Some in e. rewrite length_insert. lia.
Qed.

(** The body of the interpolation loop at position [i]. *)
Definition interpolateAt (totalDuration : Q) (result : list WordTimestamp)
  (i : nat) : list WordTimestamp :=
  match result !! i with
  | Some t =>
      if isMinusOne (start t) then
        let prevEnd := findPrevEnd result i in
        let next := findNextStart totalDuration (drop (S i) result) 1 in
        let step := ((next.1 - prevEnd) / num (next.2 + 1))%Q in
        fillGap prevEnd step i 0 result
      else result
  | None => result
  end.

(** [for (let i = 0; i < result.length; i++) { ... }]; the length of
    [result] does not change in the loop. *)
Definition interpolate (totalDuration : Q) (result : list WordTimestamp)
  : list WordTimestamp :=
  foldl (interpolateAt totalDuration) result (seq 0 (length result)).

(** [whisperWords[whisperWords.length - 1].end], read after the guard on an
    empty [whisperWords]. *)
Definition lastEnd (whisperWords : list WordTimestamp) : Q :=
  match whisperWords !! (length whisperWords - 1) with
  | Some w => end_ w
  | None => 0%Q
  end.

(** [if (!whisperWords.length || !originalWords.length) return ...]; then the
    walk, then the interpolation. *)
Definition alignWhisperToOriginal (toLowerCase : jsstring -> jsstring)
  (whisperWords : list WordTimestamp) (originalWords : list jsstring)
  : list WordTimestamp :=
  if (length whisperWords =? 0) || (length originalWords =? 0) then
    imap (fun i w => mkWord (leadingSpaceAt i ++ w) 0 0) originalWords
  else
    let result := alignWalk toLowerCase whisperWords originalWords in
    let totalDuration := lastEnd whisperWords in
    interpolate totalDuration result.

(** *** Runs of unmatched words and the order of time *)

(** A word whose start is [-1], left for the interpolation. *)
Definition isGap (t : WordTimestamp) : bool := isMinusOne (start t).

(** The words of a gap after the loop of [fillGap] entered with [pos]. *)
Fixpoint fillRun (prevEnd step : Q) (pos : nat) (run : list WordTimestamp)
  : list WordTimestamp :=
  match run with
  | [] => []
  | t :: run' => filled prevEnd step (S pos) t :: fillRun prevEnd step (S pos) run'
  end.

(** The end of the last word before a gap, [0] when the gap opens the array. *)
Definition prevEndOf (pre : list WordTimestamp) : Q :=
  match last pre with Some k => end_ k | None => 0%Q end.

(** The start of the first word after a gap, [totalDuration] when the gap
    closes the array. *)
Definition nextStartOf (totalDuration : Q) (post : list WordTimestamp) : Q :=
  match post with k :: _ => start k | [] => totalDuration end.

(** No word of [l] at position [i], or one that is not left for the
    interpolation. *)
Definition knownAt (l : list WordTimestamp) (i : nat) : Prop :=
  forall k, l !! i = Some k -> isGap k = false.

Definition nonNegative (t : WordTimestamp) : Prop :=
  (0 <= start t /\ 0 <= end_ t)%Q.

(** A word left for the interpolation, or a word with a time range that is
    not negative. *)
Definition flagged (t : WordTimestamp) : Prop :=
  isGap t = true \/ nonNegative t.

(** The end of the last word of [r] that carries a time, [lo] if none. *)
Fixpoint lastEndFrom (lo : Q) (r : list WordTimestamp) : Q :=
  match r with
  | [] => lo
  | t :: r' => if isGap t then lastEndFrom lo r' else lastEndFrom (end_ t) r'
  end.

(** The words of [r] that carry a time follow one another between [lo] and
    [hi]: each starts at or after the end of the one before, and ends at or
    after its own start. *)
Fixpoint ordered (hi lo : Q) (r : list WordTimestamp) : Prop :=
  match r with
  | [] => (lo <= hi)%Q
  | t :: r' =>
      if isGap t then ordered hi lo r'
      else (lo <= start t)%Q /\ (start t <= end_ t)%Q /\ ordered hi (end_ t) r'
  end.

(** The whisper words follow one another in time. *)
Definition chronological (whisperWords : list WordTimestamp) : Prop :=
  forall i w w', whisperWords !! i = Some w -> whisperWords !! S i = Some w' ->
    (end_ w <= start w')%Q.

(** The invariant of the loop on the times: the words pushed so far are in
    order, and end before the whisper words still to come. *)
Definition orderedInvariant (whisperWords : list WordTimestamp) (s : AlignState)
  : Prop :=
  ordered (lastEnd whisperWords) 0 (result s)
  /\ forall k w, wi s <= k -> whisperWords !! k = Some w ->
       (lastEndFrom 0 (result s) <= start w)%Q.

(** *** Texts, words and segments *)

(** [s.trim()]: the white space and the line terminators of both ends are
    removed; they are the characters of the class [\s]. *)
Definition trim (s : jsstring) : jsstring :=
  rev (dropWhile isWhiteSpace (rev (dropWhile isWhiteSpace s))).

(** [text.split(/\s+/)]: the pieces of [text] between its maximal runs of
    white space. A run at the start or at the end of [text] leaves an empty
    piece there, and the empty text has one empty piece. *)
Fixpoint splitWhiteSpace (text : jsstring) : list jsstring :=
  match text with
  | [] => [[]]
  | c :: text' =>
      let pieces := splitWhiteSpace text' in
      if isWhiteSpace c then
        match text' with
        | c' :: _ => if isWhiteSpace c' then pieces else [] :: pieces
        | [] => [] :: pieces
        end
      else
        match pieces with
        | piece :: pieces' => (c :: piece) :: pieces'
        | [] => [[c]]
        end
  end.

(** [text.split(/\s+/).filter(w => w.length > 0)] *)
Definition splitWords (text : jsstring) : list jsstring :=
  List.filter (fun w => 0 <? length w) (splitWhiteSpace text).

(** [l.join(sep)] *)
Fixpoint join (sep : jsstring) (l : list jsstring) : jsstring :=
  match l with
  | [] => []
  | w :: l' =>
      match l' with
      | [] => w
      | _ :: _ => w ++ sep ++ join sep l'
      end
  end.

(** [{ text, start, end }]: a segment of a transcript. The segments of a
    transcription carry other fields as well, which no function of the
    development reads or writes. *)
Module Segment.
Record t : Type := mk { text : jsstring; start : Q; end_ : Q }.
End Segment.

(** [{ words, segments, language, duration }] *)
Module Transcript.
Record t : Type :=
  mk { words : list WordTimestamp; segments : list Segment.t;
       language : jsstring; duration : Q }.
End Transcript.

(** The segment pushed for the words [segWords], which are never empty:
    [{ text: segWords.map(w => w.word).join('').trim(),
       start: segWords[0].start, end: segWords[segWords.length - 1].end }] *)
Definition segmentOf (segWords : list WordTimestamp) : Segment.t :=
  {| Segment.text := trim (join [] (word <$> segWords));
     Segment.start :=
       match segWords !! 0 with Some w => start w | None => 0%Q end;
     Segment.end_ :=
       match segWords !! (length segWords - 1) with
       | Some w => end_ w
       | None => 0%Q
       end |}.

(** [for (let i = 0; i < words.length; i += 20)
       { const segWords = words.slice(i, i + 20); segments.push({ ... }); }] *)
Equations? segmentLoop (words : list WordTimestamp) (i : nat)
  (segments : list Segment.t) : list Segment.t by wf (length words - i) lt :=
  segmentLoop words i segments with inspect (i <? length words) => {
    | exist _ true _ :=
        let segWords := take 20 (drop i words) in
        segmentLoop words (i + 20) (segments ++ [segmentOf segWords]);
    | exist _ false _ := segments }.
Proof.
  apply Nat.ltb_lt in e. lia.
Qed.

(** The segments of about twenty words built by [estimateWordTimestamps] and
    by [transcribeAndAlignTTS]. *)
Definition buildSegments (words : list WordTimestamp) : list Segment.t :=
  segmentLoop words 0 [].

(** The language code [ru]. *)
Definition ru : jsstring := [114; 117]%N.

(** [rawWords.reduce((sum, w) => sum + w.length, 0)] *)
Definition totalChars (rawWords : list jsstring) : nat :=
  foldl (fun sum w => sum + length w) 0 rawWords.

(** The body of the first loop of [estimateWordTimestamps], on the pair of
    [cursor] and [words]; [rawWord] is [rawWords[i]]. *)
Definition estimateStep (totalChars : nat) (duration : Q)
  (state : Q * list WordTimestamp) (i : nat) (rawWord : jsstring)
  : Q * list WordTimestamp :=
  let cursor := state.1 in
  let wordDuration := (num (length rawWord) / num totalChars * duration)%Q in
  let start := cursor in
  let end_ := (cursor + wordDuration)%Q in
  (end_, state.2 ++ [mkWord (leadingSpaceAt i ++ rawWord) start end_]).

(** [for (let i = 0; i < rawWords.length; i++) { ... }] from [i] on. *)
Fixpoint estimateLoop (totalChars : nat) (duration : Q) (i : nat)
  (rawWords : list jsstring) (state : Q * list WordTimestamp)
  : Q * list WordTimestamp :=
  match rawWords with
  | [] => state
  | rawWord :: rawWords' =>
      estimateLoop totalChars duration (S i) rawWords'
        (estimateStep totalChars duration state i rawWord)
  end.

Definition estimateWordTimestamps (text : jsstring) (duration : Q)
  : Transcript.t :=
  let rawWords := splitWords text in
  let totalChars := totalChars rawWords in
  let words := (estimateLoop totalChars duration 0 rawWords (0%Q, [])).2 in
  {| Transcript.words := words;
     Transcript.segments := buildSegments words;
     Transcript.language := ru;
     Transcript.duration := duration |}.

(** A word of a text: a string that is not empty and has no white space. *)
Definition isWord (w : jsstring) : Prop :=
  w <> [] /\ Forall (fun c => isWhiteSpace c = false) w.

(** *** The matching made by the walk *)

(** The word pushed for the original word [o] of position [i]: under the
    start and the end of the whisper word [k], whose text matches [o], or
    left for the interpolation. *)
Definition placed (toLowerCase : jsstring -> jsstring)
  (whisperWords : list WordTimestamp) (i : nat) (o : jsstring)
  (m : option nat) (t : WordTimestamp) : Prop :=
  match m with
  | Some k =>
      exists w, whisperWords !! k = Some w
        /\ sameWord (baseOf toLowerCase o) (baseOf toLowerCase (word w)) = true
        /\ t = mkWord (leadingSpaceAt i ++ o) (start w) (end_ w)
  | None => t = unmatched (leadingSpaceAt i ++ o)
  end.

(** The whisper words of a matching come in their order: a later original
    word is placed on a later whisper word. *)
Definition increasing (ms : list (option nat)) : Prop :=
  forall i j k k', i < j -> ms !! i = Some (Some k) -> ms !! j = Some (Some k') ->
    k < k'.

(** The first [n] elements of [source] are matched by [ms] on positions
    before [bound], in their order, and [r] holds the word pushed for each:
    [rel i x m t] says that [t] is the word pushed for the element [x] of
    position [i] when it is matched as [m]. *)
Definition matching {A : Type} (source : list A)
  (rel : nat -> A -> option nat -> WordTimestamp -> Prop)
  (ms : list (option nat)) (bound n : nat) (r : list WordTimestamp) : Prop :=
  length ms = n /\ length r = n /\ n <= length source
  /\ increasing ms
  /\ (forall i k, ms !! i = Some (Some k) -> k < bound)
  /\ (forall i x, source !! i = Some x -> i < n ->
        exists m t, ms !! i = Some m /\ r !! i = Some t /\ rel i x m t).

End TextUtils.

(** ** [server/media/progress-utils.js] *)

Module ProgressUtils.

Import TextUtils.

(** [Math.round(x)]: the integer nearest to [x], the greater one when two are
    as near. *)
Definition round (x : Q) : Z := Qfloor (x + (1 # 2)).

(** A percentage is a rational; the result of [Math.round] is an integer. *)
Definition mapProgress (substageProgress rangeStart rangeEnd : Q) : Z :=
  round (rangeStart + substageProgress / 100 * (rangeEnd - rangeStart)).

(** [weights.reduce((a, b) => a + b, 0)] *)
Definition total (weights : list Q) : Q := foldl Qplus 0%Q weights.

(** The body of the loop of [computeRanges], on the pair of [cursor] and
    [ranges]. *)
Definition rangeStep (total : Q) (state : Q * list (Z * Z)) (w : Q)
  : Q * list (Z * Z) :=
  let cursor := state.1 in
  let rangeEnd := (cursor + w / total * 100)%Q in
  (rangeEnd, state.2 ++ [(round cursor, round rangeEnd)]).

(** [if (ranges.length > 0) ranges[ranges.length - 1][1] = 100] *)
Definition closeLast (ranges : list (Z * Z)) : list (Z * Z) :=
  if 0 <? length ranges
  then alter (fun range => (range.1, 100%Z)) (length ranges - 1) ranges
  else ranges.

Definition computeRanges (weights : list Q) : list (Z * Z) :=
  closeLast (foldl (rangeStep (total weights)) (0%Q, []) weights).2.

(** What [messageBuilder(seconds)] returns: an object with its [percent],
    if it has one, and its [message]; a string; or [null]. *)
Inductive BuilderResult : Type :=
| Object (percent : option Q) (message : jsstring)
| Text (message : jsstring)
| Null.

(** A call [onProgress(type, percent, 'active', message)]. *)
Record ProgressCall : Type :=
  mkCall { type : jsstring; percent : Q; message : jsstring }.

(** The variables [seconds] and [stopped] of the closure of
    [createHeartbeat]. *)
Record Heartbeat : Type := mkHeartbeat { seconds : nat; stopped : bool }.

(** What reaches a heartbeat: the timer fires, or [stop()] is called. *)
Inductive Event : Type := Tick | Stop.

Section Heartbeat.

Variable type : jsstring.
Variable messageBuilder : nat -> BuilderResult.

(** [createHeartbeat(onProgress, type, messageBuilder)] *)
Definition createHeartbeat : Heartbeat := {| seconds := 0; stopped := false |}.

(** The calls of [onProgress] made for [result]: [result.percent || 0] for
    an object, [0] for a string that is not empty. *)
Definition report (result : BuilderResult) : list ProgressCall :=
  match result with
  | Object percent message => [mkCall type (default 0%Q percent) message]
  | Text message => if 0 <? length message then [mkCall type 0 message] else []
  | Null => []
  end.

(** The callback of [setInterval]. *)
Definition tick (h : Heartbeat) : Heartbeat * list ProgressCall :=
  if stopped h then (h, [])
  else
    let seconds := S (seconds h) in
    ({| seconds := seconds; stopped := false |}, report (messageBuilder seconds)).

(** [stop()] *)
Definition stop (h : Heartbeat) : Heartbeat :=
  if stopped h then h else {| seconds := seconds h; stopped := true |}.

(** The heartbeat after an event, and the calls of [onProgress] so far. *)
Definition handle (state : Heartbeat * list ProgressCall) (e : Event)
  : Heartbeat * list ProgressCall :=
  match e with
  | Tick => let r := tick state.1 in (r.1, state.2 ++ r.2)
  | Stop => (stop state.1, state.2)
  end.

Definition run (events : list Event) : Heartbeat * list ProgressCall :=
  foldl handle (createHeartbeat, []) events.

End Heartbeat.

(** The number of times the timer fires before the first [stop()]. *)
Fixpoint liveTicks (events : list Event) : nat :=
  match events with
  | Tick :: events' => S (liveTicks events')
  | _ => 0
  end.

(** Whether [stop()] is called. *)
Definition stops (events : list Event) : bool :=
  existsb (fun e => match e with Stop => true | Tick => false end) events.

End ProgressUtils.

(** ** [server/media/transcription.js]: the alignment of [addPunctuation] *)

Module Transcription.

Import TextUtils.

Section Punctuation.

Variable toLowerCase : jsstring -> jsstring.

Variable batchWords : list WordTimestamp.
Variable punctuatedBatch : list jsstring.

(** The two pointers, the counter of matched words and the words pushed on
    [punctuatedWords] by the walk of one batch. *)
Record PunctState : Type :=
  mkPunct { oi : nat; pi : nat; matched : nat;
            punctuatedWords : list WordTimestamp }.

(** [{ ...original, word: leadingSpace + p }] *)
Definition withWord (original : WordTimestamp) (w : jsstring) : WordTimestamp :=
  {| word := w; start := start original; end_ := end_ original |}.

(** [for (let lookahead = 1;
          lookahead <= 3 && pi + lookahead < punctuatedBatch.length;
          lookahead++)]: the first lookahead whose token matches
    [origBase], with that token. *)
Fixpoint lookaheadPunctuated (pi : nat) (origBase : jsstring) (las : list nat)
  : option (nat * jsstring) :=
  match las with
  | [] => None
  | lookahead :: las' =>
      match punctuatedBatch !! (pi + lookahead) with
      | None => None
      | Some p =>
          if sameWord (baseOf toLowerCase p) origBase then Some (lookahead, p)
          else lookaheadPunctuated pi origBase las'
      end
  end.

(** [for (let lookahead = 1;
          lookahead <= 3 && oi + lookahead < batchWords.length;
          lookahead++)]: the first lookahead whose original word matches
    [punctBase]. *)
Fixpoint lookaheadBatch (oi : nat) (punctBase : jsstring) (las : list nat)
  : option nat :=
  match las with
  | [] => None
  | lookahead :: las' =>
      match batchWords !! (oi + lookahead) with
      | None => None
      | Some w =>
          if sameWord (baseOf toLowerCase (word w)) punctBase then Some lookahead
          else lookaheadBatch oi punctBase las'
      end
  end.

(** [for (let skip = 0; skip < lookahead; skip++)
       punctuatedWords.push(batchWords[oi + skip])]: the originals
    [oi .. oi + lookahead - 1], all in range. *)
Definition keptOriginals (oi lookahead : nat) : list WordTimestamp :=
  take lookahead (drop oi batchWords).

(** One iteration of the [while] loop, [original] being [batchWords[oi]]. *)
Definition punctStep (s : PunctState) (original : WordTimestamp) : PunctState :=
  let leadingSpace := leadingWhiteSpace (word original) in
  let origBase := baseOf toLowerCase (word original) in
  match punctuatedBatch !! pi s with
  | Some p =>
      let punctBase := baseOf toLowerCase p in
      if sameWord origBase punctBase then
        {| oi := S (oi s); pi := S (pi s); matched := S (matched s);
           punctuatedWords :=
             punctuatedWords s ++ [withWord original (leadingSpace ++ p)] |}
      else
        match lookaheadPunctuated (pi s) origBase [1; 2; 3] with
        | Some (lookahead, p') =>
            {| oi := S (oi s); pi := S (pi s + lookahead);
               matched := S (matched s);
               punctuatedWords :=
                 punctuatedWords s ++ [withWord original (leadingSpace ++ p')] |}
        | None =>
            match lookaheadBatch (oi s) punctBase [1; 2; 3] with
            | Some lookahead =>
                {| oi := oi s + lookahead; pi := pi s; matched := matched s;
                   punctuatedWords :=
                     punctuatedWords s ++ keptOriginals (oi s) lookahead |}
            | None =>
                {| oi := S (oi s); pi := pi s; matched := matched s;
                   punctuatedWords := punctuatedWords s ++ [original] |}
            end
        end
  | None =>
      {| oi := S (oi s); pi := pi s; matched := matched s;
         punctuatedWords := punctuatedWords s ++ [original] |}
  end.

(** [while (oi < batchWords.length) { ... }], by well-founded recursion on
    the number of words of the batch still to place. *)
Equations? punctLoop (s : PunctState) : PunctState
  by wf (length batchWords - oi s) lt :=
  punctLoop s with inspect (batchWords !! oi s) => {
    | exist _ (Some original) _ := punctLoop (punctStep s original);
    | exist _ None _ := s }.
Proof.
  apply lookup_lt_Some in e.
  unfold punctStep.
  repeat case_match; simpl; try lia.
  match goal with
  | H : lookaheadBatch _ _ _ = Some _ |- _ =>
      simpl in H; repeat case_match; try discriminate;
      injection H as <-; lia
  end.
Qed.

(** What the walk may push for the word [original] of the batch: the word
    itself, or the word with its text replaced by its own leading white
    space and a token of the batch that matches it. *)
Definition outcome (original out : WordTimestamp) : Prop :=
  out = original
  \/ exists p, p ∈ punctuatedBatch
       /\ (sameWord (baseOf toLowerCase (word original)) (baseOf toLowerCase p) = true
           \/ sameWord (baseOf toLowerCase p) (baseOf toLowerCase (word original)) = true)
       /\ out = withWord original (leadingWhiteSpace (word original) ++ p).

(** The invariant of the loop: the words pushed after [pushed] answer the
    words of the batch before [oi], one for one and in order. *)
Definition pushedInvariant (pushed : list WordTimestamp) (s : PunctState)
  : Prop :=
  oi s <= length batchWords
  /\ exists outs, punctuatedWords s = pushed ++ outs
             /\ Forall2 outcome (take (oi s) batchWords) outs.

(** The walk of one batch, started on the words [pushed] so far:
    [oi = 0], [pi = 0], [matched = 0]. *)
Definition alignBatch (pushed : list WordTimestamp) : PunctState :=
  punctLoop {| oi := 0; pi := 0; matched := 0; punctuatedWords := pushed |}.

End Punctuation.

(** The word [original] under the text of the token [p], after its own
    leading white space. *)
Definition replaceText (original : WordTimestamp) (p : jsstring) : WordTimestamp :=
  {| word := leadingWhiteSpace (word original) ++ p;
     start := start original; end_ := end_ original |}.

(** The invariant of the loop when each token answers the word at its own
    position: both pointers and the counter move together. *)
Definition directInvariant (batchWords : list WordTimestamp)
  (punctuatedBatch : list jsstring) (pushed : list WordTimestamp)
  (s : PunctState) : Prop :=
  oi s <= length batchWords /\ pi s = oi s /\ matched s = oi s
  /\ punctuatedWords s
     = pushed ++ zip_with replaceText (take (oi s) batchWords)
                   (take (oi s) punctuatedBatch).

(** A word of the transcript and the word returned for it: the same word, or
    the same time range under a text that keeps the leading white space. *)
Definition keptOrReplaced (original out : WordTimestamp) : Prop :=
  out = original
  \/ exists p, out = replaceText original p.

(** [BATCH_SIZE] *)
Definition BATCH_SIZE : nat := 500.

Section Batches.

Variable toLowerCase : jsstring -> jsstring.

(** The correction service on the batch that starts at word [i]: the
    tokens of its answer ([punctuatedText.split(/\s+/)]), or [None] when
    the request throws. *)
Variable service : nat -> list WordTimestamp -> option (list jsstring).

Variable words : list WordTimestamp.

(** [for (let i = 0; i < transcript.words.length; i += BATCH_SIZE)]:
    the batch is [transcript.words.slice(i, i + BATCH_SIZE)]; the [catch]
    pushes the batch as it is. *)
Equations? batchLoop (i : nat) (punctuatedWords : list WordTimestamp)
  : list WordTimestamp by wf (length words - i) lt :=
  batchLoop i punctuatedWords with inspect (i <? length words) => {
    | exist _ true _ :=
        let batchWords := take BATCH_SIZE (drop i words) in
        batchLoop (i + BATCH_SIZE)
          match service i batchWords with
          | Some punctuatedBatch =>
              Transcription.punctuatedWords
                (alignBatch toLowerCase batchWords punctuatedBatch punctuatedWords)
          | None => punctuatedWords ++ batchWords
          end;
    | exist _ false _ := punctuatedWords }.
Proof.
  apply Nat.ltb_lt in e. unfold BATCH_SIZE. lia.
Qed.

(** The [words] of the transcript returned by [addPunctuation]; [apiKey]
    tells whether a key is set. *)
Definition addPunctuation (apiKey : bool) : list WordTimestamp :=
  if negb apiKey || (length words =? 0) then words
  else batchLoop 0 [].

End Batches.

(** *** The transcript returned by [addPunctuation] *)

(** The words pushed for the batch that starts at word [i] of [words]: the
    walk of the batch on its own, or the batch as it is when the request
    throws. *)
Definition punctuatedBatchWords (toLowerCase : jsstring -> jsstring)
  (service : nat -> list WordTimestamp -> option (list jsstring))
  (words : list WordTimestamp) (i : nat) : list WordTimestamp :=
  let batchWords := take BATCH_SIZE (drop i words) in
  match service i batchWords with
  | Some punctuatedBatch =>
      punctuatedWords (alignBatch toLowerCase batchWords punctuatedBatch [])
  | None => batchWords
  end.

(** The word pushed for the word [original] of a batch: under the token [k]
    of the answer, whose text matches it, or as it is. *)
Definition placedToken (toLowerCase : jsstring -> jsstring)
  (punctuatedBatch : list jsstring) (original : WordTimestamp)
  (m : option nat) (out : WordTimestamp) : Prop :=
  match m with
  | Some k =>
      exists p, punctuatedBatch !! k = Some p
        /\ sameWord (baseOf toLowerCase (word original)) (baseOf toLowerCase p) = true
        /\ out = replaceText original p
  | None => out = original
  end.

(** [w.start >= segment.start && w.end <= segment.end] *)
Definition inSegment (segment : Segment.t) (w : WordTimestamp) : bool :=
  Qle_bool (Segment.start segment) (start w)
  && Qle_bool (end_ w) (Segment.end_ segment).

(** The body of [transcript.segments.map(segment => ...)]:
    [{ ...segment,
       text: segmentWords.map(w => w.word).join('').trim() || segment.text }]
    for [segmentWords = punctuatedWords.filter(w => ...)]. *)
Definition punctuatedSegment (punctuatedWords : list WordTimestamp)
  (segment : Segment.t) : Segment.t :=
  let segmentWords := List.filter (inSegment segment) punctuatedWords in
  let text := trim (join [] (word <$> segmentWords)) in
  {| Segment.text := if length text =? 0 then Segment.text segment else text;
     Segment.start := Segment.start segment;
     Segment.end_ := Segment.end_ segment |}.

(** [addPunctuation(transcript, options)] on the whole transcript: the early
    return, the loop over the batches, the segments rebuilt from the words. *)
Definition addPunctuationTranscript (toLowerCase : jsstring -> jsstring)
  (service : nat -> list WordTimestamp -> option (list jsstring))
  (apiKey : bool) (transcript : Transcript.t) : Transcript.t :=
  if negb apiKey || (length (Transcript.words transcript) =? 0) then transcript
  else
    let punctuatedWords :=
      batchLoop toLowerCase service (Transcript.words transcript) 0 [] in
    {| Transcript.words := punctuatedWords;
       Transcript.segments :=
         punctuatedSegment punctuatedWords <$> Transcript.segments transcript;
       Transcript.language := Transcript.language transcript;
       Transcript.duration := Transcript.duration transcript |}.

(** *** [lemmatizeWords] *)

Module Lemmatize.

(** [{ word, start, end, lemma }]: a word of a transcript, with its lemma
    when it has one. *)
Record LemmaWord : Type :=
  mkLemmaWord { timestamp : WordTimestamp; lemma : option jsstring }.

(** [BATCH_SIZE] *)
Definition BATCH_SIZE : nat := 300.

Section Lemmas.

Variable toLowerCase : jsstring -> jsstring.

(** The lemmatisation service on the batch that starts at unique word [i]:
    the entries of the object of its answer ([Object.entries(parsed)]),
    each a key with the string under it, or with [None] for a value that is
    not a string; [None] when the request or [JSON.parse] throws. *)
Variable service : nat -> list jsstring -> option (list (jsstring * option jsstring)).

Variable words : list LemmaWord.

(** [stripPunctuation(w.word).toLowerCase()] *)
Definition normalizedOf (w : LemmaWord) : jsstring :=
  baseOf toLowerCase (word (timestamp w)).

(** [if (normalized) wordSet.add(normalized)]: a set keeps its elements in
    the order of their first insertion. *)
Definition addWord (wordSet : list jsstring) (w : LemmaWord) : list jsstring :=
  let normalized := normalizedOf w in
  if (0 <? length normalized) && negb (bool_decide (normalized ∈ wordSet))
  then wordSet ++ [normalized]
  else wordSet.

(** [Array.from(wordSet)] after the loop over [transcript.words]. *)
Definition uniqueWords : list jsstring := foldl addWord [] words.

(** [if (typeof lemma === 'string' && lemma.length > 0)
       lemmaMap.set(word.toLowerCase(), lemma.toLowerCase())] *)
Definition setLemma (lemmaMap : gmap jsstring jsstring)
  (entry : jsstring * option jsstring) : gmap jsstring jsstring :=
  match entry.2 with
  | Some lemma =>
      if 0 <? length lemma
      then <[ toLowerCase entry.1 := toLowerCase lemma ]> lemmaMap
      else lemmaMap
  | None => lemmaMap
  end.

(** [for (let i = 0; i < uniqueWords.length; i += BATCH_SIZE)]: the batch
    is [uniqueWords.slice(i, i + BATCH_SIZE)]; the [catch] skips the
    batch. *)
Equations? lemmaLoop (i : nat) (lemmaMap : gmap jsstring jsstring)
  : gmap jsstring jsstring by wf (length uniqueWords - i) lt :=
  lemmaLoop i lemmaMap with inspect (i <? length uniqueWords) => {
    | exist _ true _ :=
        let batch := take BATCH_SIZE (drop i uniqueWords) in
        lemmaLoop (i + BATCH_SIZE)
          match service i batch with
          | Some entries => foldl setLemma lemmaMap entries
          | None => lemmaMap
          end;
    | exist _ false _ := lemmaMap }.
Proof.
  apply Nat.ltb_lt in e. unfold BATCH_SIZE. lia.
Qed.

(** [Math.round((i / uniqueWords.length) * 95)] *)
Definition batchRangeStart (i : nat) : Z :=
  ProgressUtils.round (num i / num (length uniqueWords) * 95).

(** [Math.round(((i + batch.length) / uniqueWords.length) * 95)] *)
Definition batchRangeEnd (i : nat) : Z :=
  let batch := take BATCH_SIZE (drop i uniqueWords) in
  ProgressUtils.round (num (i + length batch) / num (length uniqueWords) * 95).

(** The percentage reported by the heartbeat of the batch that starts at
    [i], [elapsed] seconds after the request was sent:
    [mapProgress(subPct, batchRangeStart, batchRangeEnd)] for
    [subPct = Math.min(90, Math.round((elapsed / (estimatedSecsPerBatch * 1.5)) * 100))]
    and [estimatedSecsPerBatch = 12]. *)
Definition heartbeatPercent (i : nat) (elapsed : Q) : Z :=
  let subPct := Z.min 90 (ProgressUtils.round (elapsed / (12 * 1.5) * 100)) in
  ProgressUtils.mapProgress (inject_Z subPct)
    (inject_Z (batchRangeStart i)) (inject_Z (batchRangeEnd i)).

(** The body of [transcript.words.map(w => ...)]:
    [lemma ? { ...w, lemma } : w] for [lemma = lemmaMap.get(normalized)]. *)
Definition attachLemma (lemmaMap : gmap jsstring jsstring) (w : LemmaWord)
  : LemmaWord :=
  match lemmaMap !! normalizedOf w with
  | Some lemma =>
      if 0 <? length lemma
      then {| timestamp := timestamp w; lemma := Some lemma |}
      else w
  | None => w
  end.

(** The [words] of the transcript returned by [lemmatizeWords]; [apiKey]
    tells whether a key is set. *)
Definition lemmatizeWords (apiKey : bool) : list LemmaWord :=
  if negb apiKey || (length words =? 0) then words
  else attachLemma (lemmaLoop 0 ∅) <$> words.

End Lemmas.

End Lemmatize.

End Transcription.

(** ** [server/media/tts.js] *)

Module Tts.

Import TextUtils.

(** [transcribeAndAlignTTS(text, audioPath, options)] from the point where
    [whisperResult], the transcription of the audio, is back. The loop that
    builds the segments is the one of [estimateWordTimestamps]. *)
Definition transcribeAndAlignTTS (toLowerCase : jsstring -> jsstring)
  (whisperResult : Transcript.t) (text : jsstring) : Transcript.t :=
  let originalWords := splitWords text in
  let alignedWords :=
    alignWhisperToOriginal toLowerCase (Transcript.words whisperResult)
      originalWords in
  {| Transcript.words := alignedWords;
     Transcript.segments := buildSegments alignedWords;
     Transcript.language :=
       if length (Transcript.language whisperResult) =? 0 then ru
       else Transcript.language whisperResult;
     Transcript.duration := Transcript.duration whisperResult |}.

(** The string [tts], the type of the progress of [generateTtsAudio]. *)
Definition tts : jsstring := [116; 116; 115]%N.

(** [Math.max(5, Math.round(text.length / 70))] *)
Definition estimatedSeconds (text : jsstring) : Z :=
  Z.max 5 (ProgressUtils.round (num (length text) / 70)).

(** The [percent] of the message builder of the heartbeat of
    [generateTtsAudio]:
    [Math.min(95, Math.round((elapsed / estimatedSeconds) * 100))] for
    [elapsed = ticks / 2]. *)
Definition ttsPercent (text : jsstring) (ticks : nat) : Z :=
  let elapsed := (num ticks / 2)%Q in
  Z.min 95 (ProgressUtils.round (elapsed / inject_Z (estimatedSeconds text) * 100)).

(** The message builder of the heartbeat of [generateTtsAudio]; [message]
    stands for the template string of its message. *)
Definition ttsMessageBuilder (message : nat -> jsstring) (text : jsstring)
  (ticks : nat) : ProgressUtils.BuilderResult :=
  ProgressUtils.Object (Some (inject_Z (ttsPercent text ticks))) (message ticks).

End Tts.

(** ** Binary64 *)

Module Binary64.

(** A natural number as a double, exact below [2^53]. *)
Fixpoint num64 (n : nat) : float :=
  match n with
  | 0 => 0%float
  | S n' => (num64 n' + 1)%float
  end.

(** [Math.floor(x) === k], for a double [x] that is not negative. *)
Definition floorIs (x : float) (k : nat) : bool :=
  ((num64 k <=? x) && (x <? num64 k + 1))%float.

(** [(nextStart - prevEnd) / (gapCount + 1)] *)
Definition step64 (prevEnd nextStart gapCount : float) : float :=
  ((nextStart - prevEnd) / (gapCount + 1))%float.

(** The pair of [prevEnd + step * pos] and [prevEnd + step * (pos + 0.8)]. *)
#[warnings="-inexact-float"]
Definition filled64 (prevEnd step pos : float) : float * float :=
  ((prevEnd + step * pos)%float, (prevEnd + step * (pos + 0.8))%float).

(** [Math.round(x) === k], for a double [x] that is not negative. *)
#[warnings="-inexact-float"]
Definition roundIs (x : float) (k : nat) : bool :=
  ((num64 k - 0.5 <=? x) && (x <? num64 k + 0.5))%float.

(** The values of [rangeEnd] in the loop of [computeRanges], on doubles. *)
Definition rangeEnds64 (weights : list float) : list float :=
  let total := foldl PrimFloat.add 0%float weights in
  (foldl (fun state w =>
            let rangeEnd := (state.1 + w / total * 100)%float in
            (rangeEnd, state.2 ++ [rangeEnd]))
     (0%float, []) weights).2.

(** [Math.round] of every [rangeEnd] on doubles is the end of the range
    computed on rationals. *)
Definition sameRangeEnds (weights64 : list float) (weights : list Q) : bool :=
  forallb (fun p => roundIs p.1 (Z.to_nat p.2.2))
    (zip (rangeEnds64 weights64) (ProgressUtils.computeRanges weights)).

End Binary64.

(** ** Worked examples *)

Module Examples.

Import TextUtils.

(** The words [привет], [Привет], [как], [дела], [мир], [скажым], [скажем]
    and the tokens [,] and [?]. *)
Definition privet : jsstring := [1087; 1088; 1080; 1074; 1077; 1090]%N.
Definition Privet : jsstring := [1055; 1088; 1080; 1074; 1077; 1090]%N.
Definition kak : jsstring := [1082; 1072; 1082]%N.
Definition dela : jsstring := [1076; 1077; 1083; 1072]%N.
Definition mir : jsstring := [1084; 1080; 1088]%N.
Definition skazhym : jsstring := [1089; 1082; 1072; 1078; 1099; 1084]%N.
Definition skazhem : jsstring := [1089; 1082; 1072; 1078; 1077; 1084]%N.
Definition comma : jsstring := [44]%N.
Definition questionMark : jsstring := [63]%N.

(** The source of the lookahead example: three words, one second each. *)
Definition greeting : list WordTimestamp :=
  [mkWord privet 0 1; mkWord kak 1 2; mkWord dela 2 3].

(** Its correction, with a comma and a question mark as tokens of their own. *)
Definition greetingCorrected : list jsstring :=
  [Privet; comma; kak; dela; questionMark].

(** The letters [a], [b], [c], [d] as words. *)
Definition a : jsstring := [97]%N.
Definition b : jsstring := [98]%N.
Definition c : jsstring := [99]%N.
Definition d : jsstring := [100]%N.

(** A transcription that heard [a] and [d] of the script [a b c d]. *)
Definition heardAD : list WordTimestamp := [mkWord a 9 10; mkWord d 13 14].
Definition scriptABCD : list jsstring := [a; b; c; d].

(** Transcriptions with times below zero. *)
Definition heardC : list WordTimestamp := [mkWord c (-1.5) (-1.2)].
Definition heardB : list WordTimestamp := [mkWord b (-2) (-1.5)].
Definition heardEarlyB : list WordTimestamp := [mkWord b (-10) (-5)].

(** A transcript of the word [привет] said twice, and an answer of the
    lemmatisation service that gives [привет] the lemma [привет]. *)
Definition privetTwice : list Transcription.Lemmatize.LemmaWord :=
  [Transcription.Lemmatize.mkLemmaWord (mkWord Privet 0 1) None;
   Transcription.Lemmatize.mkLemmaWord (mkWord (32%N :: privet) 1 2) None].

End Examples.

(** * Properties *)

Import TextUtils.

(** ** The Levenshtein distance and edit scripts *)

Section Levenshtein.

Implicit Types a b : jsstring.
Implicit Types x y : N.

Lemma min3_comm12 p q r : min3 p q r = min3 q p r.
Proof. unfold min3. lia. Qed.

Lemma levenshtein_nil_r a : levenshtein a [] = length a.
Proof. by destruct a. Qed.

Lemma levenshtein_cons x a y b :
  levenshtein (x :: a) (y :: b)
  = min3 (levenshtein a (y :: b) + 1) (levenshtein (x :: a) b + 1)
         (levenshtein a b + cost x y).
Proof. reflexivity. Qed.

Lemma levenshtein_delete x a b : levenshtein (x :: a) b <= levenshtein a b + 1.
Proof.
  destruct b as [|y b].
  - rewrite !levenshtein_nil_r. simpl. lia.
  - rewrite levenshtein_cons. unfold min3. lia.
Qed.

Lemma levenshtein_insert y a b : levenshtein a (y :: b) <= levenshtein a b + 1.
Proof.
  destruct a as [|x a].
  - simpl. lia.
  - rewrite levenshtein_cons. unfold min3. lia.
Qed.

(** No edit script is shorter than the distance. *)
Lemma edits_lower_bound n a b : edits n a b -> levenshtein a b <= n.
Proof.
  induction 1 as [|x a b n _ IH|x y a b n _ IH|x a b n _ IH|y a b n _ IH].
  - simpl. lia.
  - rewrite levenshtein_cons. unfold min3, cost.
    rewrite bool_decide_eq_true_2 by done. lia.
  - rewrite levenshtein_cons. unfold min3, cost. case_bool_decide; lia.
  - pose proof (levenshtein_delete x a b). lia.
  - pose proof (levenshtein_insert y a b). lia.
Qed.

Lemma edits_from_nil b : edits (length b) [] b.
Proof. induction b; simpl; by constructor. Qed.

Lemma edits_to_nil a : edits (length a) a [].
Proof. induction a; simpl; by constructor. Qed.

(** Some edit script has the length of the distance. *)
Lemma edits_levenshtein a b : edits (levenshtein a b) a b.
Proof.
  revert b. induction a as [|x a IHa]; intros b.
  - apply edits_from_nil.
  - induction b as [|y b IHb].
    + rewrite levenshtein_nil_r. apply edits_to_nil.
    + rewrite levenshtein_cons.
      assert (Hmin : forall p q r, min3 p q r = p \/ min3 p q r = q \/ min3 p q r = r)
        by (intros; unfold min3; lia).
      destruct (Hmin (levenshtein a (y :: b) + 1) (levenshtein (x :: a) b + 1)
                     (levenshtein a b + cost x y)) as [-> | [-> | ->]].
      * rewrite Nat.add_1_r. apply edits_delete, IHa.
      * rewrite Nat.add_1_r. apply edits_insert, IHb.
      * unfold cost. case_bool_decide as Hxy.
        -- subst y. rewrite Nat.add_0_r. apply edits_keep, IHa.
        -- rewrite Nat.add_1_r. apply edits_subst, IHa.
Qed.

Lemma edits_sym n a b : edits n a b -> edits n b a.
Proof. induction 1; by constructor. Qed.

Lemma edits_snoc_keep n a b x : edits n a b -> edits n (a ++ [x]) (b ++ [x]).
Proof. induction 1; simpl; repeat constructor; done. Qed.

Lemma edits_snoc_subst n a b x y :
  edits n a b -> edits (S n) (a ++ [x]) (b ++ [y]).
Proof. induction 1; simpl; repeat constructor; done. Qed.

Lemma edits_snoc_delete n a b x : edits n a b -> edits (S n) (a ++ [x]) b.
Proof. induction 1; simpl; repeat constructor; done. Qed.

Lemma edits_snoc_insert n a b y : edits n a b -> edits (S n) a (b ++ [y]).
Proof. induction 1; simpl; repeat constructor; done. Qed.

Lemma edits_rev n a b : edits n a b -> edits n (rev a) (rev b).
Proof.
  induction 1; simpl.
  - constructor.
  - by apply edits_snoc_keep.
  - by apply edits_snoc_subst.
  - by apply edits_snoc_delete.
  - by apply edits_snoc_insert.
Qed.

Lemma levenshtein_sym a b : levenshtein a b = levenshtein b a.
Proof.
  apply Nat.le_antisymm; apply edits_lower_bound, edits_sym, edits_levenshtein.
Qed.

Lemma levenshtein_rev a b : levenshtein (rev a) (rev b) = levenshtein a b.
Proof.
  apply Nat.le_antisymm.
  - apply edits_lower_bound, edits_rev, edits_levenshtein.
  - rewrite <- (rev_involutive a), <- (rev_involutive b) at 1.
    apply edits_lower_bound, edits_rev, edits_levenshtein.
Qed.

(** The recurrence of the matrix method, on the last characters. *)
Lemma levenshtein_snoc a x b y :
  levenshtein (a ++ [x]) (b ++ [y])
  = min3 (levenshtein a (b ++ [y]) + 1) (levenshtein (a ++ [x]) b + 1)
         (levenshtein a b + cost x y).
Proof.
  rewrite <- (levenshtein_rev (a ++ [x]) (b ++ [y])).
  rewrite <- (levenshtein_rev a (b ++ [y])).
  rewrite <- (levenshtein_rev (a ++ [x]) b).
  rewrite <- (levenshtein_rev a b).
  rewrite !rev_unit. apply levenshtein_cons.
Qed.

Lemma levenshtein_refl a : levenshtein a a = 0.
Proof.
  assert (edits 0 a a) as H by (induction a; by constructor).
  apply edits_lower_bound in H. lia.
Qed.

End Levenshtein.

(** ** The rolling rows of [editDistance] *)

Section RollingRows.

Variables a b : jsstring.

(** The entry of the full matrix in row [i], column [j]. *)
Local Abbreviation D i j := (levenshtein (take j a) (take i b)).

Local Abbreviation isRow := (TextUtils.isRow a b).

Lemma cell_insert_eq row j v : j < length row -> cell (<[j := v]> row) j = v.
Proof. intros. unfold cell. by rewrite list_lookup_insert_eq. Qed.

Lemma cell_insert_ne row i j v : i <> j -> cell (<[i := v]> row) j = cell row j.
Proof. intros. unfold cell. by rewrite list_lookup_insert_ne. Qed.

Lemma isRow_0 : isRow 0 (seq 0 (length a + 1)).
Proof.
  split; [by rewrite length_seq|].
  intros j Hj. unfold cell. rewrite lookup_seq_lt by lia. simpl.
  rewrite take_0, levenshtein_nil_r, length_take. lia.
Qed.

Lemma matrix_cell i j :
  i < length b -> j < length a ->
  D (S i) (S j)
  = min3 (D i (S j) + 1) (D (S i) j + 1)
      (D i j + (if bool_decide (a !! j = b !! i) then 0 else 1)).
Proof.
  intros Hi Hj.
  destruct (lookup_lt_is_Some_2 a j Hj) as [x Hx].
  destruct (lookup_lt_is_Some_2 b i Hi) as [y Hy].
  rewrite (take_S_r a j x Hx), (take_S_r b i y Hy), Hx, Hy.
  rewrite levenshtein_snoc, min3_comm12. unfold cost.
  do 2 f_equal. repeat case_bool_decide; congruence.
Qed.

(** The inner loop, after the columns [1 .. m]. *)
Lemma inner_loop i prev curr m :
  i < length b -> m <= length a ->
  isRow i prev -> length curr = length a + 1 ->
  let curr' := foldl (fillCell a b (S i) prev) (<[0 := S i]> curr) (seq 1 m) in
  length curr' = length a + 1 /\ forall j, j <= m -> cell curr' j = D (S i) j.
Proof.
  intros Hi Hm [Hlen Hprev] Hcurr. cbv zeta. induction m as [|m IH].
  - simpl. split; [by rewrite length_insert|].
    intros j Hj. assert (j = 0) as -> by lia.
    rewrite cell_insert_eq by lia.
    rewrite take_0. simpl. rewrite length_take. lia.
  - rewrite seq_S, foldl_app. simpl.
    destruct IH as [IHlen IHcell]; [lia|].
    set (c := foldl _ _ _) in *. unfold fillCell.
    split; [by rewrite length_insert|].
    intros j Hj. destruct (decide (j = S m)) as [->|Hne].
    + rewrite cell_insert_eq by lia.
      replace (S m - 1) with m by lia. replace (S i - 1) with i by lia.
      rewrite !Hprev, IHcell by lia. by rewrite matrix_cell by lia.
    + rewrite cell_insert_ne by done. apply IHcell. lia.
Qed.

Lemma fillRow_isRow i prev curr :
  i < length b -> isRow i prev -> length curr = length a + 1 ->
  isRow (S i) (fillRow a b (prev, curr) (S i)).1
  /\ length (fillRow a b (prev, curr) (S i)).2 = length a + 1.
Proof.
  intros Hi Hprev Hcurr. unfold fillRow; simpl.
  destruct (inner_loop i prev curr (length a) Hi (le_n _) Hprev Hcurr) as [H1 H2].
  split; [split; done | apply Hprev].
Qed.

(** The outer loop, after the rows [1 .. n]. *)
Lemma outer_loop n :
  n <= length b ->
  let rows := foldl (fillRow a b) (seq 0 (length a + 1), replicate (length a + 1) 0)
                (seq 1 n) in
  isRow n rows.1 /\ length rows.2 = length a + 1.
Proof.
  cbv zeta. induction n as [|n IH]; intros Hn.
  - simpl. split; [apply isRow_0 | by rewrite length_replicate].
  - rewrite seq_S, foldl_app. simpl.
    destruct IH as [IH1 IH2]; [lia|].
    destruct (foldl _ _ _) as [prev curr]. by apply fillRow_isRow.
Qed.

Lemma editRows_levenshtein :
  cell (editRows a b).1 (length a) = levenshtein a b.
Proof.
  destruct (outer_loop (length b) (le_n _)) as [[_ Hrow] _].
  unfold editRows. rewrite Hrow by done.
  by rewrite !firstn_all.
Qed.

End RollingRows.

Lemma editDistance_levenshtein (a b : jsstring) :
  editDistance a b = levenshtein a b.
Proof.
  unfold editDistance.
  destruct (Nat.eqb_spec (length a) 0) as [Ha|Ha].
  { apply nil_length_inv in Ha. by subst. }
  destruct (Nat.eqb_spec (length b) 0) as [Hb|Hb].
  { apply nil_length_inv in Hb. subst. by rewrite levenshtein_nil_r. }
  destruct (length b <? length a); simpl; rewrite editRows_levenshtein.
  - apply levenshtein_sym.
  - done.
Qed.

(** ** The tests of the repository

    The cases of the repository's unit tests of [stripPunctuation],
    [editDistance] and [isFuzzyMatch], run on the embedding. *)

Example test_stripPunctuation :
  (* «Привет» *)
  stripPunctuation [171; 1055; 1088; 1080; 1074; 1077; 1090; 187]%N = [1055; 1088; 1080; 1074; 1077; 1090]%N
  /\ (* слово. *)
  stripPunctuation [1089; 1083; 1086; 1074; 1086; 46]%N = [1089; 1083; 1086; 1074; 1086]%N
  /\ (* ,слово, *)
  stripPunctuation [44; 1089; 1083; 1086; 1074; 1086; 44]%N = [1089; 1083; 1086; 1074; 1086]%N
  /\ (* ...слово! *)
  stripPunctuation [46; 46; 46; 1089; 1083; 1086; 1074; 1086; 33]%N = [1089; 1083; 1086; 1074; 1086]%N
  /\ (* —слово— *)
  stripPunctuation [8212; 1089; 1083; 1086; 1074; 1086; 8212]%N = [1089; 1083; 1086; 1074; 1086]%N
  /\ (* кто-то *)
  stripPunctuation [1082; 1090; 1086; 45; 1090; 1086]%N = [1082; 1090; 1086; 45; 1090; 1086]%N
  /\ (* ... *)
  stripPunctuation [46; 46; 46]%N = []
  /\ (* — *)
  stripPunctuation [8212]%N = []
  /\ (* программа *)
  stripPunctuation [1087; 1088; 1086; 1075; 1088; 1072; 1084; 1084; 1072]%N = [1087; 1088; 1086; 1075; 1088; 1072; 1084; 1084; 1072]%N
  /\ (* hello *)
  stripPunctuation [104; 101; 108; 108; 111]%N = [104; 101; 108; 108; 111]%N.
Proof. repeat split; by vm_compute. Qed.

Example test_editDistance :
  (* abc, abc *)
  editDistance [97; 98; 99]%N [97; 98; 99]%N = 0
  /\ (* программа, программа *)
  editDistance [1087; 1088; 1086; 1075; 1088; 1072; 1084; 1084; 1072]%N [1087; 1088; 1086; 1075; 1088; 1072; 1084; 1084; 1072]%N = 0
  /\ (* the empty string, abc *)
  editDistance [] [97; 98; 99]%N = 3
  /\ (* abc, the empty string *)
  editDistance [97; 98; 99]%N [] = 3
  /\ (* the empty string, the empty string *)
  editDistance [] [] = 0
  /\ (* cat, bat *)
  editDistance [99; 97; 116]%N [98; 97; 116]%N = 1
  /\ (* cat, cats *)
  editDistance [99; 97; 116]%N [99; 97; 116; 115]%N = 1
  /\ (* cats, cat *)
  editDistance [99; 97; 116; 115]%N [99; 97; 116]%N = 1
  /\ (* kitten, sitting *)
  editDistance [107; 105; 116; 116; 101; 110]%N [115; 105; 116; 116; 105; 110; 103]%N = 3
  /\ (* sunday, saturday *)
  editDistance [115; 117; 110; 100; 97; 121]%N [115; 97; 116; 117; 114; 100; 97; 121]%N = 3
  /\ (* пограмма, программа *)
  editDistance [1087; 1086; 1075; 1088; 1072; 1084; 1084; 1072]%N [1087; 1088; 1086; 1075; 1088; 1072; 1084; 1084; 1072]%N = 1
  /\ (* скажым, скажем *)
  editDistance [1089; 1082; 1072; 1078; 1099; 1084]%N [1089; 1082; 1072; 1078; 1077; 1084]%N = 1.
Proof. repeat split; by vm_compute. Qed.

Example test_isFuzzyMatch :
  (* да, до *)
  isFuzzyMatch [1076; 1072]%N [1076; 1086]%N = false
  /\ (* кот, код *)
  isFuzzyMatch [1082; 1086; 1090]%N [1082; 1086; 1076]%N = false
  /\ (* пограмма, программа *)
  isFuzzyMatch [1087; 1086; 1075; 1088; 1072; 1084; 1084; 1072]%N [1087; 1088; 1086; 1075; 1088; 1072; 1084; 1084; 1072]%N = true
  /\ (* скажым, скажем *)
  isFuzzyMatch [1089; 1082; 1072; 1078; 1099; 1084]%N [1089; 1082; 1072; 1078; 1077; 1084]%N = true
  /\ (* программа, телевизор *)
  isFuzzyMatch [1087; 1088; 1086; 1075; 1088; 1072; 1084; 1084; 1072]%N [1090; 1077; 1083; 1077; 1074; 1080; 1079; 1086; 1088]%N = false
  /\ (* hello, world *)
  isFuzzyMatch [104; 101; 108; 108; 111]%N [119; 111; 114; 108; 100]%N = false
  /\ (* программа, программа *)
  isFuzzyMatch [1087; 1088; 1086; 1075; 1088; 1072; 1084; 1084; 1072]%N [1087; 1088; 1086; 1075; 1088; 1072; 1084; 1084; 1072]%N = true
  /\ (* hello, hello *)
  isFuzzyMatch [104; 101; 108; 108; 111]%N [104; 101; 108; 108; 111]%N = true.
Proof. repeat split; by vm_compute. Qed.

(** ** The walk of [alignWhisperToOriginal] *)

Section AlignWalk.

Variable toLowerCase : jsstring -> jsstring.
Variable whisperWords : list WordTimestamp.
Variable originalWords : list jsstring.

Local Abbreviation step := (alignStep toLowerCase whisperWords originalWords).
Local Abbreviation loop := (alignLoop toLowerCase whisperWords originalWords).

Lemma alignLoop_unfold s :
  loop s = match originalWords !! oi s with
           | Some origWord => loop (step s origWord)
           | None => s
           end.
Proof.
  simp alignLoop.
  destruct (inspect (originalWords !! oi s)) as [[w|] e]; simpl; by rewrite e.
Qed.

Lemma lookaheadWhisper_Some wi0 base las la lw :
  lookaheadWhisper toLowerCase whisperWords wi0 base las = Some (la, lw) ->
  la ∈ las /\ whisperWords !! (wi0 + la) = Some lw
  /\ sameWord (baseOf toLowerCase (word lw)) base = true.
Proof.
  induction las as [|l las IH]; simpl; [done|].
  destruct (whisperWords !! (wi0 + l)) as [w|] eqn:Hw; [|done].
  destruct (sameWord (baseOf toLowerCase (word w)) base) eqn:Hs.
  - intros [= <- <-]. split; [left | done].
  - intros H. destruct (IH H) as (? & ? & ?). split; [by right | done].
Qed.

Lemma lookaheadOriginal_Some oi0 base las la :
  lookaheadOriginal toLowerCase originalWords oi0 base las = Some la ->
  la ∈ las /\ exists w, originalWords !! (oi0 + la) = Some w
                   /\ sameWord (baseOf toLowerCase w) base = true.
Proof.
  induction las as [|l las IH]; simpl; [done|].
  destruct (originalWords !! (oi0 + l)) as [w|] eqn:Hw; [|done].
  destruct (sameWord (baseOf toLowerCase w) base) eqn:Hs.
  - intros [= <-]. split; [left | eauto].
  - intros H. destruct (IH H) as (? & ?). split; [by right | done].
Qed.

Lemma elem_of_123 la : la ∈ [1; 2; 3] -> 1 <= la <= 3.
Proof. rewrite !elem_of_cons, elem_of_nil. lia. Qed.

(** Every iteration moves [oi] forward and keeps it within the array. *)
Lemma alignStep_oi s origWord :
  originalWords !! oi s = Some origWord ->
  oi s < oi (step s origWord) <= length originalWords.
Proof.
  intros Ho. apply lookup_lt_Some in Ho.
  unfold alignStep. repeat case_match; simpl; try lia.
  match goal with
  | H : lookaheadOriginal _ _ _ _ _ = Some _ |- _ =>
      apply lookaheadOriginal_Some in H as (Hla%elem_of_123 & w' & Hw'%lookup_lt_Some & _)
  end.
  lia.
Qed.

(** The rule of the loop: an invariant of the body holds at the exit, where
    [oi] has left the array. *)
Lemma alignLoop_invariant (P : AlignState -> Prop) :
  (forall s origWord, originalWords !! oi s = Some origWord -> P s -> P (step s origWord)) ->
  forall s, P s -> P (loop s) /\ originalWords !! oi (loop s) = None.
Proof.
  intros Hstep s.
  remember (length originalWords - oi s) as n eqn:Hn.
  revert s Hn. induction n as [n IH] using lt_wf_ind. intros s Hn Hs.
  rewrite alignLoop_unfold.
  destruct (originalWords !! oi s) as [w|] eqn:Hw; [|done].
  pose proof (alignStep_oi s w Hw).
  apply (IH (length originalWords - oi (step s w))); [lia | done | by apply Hstep].
Qed.

(** The texts of the output: the original words, each but the first after
    one space. *)
Lemma originalTexts_lookup i w :
  originalWords !! i = Some w ->
  originalTexts originalWords !! i = Some (leadingSpaceAt i ++ w).
Proof. intros H. unfold originalTexts. by rewrite list_lookup_imap, H. Qed.

Lemma skippedOriginals_words oi0 la :
  oi0 + la <= length originalWords ->
  word <$> skippedOriginals originalWords oi0 la
  = take la (drop oi0 (originalTexts originalWords)).
Proof.
  intros Hla. unfold skippedOriginals. apply list_eq. intros k.
  rewrite <- list_fmap_compose, list_lookup_fmap.
  destruct (decide (k < la)) as [Hk|Hk].
  - rewrite lookup_seq_lt, lookup_take_lt, lookup_drop by done. simpl.
    destruct (lookup_lt_is_Some_2 originalWords (oi0 + k)) as [w Hw]; [lia|].
    by rewrite (originalTexts_lookup _ _ Hw), Hw.
  - rewrite lookup_seq_ge, lookup_take_ge by lia. done.
Qed.

Local Abbreviation textInvariant := (TextUtils.textInvariant originalWords).

Lemma textInvariant_step s origWord :
  originalWords !! oi s = Some origWord ->
  textInvariant s -> textInvariant (step s origWord).
Proof.
  intros Ho [Hle Hres]. split; [apply (alignStep_oi s origWord Ho)|].
  assert (Hpush : forall st en,
    word <$> (result s ++ [mkWord (leadingSpaceAt (oi s) ++ origWord) st en])
    = take (S (oi s)) (originalTexts originalWords)).
  { intros. rewrite fmap_app, Hres. simpl.
    by rewrite (take_S_r _ _ _ (originalTexts_lookup _ _ Ho)). }
  unfold alignStep. repeat case_match; simpl; try apply Hpush.
  match goal with
  | H : lookaheadOriginal _ _ _ _ _ = Some _ |- _ =>
      apply lookaheadOriginal_Some in H as (_ & w' & Hw'%lookup_lt_Some & _)
  end.
  rewrite fmap_app, Hres, skippedOriginals_words by lia.
  apply take_take_drop.
Qed.

Lemma alignWalk_words :
  word <$> alignWalk toLowerCase whisperWords originalWords
  = originalTexts originalWords.
Proof.
  unfold alignWalk.
  destruct (alignLoop_invariant textInvariant textInvariant_step
              {| wi := 0; oi := 0; result := [] |}) as [[Hle Hres] Hend].
  { split; simpl; [lia | done]. }
  apply lookup_ge_None in Hend. rewrite Hres.
  apply take_ge. unfold originalTexts. rewrite length_imap. lia.
Qed.

End AlignWalk.

(** ** The interpolation loop *)

Section Interpolation.

Implicit Types r : list WordTimestamp.
Implicit Types t : WordTimestamp.

(** The word written at position [pos] of a gap. *)
Lemma fillGap_unfold prevEnd step j pos r :
  fillGap prevEnd step j pos r
  = match r !! j with
    | Some t =>
        if isMinusOne (start t) then
          fillGap prevEnd step (S j) (S pos)
            (<[ j := filled prevEnd step (S pos) t ]> r)
        else r
    | None => r
    end.
Proof.
  simp fillGap.
  destruct (inspect (r !! j)) as [[t|] e]; simpl; [|by rewrite e].
  destruct (isMinusOne (start t)) eqn:Hgap; simpl; by rewrite e, Hgap.
Qed.

(** A property of the array that each write of the loop keeps is kept by
    the loop. *)
Lemma fillGap_preserves (P : list WordTimestamp -> Prop) prevEnd step :
  (forall r j t pos, r !! j = Some t -> isMinusOne (start t) = true ->
     P r -> P (<[ j := filled prevEnd step pos t ]> r)) ->
  forall j pos r, P r -> P (fillGap prevEnd step j pos r).
Proof.
  intros Hwrite j pos r.
  remember (length r - j) as n eqn:Hn.
  revert j pos r Hn. induction n as [n IH] using lt_wf_ind. intros j pos r Hn Hr.
  rewrite fillGap_unfold.
  destruct (r !! j) as [t|] eqn:Ht; [|done].
  destruct (isMinusOne (start t)) eqn:Hgap; [|done].
  apply lookup_lt_Some in Ht as Hj.
  apply (IH (length r - S j)); [lia | rewrite length_insert; lia | by apply Hwrite].
Qed.

Lemma fillGap_length prevEnd step j pos r :
  length (fillGap prevEnd step j pos r) = length r.
Proof.
  apply (fillGap_preserves (fun r' => length r' = length r)); [|done].
  intros. by rewrite length_insert.
Qed.

Lemma fillGap_words prevEnd step j pos r :
  word <$> fillGap prevEnd step j pos r = word <$> r.
Proof.
  apply (fillGap_preserves (fun r' => word <$> r' = word <$> r)); [|done].
  intros r' j' t pos' Ht _ <-. rewrite list_fmap_insert. simpl.
  apply list_insert_id. by rewrite list_lookup_fmap, Ht.
Qed.

(** The loop writes on words that carry [-1] only. *)
Lemma fillGap_keeps_known prevEnd step j pos r k t :
  r !! k = Some t -> isMinusOne (start t) = false ->
  fillGap prevEnd step j pos r !! k = Some t.
Proof.
  intros Hk Hknown.
  apply (fillGap_preserves (fun r' => r' !! k = Some t)); [|done].
  intros r' j' t' pos' Ht' Hgap Hr'.
  rewrite list_lookup_insert_ne; [done|]. intros ->. congruence.
Qed.

Lemma interpolateAt_length T r i : length (interpolateAt T r i) = length r.
Proof.
  unfold interpolateAt. repeat case_match; try done. apply fillGap_length.
Qed.

Lemma interpolateAt_words T r i : word <$> interpolateAt T r i = word <$> r.
Proof.
  unfold interpolateAt. repeat case_match; try done. apply fillGap_words.
Qed.

Lemma interpolateAt_keeps_known T r i k t :
  r !! k = Some t -> isMinusOne (start t) = false ->
  interpolateAt T r i !! k = Some t.
Proof.
  intros. unfold interpolateAt. repeat case_match; try done.
  by apply fillGap_keeps_known.
Qed.

(** A property kept by the body is kept by any number of iterations. *)
Lemma interpolate_loop_preserves (P : list WordTimestamp -> Prop) T :
  (forall r i, P r -> P (interpolateAt T r i)) ->
  forall idx r, P r -> P (foldl (interpolateAt T) r idx).
Proof.
  intros Hbody idx. induction idx as [|i idx IH]; simpl; [done|].
  intros r Hr. by apply IH, Hbody.
Qed.

Lemma interpolate_length T r : length (interpolate T r) = length r.
Proof.
  unfold interpolate.
  apply (interpolate_loop_preserves (fun r' => length r' = length r)); [|done].
  intros r' i <-. apply interpolateAt_length.
Qed.

Lemma interpolate_words T r : word <$> interpolate T r = word <$> r.
Proof.
  unfold interpolate.
  apply (interpolate_loop_preserves (fun r' => word <$> r' = word <$> r)); [|done].
  intros r' i <-. apply interpolateAt_words.
Qed.

Lemma interpolate_keeps_known T r k t :
  r !! k = Some t -> isMinusOne (start t) = false ->
  interpolate T r !! k = Some t.
Proof.
  intros Hk Hknown. unfold interpolate.
  apply (interpolate_loop_preserves (fun r' => r' !! k = Some t)); [|done].
  intros r' i Hr'. by apply interpolateAt_keeps_known.
Qed.

End Interpolation.

(** ** The walk of [addPunctuation] *)

Section PunctWalk.

Import Transcription.

Variable toLowerCase : jsstring -> jsstring.
Variable batchWords : list WordTimestamp.
Variable punctuatedBatch : list jsstring.

Local Abbreviation pstep := (punctStep toLowerCase batchWords punctuatedBatch).
Local Abbreviation ploop := (punctLoop toLowerCase batchWords punctuatedBatch).
Local Abbreviation base := (baseOf toLowerCase).

Lemma punctLoop_unfold s :
  ploop s = match batchWords !! oi s with
            | Some original => ploop (pstep s original)
            | None => s
            end.
Proof.
  simp punctLoop.
  destruct (inspect (batchWords !! oi s)) as [[w|] e]; simpl; by rewrite e.
Qed.

Lemma lookaheadPunctuated_Some pi0 origBase las la p :
  lookaheadPunctuated toLowerCase punctuatedBatch pi0 origBase las = Some (la, p) ->
  la ∈ las /\ punctuatedBatch !! (pi0 + la) = Some p
  /\ sameWord (base p) origBase = true.
Proof.
  induction las as [|l las IH]; simpl; [done|].
  destruct (punctuatedBatch !! (pi0 + l)) as [q|] eqn:Hq; [|done].
  destruct (sameWord (base q) origBase) eqn:Hs.
  - intros [= <- <-]. split; [left | done].
  - intros H. destruct (IH H) as (? & ? & ?). split; [by right | done].
Qed.

Lemma lookaheadBatch_Some oi0 punctBase las la :
  lookaheadBatch toLowerCase batchWords oi0 punctBase las = Some la ->
  la ∈ las /\ exists w, batchWords !! (oi0 + la) = Some w
                   /\ sameWord (base (word w)) punctBase = true.
Proof.
  induction las as [|l las IH]; simpl; [done|].
  destruct (batchWords !! (oi0 + l)) as [w|] eqn:Hw; [|done].
  destruct (sameWord (base (word w)) punctBase) eqn:Hs.
  - intros [= <-]. split; [left | eauto].
  - intros H. destruct (IH H) as (? & ?). split; [by right | done].
Qed.

(** Every iteration moves [oi] forward and keeps it within the batch. *)
Lemma punctStep_oi s original :
  batchWords !! oi s = Some original ->
  oi s < oi (pstep s original) <= length batchWords.
Proof.
  intros Ho. apply lookup_lt_Some in Ho.
  unfold punctStep. repeat case_match; simpl; try lia.
  match goal with
  | H : lookaheadBatch _ _ _ _ _ = Some _ |- _ =>
      apply lookaheadBatch_Some in H as (Hla%elem_of_123 & w' & Hw'%lookup_lt_Some & _)
  end.
  lia.
Qed.

Lemma punctLoop_invariant (P : PunctState -> Prop) :
  (forall s original, batchWords !! oi s = Some original -> P s -> P (pstep s original)) ->
  forall s, P s -> P (ploop s) /\ batchWords !! oi (ploop s) = None.
Proof.
  intros Hstep s.
  remember (length batchWords - oi s) as n eqn:Hn.
  revert s Hn. induction n as [n IH] using lt_wf_ind. intros s Hn Hs.
  rewrite punctLoop_unfold.
  destruct (batchWords !! oi s) as [w|] eqn:Hw; [|done].
  pose proof (punctStep_oi s w Hw).
  apply (IH (length batchWords - oi (pstep s w))); [lia | done | by apply Hstep].
Qed.

Local Abbreviation outcomes := (Forall2 (outcome toLowerCase punctuatedBatch)).

Lemma outcomes_kept l : outcomes l l.
Proof. induction l; constructor; [by left | done]. Qed.

Local Abbreviation pushedInvariant :=
  (Transcription.pushedInvariant toLowerCase batchWords punctuatedBatch).

Lemma pushedInvariant_step pushed s original :
  batchWords !! oi s = Some original ->
  pushedInvariant pushed s -> pushedInvariant pushed (pstep s original).
Proof.
  intros Ho [Hle (outs & Hres & Houts)].
  split; [apply (punctStep_oi s original Ho)|].
  assert (Hpush : forall out, outcome toLowerCase punctuatedBatch original out ->
    exists outs', punctuatedWords s ++ [out] = pushed ++ outs'
             /\ outcomes (take (S (oi s)) batchWords) outs').
  { intros out Hout. exists (outs ++ [out]). rewrite Hres, app_assoc. split; [done|].
    rewrite (take_S_r _ _ _ Ho). apply Forall2_app; [done|]. by constructor. }
  unfold punctStep.
  destruct (punctuatedBatch !! pi s) as [p|] eqn:Hp; [|apply Hpush; by left].
  destruct (sameWord (base (word original)) (base p)) eqn:Hsame.
  { apply Hpush. right. exists p. split; [by eapply list_elem_of_lookup_2|]. auto. }
  destruct (lookaheadPunctuated _ _ _ _ _) as [[la p']|] eqn:Hla.
  { apply lookaheadPunctuated_Some in Hla as (_ & Hp' & Hsame').
    apply Hpush. right. exists p'. split; [by eapply list_elem_of_lookup_2|]. auto. }
  destruct (lookaheadBatch _ _ _ _ _) as [la|] eqn:Hlb; [|apply Hpush; by left].
  cbn [punctuatedWords oi].
  exists (outs ++ keptOriginals batchWords (oi s) la).
  rewrite Hres, app_assoc. split; [done|].
  rewrite <- take_take_drop. apply Forall2_app; [done | apply outcomes_kept].
Qed.

(** The walk of a batch pushes one word for each word of the batch. *)
Lemma alignBatch_outcomes pushed :
  exists outs,
    punctuatedWords (alignBatch toLowerCase batchWords punctuatedBatch pushed)
    = pushed ++ outs
    /\ outcomes batchWords outs.
Proof.
  unfold alignBatch.
  destruct (punctLoop_invariant (pushedInvariant pushed) (pushedInvariant_step pushed)
              {| oi := 0; pi := 0; matched := 0; punctuatedWords := pushed |})
    as [[Hle (outs & Hres & Houts)] Hend].
  { split; simpl; [lia|]. exists []. by rewrite app_nil_r. }
  apply lookup_ge_None in Hend. exists outs. split; [done|].
  by rewrite take_ge in Houts by lia.
Qed.

End PunctWalk.

Section PunctIdentity.

Import Transcription.

Variable toLowerCase : jsstring -> jsstring.
Variable batchWords : list WordTimestamp.
Variable punctuatedBatch : list jsstring.

Local Abbreviation pstep := (punctStep toLowerCase batchWords punctuatedBatch).
Local Abbreviation base := (baseOf toLowerCase).

Lemma dropWhile_app_all {A} (p : A -> bool) (l k : list A) :
  Forall (fun x => p x = true) l -> dropWhile p (l ++ k) = dropWhile p k.
Proof. induction 1 as [|x l Hx _ IH]; simpl; [done | by rewrite Hx]. Qed.

Lemma takeWhile_all {A} (p : A -> bool) (l : list A) :
  Forall (fun x => p x = true) (takeWhile p l).
Proof.
  induction l as [|x l IH]; simpl; [constructor|].
  destruct (p x) eqn:Hx; by constructor.
Qed.

(** Leading white space does not count in the base of a word. *)
Lemma baseOf_leadingWhiteSpace w p :
  base (leadingWhiteSpace w ++ p) = base p.
Proof.
  unfold baseOf, stripPunctuation. rewrite dropWhile_app_all; [done|].
  eapply List.Forall_impl; [|apply (takeWhile_all isWhiteSpace w)].
  intros c Hc. unfold isEdgeChar. simpl in Hc. rewrite Hc. apply orb_true_r.
Qed.

(** The corrected tokens are the words of the batch up to case and edge
    punctuation. *)
Hypothesis same_bases : base <$> punctuatedBatch = (fun w => base (word w)) <$> batchWords.

Lemma same_bases_lookup i original :
  batchWords !! i = Some original ->
  exists p, punctuatedBatch !! i = Some p /\ base p = base (word original).
Proof.
  intros Ho.
  assert (((fun w => base (word w)) <$> batchWords) !! i = Some (base (word original))) as H
    by (by rewrite list_lookup_fmap, Ho).
  rewrite <- same_bases, list_lookup_fmap in H.
  destruct (punctuatedBatch !! i) as [p|]; simplify_eq/=. eauto.
Qed.

Local Abbreviation directInvariant :=
  (Transcription.directInvariant batchWords punctuatedBatch).

Lemma directInvariant_step pushed s original :
  batchWords !! oi s = Some original ->
  directInvariant pushed s -> directInvariant pushed (pstep s original).
Proof.
  intros Ho (Hle & Hpi & Hm & Hres).
  destruct (same_bases_lookup _ _ Ho) as (p & Hp & Hbase).
  apply lookup_lt_Some in Ho as Hlt. apply lookup_lt_Some in Hp as Hlt'.
  unfold punctStep, sameWord. rewrite Hpi, Hp, Hbase, bool_decide_eq_true_2 by done.
  unfold Transcription.directInvariant. simpl. split; [lia|]. split; [done|]. split; [lia|].
  rewrite Hres, (take_S_r _ _ _ Ho), (take_S_r _ _ _ Hp), <- app_assoc. f_equal.
  rewrite zip_with_app by (rewrite !length_take; lia). done.
Qed.

Lemma alignBatch_same_bases :
  let s := alignBatch toLowerCase batchWords punctuatedBatch [] in
  punctuatedWords s = zip_with replaceText batchWords punctuatedBatch
  /\ matched s = length batchWords.
Proof.
  unfold alignBatch.
  destruct (punctLoop_invariant toLowerCase batchWords punctuatedBatch
              (directInvariant []) (directInvariant_step [])
              {| oi := 0; pi := 0; matched := 0; punctuatedWords := [] |})
    as [(Hle & Hpi & Hm & Hres) Hend].
  { repeat split; simpl; lia || done. }
  apply lookup_ge_None in Hend.
  assert (length punctuatedBatch = length batchWords) as Hlen.
  { rewrite <- (length_fmap base), same_bases. apply length_fmap. }
  cbv zeta. rewrite Hres, Hm. simpl. rewrite !take_ge by lia. split; [done | lia].
Qed.

End PunctIdentity.

Section Batches.

Import Transcription.

Variable toLowerCase : jsstring -> jsstring.
Variable service : nat -> list WordTimestamp -> option (list jsstring).
Variable words : list WordTimestamp.

Local Abbreviation bloop := (batchLoop toLowerCase service words).

Lemma batchLoop_unfold i acc :
  bloop i acc
  = if i <? length words then
      let batchWords := take BATCH_SIZE (drop i words) in
      bloop (i + BATCH_SIZE)
        match service i batchWords with
        | Some punctuatedBatch =>
            punctuatedWords (alignBatch toLowerCase batchWords punctuatedBatch acc)
        | None => acc ++ batchWords
        end
    else acc.
Proof.
  rewrite (batchLoop_equation_1 toLowerCase service words i acc).
  destruct (inspect (i <? length words)) as [[|] e]; simpl; by rewrite e.
Qed.

Lemma keptOrReplaced_refl l : Forall2 keptOrReplaced l l.
Proof. induction l; constructor; [by left | done]. Qed.

Lemma outcome_keptOrReplaced punctuatedBatch original out :
  outcome toLowerCase punctuatedBatch original out -> keptOrReplaced original out.
Proof. intros [-> | (p & _ & _ & ->)]; [by left | right; by exists p]. Qed.

Lemma batchLoop_keeps i acc :
  Forall2 keptOrReplaced (take i words) acc ->
  Forall2 keptOrReplaced words (bloop i acc).
Proof.
  remember (length words - i) as n eqn:Hn.
  revert i acc Hn. induction n as [n IH] using lt_wf_ind. intros i acc Hn Hacc.
  rewrite batchLoop_unfold.
  destruct (Nat.ltb_spec i (length words)) as [Hi|Hi]; cbv zeta.
  - apply (IH (length words - (i + BATCH_SIZE))); [unfold BATCH_SIZE; lia | done |].
    rewrite <- take_take_drop.
    destruct (service i _) as [punctuatedBatch|].
    + destruct (alignBatch_outcomes toLowerCase (take BATCH_SIZE (drop i words))
                  punctuatedBatch acc) as (outs & -> & Houts).
      apply Forall2_app; [done|].
      eapply Forall2_impl; [exact Houts | apply outcome_keptOrReplaced].
    + apply Forall2_app; [done | apply keptOrReplaced_refl].
  - by rewrite take_ge in Hacc.
Qed.

Lemma addPunctuation_keeps apiKey :
  Forall2 keptOrReplaced words (addPunctuation toLowerCase service words apiKey).
Proof.
  unfold addPunctuation.
  destruct (negb apiKey || (length words =? 0)); [apply keptOrReplaced_refl|].
  apply batchLoop_keeps. constructor.
Qed.

End Batches.

(** ** Gaps and their interpolation *)

Section Gaps.

Implicit Types r pre run post : list WordTimestamp.
Implicit Types t k : WordTimestamp.

Lemma isMinusOne_true x : isMinusOne x = true <-> (x == -1)%Q.
Proof. apply Qeq_bool_iff. Qed.

Lemma isMinusOne_false x : isMinusOne x = false <-> ~ (x == -1)%Q.
Proof.
  rewrite <- isMinusOne_true. destruct (isMinusOne x); split; congruence.
Qed.

Lemma isMinusOne_nonneg x : (0 <= x)%Q -> isMinusOne x = false.
Proof. intros. apply isMinusOne_false. lra. Qed.

Lemma nonNegative_known t : nonNegative t -> isGap t = false.
Proof. intros [? _]. by apply isMinusOne_nonneg. Qed.

Lemma flagged_known t : flagged t -> isGap t = false -> nonNegative t.
Proof. intros [?|?] ?; [congruence | done]. Qed.

Lemma num_S n : (num (S n) == num n + 1)%Q.
Proof.
  unfold num. rewrite Nat2Z.inj_succ, <- Z.add_1_r, inject_Z_plus. reflexivity.
Qed.

Lemma num_nonneg n : (0 <= num n)%Q.
Proof.
  unfold num. change 0%Q with (inject_Z 0). rewrite <- Zle_Qle. lia.
Qed.

Lemma num_le n m : n <= m -> (num n <= num m)%Q.
Proof. intros. unfold num. rewrite <- Zle_Qle. lia. Qed.

Lemma fillRun_length prevEnd step pos run :
  length (fillRun prevEnd step pos run) = length run.
Proof. revert pos. induction run; intros; simpl; [done | by rewrite IHrun]. Qed.

Lemma fillRun_lookup prevEnd step pos run p t :
  run !! p = Some t ->
  fillRun prevEnd step pos run !! p = Some (filled prevEnd step (S (pos + p)) t).
Proof.
  revert pos p. induction run as [|t' run IH]; intros pos [|p]; simpl; try done.
  - intros [= ->]. by rewrite Nat.add_0_r.
  - intros H. rewrite (IH (S pos) p H). do 3 f_equal. lia.
Qed.

(** The loop of [fillGap] on a gap that ends before [post]. *)
Lemma fillGap_run prevEnd step run : forall pre pos post,
  Forall (fun t => isGap t = true) run -> knownAt post 0 ->
  fillGap prevEnd step (length pre) pos (pre ++ run ++ post)
  = pre ++ fillRun prevEnd step pos run ++ post.
Proof.
  induction run as [|t run IH]; intros pre pos post Hrun Hpost; simpl.
  - rewrite fillGap_unfold.
    replace (length pre) with (length pre + 0) by lia.
    rewrite lookup_app_r, Nat.add_0_r, Nat.sub_diag by lia.
    destruct (post !! 0) as [k|] eqn:Hk; [|done].
    fold (isGap k). by rewrite (Hpost k Hk).
  - apply Forall_cons in Hrun as [Ht Hrun].
    rewrite fillGap_unfold, list_lookup_middle by done.
    fold (isGap t). rewrite Ht.
    replace (length pre) with (length pre + 0) at 2 by lia.
    rewrite insert_app_r. simpl.
    specialize (IH (pre ++ [filled prevEnd step (S pos) t]) (S pos) post Hrun Hpost).
    rewrite length_app, Nat.add_1_r, <- !app_assoc in IH. simpl in IH.
    exact IH.
Qed.

Lemma findPrevEnd_app pre post i :
  i <= length pre -> findPrevEnd (pre ++ post) i = findPrevEnd pre i.
Proof.
  induction i as [|i IH]; intros Hi; simpl; [done|].
  rewrite lookup_app_l by lia. rewrite IH by lia. done.
Qed.

(** Behind a word whose end is not [-1] the backward scan stops at once. *)
Lemma findPrevEnd_last pre :
  (forall k, last pre = Some k -> isMinusOne (end_ k) = false) ->
  findPrevEnd pre (length pre) = prevEndOf pre.
Proof.
  unfold prevEndOf. destruct pre as [|t pre _] using rev_ind; [done|].
  rewrite last_snoc, length_app, Nat.add_1_r. simpl.
  rewrite list_lookup_middle by done. intros H. by rewrite (H t eq_refl).
Qed.

Lemma findNextStart_run T run post gapCount :
  Forall (fun t => isGap t = true) run -> knownAt post 0 ->
  findNextStart T (run ++ post) gapCount = (nextStartOf T post, gapCount + length run).
Proof.
  intros Hrun Hpost. revert gapCount.
  induction Hrun as [|t run Ht _ IH]; intros gapCount; simpl.
  - rewrite Nat.add_0_r. destruct post as [|k post]; simpl; [done|].
    fold (isGap k). by rewrite (Hpost k eq_refl).
  - fold (isGap t). rewrite Ht, IH. f_equal. lia.
Qed.

(** The body of the interpolation loop at the first word of a gap. *)
Lemma interpolateAt_run T pre run post :
  run <> [] -> Forall (fun t => isGap t = true) run -> knownAt post 0 ->
  interpolateAt T (pre ++ run ++ post) (length pre)
  = pre ++ fillRun (findPrevEnd pre (length pre))
             ((nextStartOf T post - findPrevEnd pre (length pre))
              / num (length run + 1)) 0 run
        ++ post.
Proof.
  intros Hne Hrun Hpost. destruct run as [|t run]; [done|].
  unfold interpolateAt. simpl. rewrite list_lookup_middle by done.
  apply Forall_cons in Hrun as Hrun'. destruct Hrun' as [Ht Hrun'].
  fold (isGap t). rewrite Ht.
  rewrite findPrevEnd_app by done.
  assert (drop (S (length pre)) (pre ++ t :: run ++ post) = run ++ post) as ->.
  { rewrite (cons_middle t pre), app_assoc. apply drop_app_length'.
    rewrite length_app. simpl. lia. }
  rewrite (findNextStart_run T run post 1) by done.
  simpl.
  replace (1 + length run + 1) with (S (length run + 1)) by lia.
  apply (fillGap_run _ _ (t :: run) pre 0 post); done.
Qed.

Lemma interpolateAt_known T r i :
  knownAt r i -> interpolateAt T r i = r.
Proof.
  intros H. unfold interpolateAt. destruct (r !! i) as [t|] eqn:Ht; [|done].
  fold (isGap t). by rewrite (H t Ht).
Qed.

(** The times written in a gap lie between its two bounds. *)
Lemma fill_between prevEnd nextStart g x :
  (0 <= prevEnd -> 0 <= nextStart -> 0 <= x -> x <= num (g + 1) ->
   0 <= prevEnd + (nextStart - prevEnd) / num (g + 1) * x)%Q.
Proof.
  intros Hp Hn Hx0 Hx.
  assert (0 < num (g + 1))%Q as HN.
  { unfold num. change 0%Q with (inject_Z 0). rewrite <- Zlt_Qlt. lia. }
  set (s := ((nextStart - prevEnd) / num (g + 1))%Q).
  assert (s * num (g + 1) == nextStart - prevEnd)%Q as Hs.
  { unfold s. field. lra. }
  destruct (Qlt_le_dec s 0) as [Hneg|Hpos]; nra.
Qed.

Lemma fillRun_nonNegative prevEnd nextStart g pos run :
  (0 <= prevEnd)%Q -> (0 <= nextStart)%Q -> pos + length run <= g ->
  Forall nonNegative
    (fillRun prevEnd ((nextStart - prevEnd) / num (g + 1)) pos run).
Proof.
  intros Hp Hn. revert pos.
  induction run as [|t run IH]; intros pos Hg; simpl; constructor.
  - pose proof (num_nonneg (S pos)). pose proof (num_le (S pos) g ltac:(simpl in Hg; lia)).
    pose proof (num_S g) as HS. replace (S g) with (g + 1) in HS by lia.
    split; simpl; apply fill_between; lra.
  - apply IH. simpl in Hg. lia.
Qed.

End Gaps.

Section GapsInLoop.

Implicit Types r pre run post : list WordTimestamp.
Implicit Types t k : WordTimestamp.

Variable T : Q.

(** The loop of [fillGap] stops at the first word that is not a gap. *)
Lemma fillGap_barrier prevEnd step m k : forall j pos r,
  j <= m -> r !! m = Some k -> isGap k = false ->
  drop m (fillGap prevEnd step j pos r) = drop m r.
Proof.
  intros j pos r.
  remember (length r - j) as n eqn:Hn.
  revert j pos r Hn. induction n as [n IH] using lt_wf_ind.
  intros j pos r Hn Hj Hm Hk.
  rewrite fillGap_unfold.
  destruct (r !! j) as [t|] eqn:Ht; [|done].
  destruct (isMinusOne (start t)) eqn:Hgap; [|done].
  assert (j <> m) by (intros ->; unfold isGap in Hk; congruence).
  apply lookup_lt_Some in Ht as Hlt.
  rewrite (IH (length r - S j)).
  - apply drop_insert_lt. lia.
  - lia.
  - rewrite length_insert. lia.
  - lia.
  - by rewrite list_lookup_insert_ne.
  - done.
Qed.

Lemma interpolateAt_barrier r i m k :
  i <= m -> r !! m = Some k -> isGap k = false ->
  drop m (interpolateAt T r i) = drop m r.
Proof.
  intros. unfold interpolateAt. repeat case_match; try done.
  by eapply fillGap_barrier.
Qed.

Lemma interpolate_loop_barrier m k idx : forall r,
  Forall (fun i => i <= m) idx -> r !! m = Some k -> isGap k = false ->
  drop m (foldl (interpolateAt T) r idx) = drop m r.
Proof.
  induction idx as [|i idx IH]; intros r Hidx Hm Hk; simpl; [done|].
  apply Forall_cons in Hidx as [Hi Hidx].
  rewrite IH; [by eapply interpolateAt_barrier | done | | done].
  by apply interpolateAt_keeps_known.
Qed.

Lemma interpolate_loop_length idx r :
  length (foldl (interpolateAt T) r idx) = length r.
Proof.
  apply (interpolate_loop_preserves (fun r' => length r' = length r)); [|done].
  intros r' i <-. apply interpolateAt_length.
Qed.

(** The iterations before a gap leave the gap, and the word before it, as
    they are. *)
Lemma interpolate_before_gap pre rest :
  knownAt pre (length pre - 1) ->
  exists pre',
    foldl (interpolateAt T) (pre ++ rest) (seq 0 (length pre)) = pre' ++ rest
    /\ length pre' = length pre /\ last pre' = last pre.
Proof.
  intros Hlast. destruct pre as [|k pre _] using rev_ind.
  { by exists []. }
  rewrite length_app, Nat.add_1_r in *.
  assert (isGap k = false) as Hk.
  { apply Hlast. replace (S (length pre) - 1) with (length pre) by lia.
    by apply list_lookup_middle. }
  set (r1 := foldl _ _ _).
  assert (drop (length pre) r1 = k :: rest) as Hdrop.
  { unfold r1. rewrite (interpolate_loop_barrier (length pre) k).
    - by rewrite <- app_assoc, drop_app_length.
    - apply Forall_forall. intros i Hi%elem_of_seq. lia.
    - rewrite <- app_assoc. by apply list_lookup_middle.
    - done. }
  assert (length r1 = length pre + 1 + length rest) as Hlen.
  { unfold r1. by rewrite interpolate_loop_length, !length_app. }
  exists (take (length pre) r1 ++ [k]).
  rewrite <- (take_drop (length pre) r1) at 1.
  rewrite Hdrop, <- app_assoc. split; [done|].
  rewrite length_app, length_take, !last_snoc. simpl. split; [lia | done].
Qed.

(** What the interpolation writes in a gap. *)
Lemma interpolate_gap pre run post :
  run <> [] -> Forall (fun t => isGap t = true) run ->
  knownAt pre (length pre - 1) -> knownAt post 0 ->
  (forall k, last pre = Some k -> isMinusOne (end_ k) = false) ->
  let step := ((nextStartOf T post - prevEndOf pre) / num (length run + 1))%Q in
  Forall (fun t => isGap t = false) (fillRun (prevEndOf pre) step 0 run) ->
  take (length run) (drop (length pre) (interpolate T (pre ++ run ++ post)))
  = fillRun (prevEndOf pre) step 0 run.
Proof.
  intros Hne Hrun Hpre Hpost Hend step Hfilled.
  unfold interpolate.
  rewrite !length_app, seq_app, foldl_app. simpl.
  destruct (interpolate_before_gap pre (run ++ post) Hpre) as (pre' & -> & Hlen & Hlast).
  destruct (length run) as [|g] eqn:Hg; [by destruct run|].
  simpl. rewrite <- Hlen, interpolateAt_run by done.
  rewrite findPrevEnd_last by (rewrite Hlast; done).
  replace (prevEndOf pre') with (prevEndOf pre) by (unfold prevEndOf; by rewrite Hlast).
  rewrite Hg. fold step.
  set (r2 := pre' ++ fillRun (prevEndOf pre) step 0 run ++ post).
  set (out := foldl _ r2 _).
  assert (forall p f, fillRun (prevEndOf pre) step 0 run !! p = Some f ->
                      out !! (length pre' + p) = Some f) as Hout.
  { intros p f Hf. unfold out.
    apply (interpolate_loop_preserves (fun r' => r' !! (length pre' + p) = Some f)).
    - intros r' i Hr'. apply interpolateAt_keeps_known; [done|].
      by eapply (Forall_lookup_1 _ _ _ _ Hfilled).
    - unfold r2. rewrite lookup_app_r, Nat.add_comm, Nat.add_sub by lia.
      by apply lookup_app_l_Some. }
  apply list_eq. intros p.
  destruct (fillRun (prevEndOf pre) step 0 run !! p) as [f|] eqn:Hf.
  - apply lookup_lt_Some in Hf as Hp. rewrite fillRun_length, Hg in Hp.
    rewrite lookup_take_lt, lookup_drop by done. by apply Hout.
  - apply lookup_ge_None in Hf. rewrite fillRun_length, Hg in Hf.
    by rewrite lookup_take_ge.
Qed.

Lemma findPrevEnd_nonneg pre i :
  Forall nonNegative pre -> (0 <= findPrevEnd pre i)%Q.
Proof.
  intros Hpre. induction i as [|i IH]; simpl; [lra|].
  destruct (pre !! i) as [t|] eqn:Ht; [|done].
  destruct (isMinusOne (end_ t)); [done|].
  by destruct (Forall_lookup_1 _ _ _ _ Hpre Ht).
Qed.

Lemma prevEndOf_nonneg pre :
  Forall flagged pre -> knownAt pre (length pre - 1) -> (0 <= prevEndOf pre)%Q.
Proof.
  intros Hfl Hpre. unfold prevEndOf. rewrite last_lookup.
  replace (pred (length pre)) with (length pre - 1) by lia.
  destruct (pre !! (length pre - 1)) as [k|] eqn:Hk; [|lra].
  by destruct (flagged_known k (Forall_lookup_1 _ _ _ _ Hfl Hk) (Hpre k Hk)).
Qed.

Lemma nextStartOf_nonneg post :
  (0 <= T)%Q -> Forall flagged post -> knownAt post 0 ->
  (0 <= nextStartOf T post)%Q.
Proof.
  intros HT Hfl Hpost. destruct post as [|k post]; simpl; [done|].
  apply Forall_cons in Hfl as [Hk _].
  by destruct (flagged_known k Hk (Hpost k eq_refl)).
Qed.

Lemma prevEndOf_not_minusOne pre :
  Forall flagged pre -> knownAt pre (length pre - 1) ->
  forall k, last pre = Some k -> isMinusOne (end_ k) = false.
Proof.
  intros Hfl Hpre k Hk. apply isMinusOne_nonneg.
  rewrite last_lookup in Hk.
  replace (pred (length pre)) with (length pre - 1) in Hk by lia.
  by destruct (flagged_known k (Forall_lookup_1 _ _ _ _ Hfl Hk) (Hpre k Hk)).
Qed.

Lemma takeWhile_dropWhile {A} (p : A -> bool) (l : list A) :
  takeWhile p l ++ dropWhile p l = l.
Proof. induction l as [|x l IH]; simpl; [done|]. destruct (p x); simpl; congruence. Qed.

Lemma dropWhile_head {A} (p : A -> bool) (l : list A) x :
  dropWhile p l !! 0 = Some x -> p x = false.
Proof.
  induction l as [|y l IH]; simpl; [done|].
  destruct (p y) eqn:Hy; [done|]. simpl. congruence.
Qed.

Lemma dropWhile_sublist {A} (P : A -> Prop) (p : A -> bool) (l : list A) :
  Forall P l -> Forall P (dropWhile p l).
Proof.
  induction 1 as [|x l Hx Hl IH]; simpl; [constructor|].
  destruct (p x); [done | by constructor].
Qed.

(** The array at a gap that starts at position [i]: the words before, the
    gap, the words after. *)
Lemma gap_at r i t :
  r !! i = Some t -> isGap t = true ->
  exists run post,
    r = take i r ++ run ++ post /\ run <> []
    /\ Forall (fun t => isGap t = true) run /\ knownAt post 0
    /\ forall P, Forall P r -> Forall P post.
Proof.
  intros Ht Hgap.
  exists (takeWhile isGap (drop i r)), (dropWhile isGap (drop i r)).
  rewrite takeWhile_dropWhile, take_drop. split; [done|].
  rewrite (drop_S _ _ _ Ht). simpl. rewrite Hgap. split; [done|].
  split; [constructor; [done | apply takeWhile_all]|].
  split; [intros k Hk; by apply dropWhile_head in Hk|].
  intros P HP. apply dropWhile_sublist.
  rewrite <- (take_drop (S i) r) in HP. by apply Forall_app in HP as [_ ?].
Qed.

Hypothesis T_nonneg : (0 <= T)%Q.

(** One iteration: the words before [i] carry times that are not negative;
    afterwards the word at [i] does too. *)
Lemma interpolateAt_nonNegative r i :
  Forall flagged r -> Forall nonNegative (take i r) -> i < length r ->
  Forall flagged (interpolateAt T r i)
  /\ Forall nonNegative (take (S i) (interpolateAt T r i)).
Proof.
  intros Hr Hpre Hi.
  destruct (lookup_lt_is_Some_2 r i Hi) as [t Ht].
  destruct (isGap t) eqn:Hgap.
  - destruct (gap_at r i t Ht Hgap) as (run & post & Heq & Hne & Hrun & Hpost & Hsub).
    assert (length (take i r) = i) as Hlen by (rewrite length_take; lia).
    remember (take i r) as pre eqn:Hp. rewrite Heq, <- Hlen.
    rewrite interpolateAt_run by done.
    set (pe := findPrevEnd pre (length pre)).
    assert (0 <= pe)%Q by by apply findPrevEnd_nonneg.
    assert (0 <= nextStartOf T post)%Q as Hns.
    { destruct post as [|k post]; simpl; [done|].
      apply Hsub in Hr. apply Forall_cons in Hr as [Hk _].
      apply flagged_known in Hk as [? _]; [done | by apply Hpost]. }
    pose proof (fillRun_nonNegative pe (nextStartOf T post) (length run) 0 run
                  ltac:(done) Hns ltac:(lia)) as Hfill.
    split.
    + apply Forall_app. split; [eapply Forall_impl; [exact Hpre | by right]|].
      apply Forall_app. split; [eapply Forall_impl; [exact Hfill | by right]|].
      by apply Hsub.
    + rewrite take_app_ge by lia. apply Forall_app. split; [done|].
      replace (S (length pre) - length pre) with 1 by lia.
      destruct run as [|t' run]; [done|]. simpl.
      apply Forall_cons in Hfill as [? _]. by constructor.
  - rewrite interpolateAt_known by (intros k; rewrite Ht; congruence).
    split; [done|]. rewrite (take_S_r _ _ _ Ht). apply Forall_app.
    split; [done|]. constructor; [|done].
    eapply flagged_known; [|done]. by eapply (Forall_lookup_1 _ _ _ _ Hr).
Qed.

Lemma interpolate_loop_nonNegative n : forall i r,
  i + n = length r -> Forall flagged r -> Forall nonNegative (take i r) ->
  Forall nonNegative (foldl (interpolateAt T) r (seq i n)).
Proof.
  induction n as [|n IH]; intros i r Hlen Hr Hpre; simpl.
  - by rewrite take_ge in Hpre by lia.
  - destruct (interpolateAt_nonNegative r i) as [? ?]; [done | done | lia |].
    apply IH; [rewrite interpolateAt_length; lia | done | done].
Qed.

(** After the interpolation no word carries [-1]. *)
Lemma interpolate_nonNegative r :
  Forall flagged r -> Forall nonNegative (interpolate T r).
Proof. intros. by apply interpolate_loop_nonNegative. Qed.

End GapsInLoop.

(** ** Words in the order of time *)

Section Ordered.

Implicit Types r pre run post : list WordTimestamp.
Implicit Types t k : WordTimestamp.

Lemma lastEndFrom_app lo r1 r2 :
  lastEndFrom lo (r1 ++ r2) = lastEndFrom (lastEndFrom lo r1) r2.
Proof.
  revert lo. induction r1 as [|t r1 IH]; intros lo; simpl; [done|].
  destruct (isGap t); apply IH.
Qed.

Lemma lastEndFrom_gaps lo run :
  Forall (fun t => isGap t = true) run -> lastEndFrom lo run = lo.
Proof. induction 1 as [|t run Ht _ IH]; simpl; [done | by rewrite Ht]. Qed.

Lemma ordered_app hi lo r1 r2 :
  ordered hi lo (r1 ++ r2)
  <-> ordered (lastEndFrom lo r1) lo r1 /\ ordered hi (lastEndFrom lo r1) r2.
Proof.
  revert lo. induction r1 as [|t r1 IH]; intros lo; simpl.
  - split; [intros; split; [lra | done] | by intros [_ ?]].
  - destruct (isGap t); [apply IH|]. rewrite IH. tauto.
Qed.

Lemma ordered_le hi lo r : ordered hi lo r -> (lastEndFrom lo r <= hi)%Q.
Proof.
  revert lo. induction r as [|t r IH]; intros lo; simpl; [done|].
  destruct (isGap t); [apply IH | intros (_ & _ & ?); by apply IH].
Qed.

Lemma ordered_bounds hi lo r : ordered hi lo r -> (lo <= hi)%Q.
Proof.
  revert lo. induction r as [|t r IH]; intros lo; simpl; [done|].
  destruct (isGap t); [apply IH|]. intros (? & ? & H%IH). lra.
Qed.

Lemma ordered_gaps hi lo run post :
  Forall (fun t => isGap t = true) run ->
  ordered hi lo (run ++ post) <-> ordered hi lo post.
Proof. induction 1 as [|t run Ht _ IH]; simpl; [done | by rewrite Ht]. Qed.

Lemma ordered_next hi lo post :
  knownAt post 0 -> ordered hi lo post -> (lo <= nextStartOf hi post)%Q.
Proof.
  destruct post as [|k post]; simpl; [done|].
  intros Hk. rewrite (Hk k eq_refl). by intros [? _].
Qed.

(** Only the start of the next word binds the lower bound. *)
Lemma ordered_lower hi lo lo' post :
  knownAt post 0 -> ordered hi lo post -> (lo' <= nextStartOf hi post)%Q ->
  ordered hi lo' post.
Proof.
  destruct post as [|k post]; simpl; [done|].
  intros Hk. rewrite (Hk k eq_refl). tauto.
Qed.

Lemma ordered_flagged hi lo r :
  (0 <= lo)%Q -> ordered hi lo r -> Forall flagged r.
Proof.
  revert lo. induction r as [|t r IH]; intros lo Hlo; simpl; [constructor|].
  destruct (isGap t) eqn:Ht.
  - intros H. constructor; [by left | by eapply IH].
  - intros (? & ? & H). constructor; [right; split; lra | eapply IH; [|done]; lra].
Qed.

Lemma ordered_start_le_end hi lo r :
  ordered hi lo r -> Forall (fun t => isGap t = false -> (start t <= end_ t)%Q) r.
Proof.
  revert lo. induction r as [|t r IH]; intros lo; simpl; [constructor|].
  destruct (isGap t) eqn:Ht.
  - intros H. constructor; [congruence | by eapply IH].
  - intros (? & ? & H). constructor; [by intros | by eapply IH].
Qed.

Lemma findPrevEnd_lastEndFrom pre :
  Forall nonNegative pre -> findPrevEnd pre (length pre) = lastEndFrom 0 pre.
Proof.
  intros Hpre. rewrite findPrevEnd_last.
  - unfold prevEndOf. destruct pre as [|k pre _] using rev_ind; [done|].
    apply Forall_app in Hpre as [_ [Hk%nonNegative_known _]%Forall_cons].
    rewrite last_snoc, lastEndFrom_app. simpl. by rewrite Hk.
  - intros k Hk%last_Some_elem_of.
    rewrite Forall_forall in Hpre. destruct (Hpre k Hk). by apply isMinusOne_nonneg.
Qed.

(** A gap filled between [prevEnd] and [nextStart] stays in order. *)
Lemma ordered_fillRun hi prevEnd nextStart g post run : forall pos lo,
  (0 <= prevEnd)%Q -> (prevEnd <= nextStart)%Q ->
  nextStart = nextStartOf hi post -> knownAt post 0 -> ordered hi prevEnd post ->
  pos + length run <= g ->
  (lo <= prevEnd + (nextStart - prevEnd) / num (g + 1) * (num pos + 0.8))%Q ->
  ordered hi lo (fillRun prevEnd ((nextStart - prevEnd) / num (g + 1)) pos run ++ post).
Proof.
  intros pos lo Hp Hle Hns Hpost Hord. revert pos lo.
  assert (0 < num (g + 1))%Q as HN.
  { unfold num. change 0%Q with (inject_Z 0). rewrite <- Zlt_Qlt. lia. }
  set (s := ((nextStart - prevEnd) / num (g + 1))%Q).
  assert (s * num (g + 1) == nextStart - prevEnd)%Q as Hs by (unfold s; field; lra).
  assert (0 <= s)%Q as Hs0 by nra.
  pose proof (num_S g) as HSg. replace (S g) with (g + 1) in HSg by lia.
  induction run as [|t run IH]; intros pos lo Hg Hlo; simpl.
  - apply (ordered_lower hi prevEnd); [done | done |]. rewrite <- Hns.
    pose proof (num_le pos g ltac:(simpl in Hg; lia)). nra.
  - pose proof (num_nonneg pos). pose proof (num_S pos).
    assert (isGap (filled prevEnd s (S pos) t) = false) as ->.
    { apply isMinusOne_nonneg. simpl. nra. }
    simpl. split; [nra|]. split; [nra|].
    apply IH; [simpl in Hg; lia | lra].
Qed.

Variable T : Q.

(** One iteration keeps the words in order. *)
Lemma interpolateAt_ordered r i :
  ordered T 0 r -> Forall nonNegative (take i r) -> i < length r ->
  ordered T 0 (interpolateAt T r i).
Proof.
  intros Hr Hpre Hi.
  destruct (lookup_lt_is_Some_2 r i Hi) as [t Ht].
  destruct (isGap t) eqn:Hgap.
  - destruct (gap_at r i t Ht Hgap) as (run & post & Heq & Hne & Hrun & Hpost & _).
    assert (length (take i r) = i) as Hlen by (rewrite length_take; lia).
    remember (take i r) as pre eqn:Hp. rewrite Heq, <- Hlen.
    rewrite interpolateAt_run by done.
    rewrite Heq in Hr. apply ordered_app in Hr as [Hr1 Hr2].
    rewrite findPrevEnd_lastEndFrom by done.
    set (pe := lastEndFrom 0 pre) in *.
    apply ordered_app. split; [done|]. fold pe.
    apply ordered_gaps in Hr2; [|done].
    assert (0 <= pe)%Q.
    { unfold pe. rewrite <- findPrevEnd_lastEndFrom by done. by apply findPrevEnd_nonneg. }
    pose proof (ordered_next _ _ _ Hpost Hr2).
    apply ordered_fillRun; try done.
    assert (0 < num (length run + 1))%Q as HN.
    { unfold num. change 0%Q with (inject_Z 0). rewrite <- Zlt_Qlt. lia. }
    assert ((nextStartOf T post - pe) / num (length run + 1) * num (length run + 1)
            == nextStartOf T post - pe)%Q as Hs by (field; lra).
    change (num 0) with 0%Q. nra.
  - by rewrite interpolateAt_known by (intros k; rewrite Ht; congruence).
Qed.

Lemma interpolate_loop_ordered n : forall i r,
  i + n = length r -> ordered T 0 r -> Forall nonNegative (take i r) ->
  ordered T 0 (foldl (interpolateAt T) r (seq i n)).
Proof.
  induction n as [|n IH]; intros i r Hlen Hr Hpre; simpl; [done|].
  pose proof (ordered_bounds _ _ _ Hr) as HT.
  destruct (interpolateAt_nonNegative T HT r i) as [? ?];
    [eapply ordered_flagged; [|exact Hr]; lra | done | lia |].
  apply IH; [rewrite interpolateAt_length; lia | | done].
  apply interpolateAt_ordered; [done | done | lia].
Qed.

(** After the interpolation every word ends at or after its start. *)
Lemma interpolate_start_le_end r :
  ordered T 0 r -> Forall (fun t => (start t <= end_ t)%Q) (interpolate T r).
Proof.
  intros Hr.
  assert (ordered T 0 (interpolate T r)) as Hout by by apply interpolate_loop_ordered.
  apply ordered_start_le_end in Hout.
  assert (Forall nonNegative (interpolate T r)) as Hnn.
  { apply interpolate_nonNegative; [by eapply ordered_bounds|].
    eapply ordered_flagged; [|done]. lra. }
  rewrite Forall_forall in *. intros t Ht.
  apply (Hout t Ht), nonNegative_known, (Hnn t Ht).
Qed.

End Ordered.

(** ** The times carried by the walk of [alignWhisperToOriginal] *)

Section AlignTimes.

Variable toLowerCase : jsstring -> jsstring.
Variable whisperWords : list WordTimestamp.
Variable originalWords : list jsstring.

Local Abbreviation step := (alignStep toLowerCase whisperWords originalWords).

Lemma unmatched_gap w : isGap (unmatched w) = true.
Proof. reflexivity. Qed.

Lemma skippedOriginals_gaps oi0 la :
  Forall (fun t => isGap t = true) (skippedOriginals originalWords oi0 la).
Proof.
  unfold skippedOriginals. apply Forall_fmap, Forall_forall. intros; apply unmatched_gap.
Qed.

(** An iteration pushes one word under the time of a whisper word not yet
    passed, or words left for the interpolation. *)
Lemma alignStep_shape s origWord :
  (exists k w txt,
      whisperWords !! k = Some w /\ wi s <= k /\ wi (step s origWord) = S k
      /\ result (step s origWord) = result s ++ [mkWord txt (start w) (end_ w)])
  \/ (exists gaps,
        Forall (fun t => isGap t = true) gaps /\ wi (step s origWord) = wi s
        /\ result (step s origWord) = result s ++ gaps).
Proof.
  unfold alignStep.
  destruct (whisperWords !! wi s) as [w|] eqn:Hw.
  2: { right. eexists [_]. split; [|done]. by repeat constructor. }
  destruct (sameWord _ _).
  { left. exists (wi s), w. eauto 10. }
  destruct (lookaheadWhisper _ _ _ _ _) as [[la lw]|] eqn:Hla.
  { apply lookaheadWhisper_Some in Hla as (_ & Hlw & _).
    left. exists (wi s + la), lw. eexists. split; [done|]. split; [lia | done]. }
  destruct (lookaheadOriginal _ _ _ _ _) as [la|].
  - right. eexists. split; [apply skippedOriginals_gaps | done].
  - right. eexists [_]. split; [|done]. by repeat constructor.
Qed.

Section NonNegative.

Hypothesis whisper_nonneg : Forall nonNegative whisperWords.

Lemma alignStep_flagged s origWord :
  Forall flagged (result s) -> Forall flagged (result (step s origWord)).
Proof.
  intros Hs.
  destruct (alignStep_shape s origWord)
    as [(k & w & txt & Hw & _ & _ & ->) | (gaps & Hgaps & _ & ->)];
    apply Forall_app; (split; [done|]).
  - constructor; [|done]. right. apply (Forall_lookup_1 _ _ _ _ whisper_nonneg Hw).
  - eapply Forall_impl; [exact Hgaps | by left].
Qed.

Lemma alignWalk_flagged :
  Forall flagged (alignWalk toLowerCase whisperWords originalWords).
Proof.
  unfold alignWalk.
  apply (alignLoop_invariant toLowerCase whisperWords originalWords
           (fun s => Forall flagged (result s))); [|constructor].
  intros s w _. apply alignStep_flagged.
Qed.

End NonNegative.

Section Chronological.

Hypothesis whisper_times :
  Forall (fun w => (0 <= start w)%Q /\ (start w <= end_ w)%Q) whisperWords.
Hypothesis whisper_order : chronological whisperWords.

Lemma whisper_before i j w w' :
  i < j -> whisperWords !! i = Some w -> whisperWords !! j = Some w' ->
  (end_ w <= start w')%Q.
Proof.
  intros Hij Hi. revert w'. induction j as [|j IH]; intros w' Hj; [lia|].
  destruct (decide (i = j)) as [->|Hne]; [by eapply whisper_order|].
  destruct (lookup_lt_is_Some_2 whisperWords j) as [v Hv].
  { apply lookup_lt_Some in Hj. lia. }
  pose proof (IH ltac:(lia) v Hv).
  pose proof (whisper_order j v w' Hv Hj).
  destruct (Forall_lookup_1 _ _ _ _ whisper_times Hv). lra.
Qed.

Lemma whisper_end_le_last i w :
  whisperWords !! i = Some w -> (end_ w <= lastEnd whisperWords)%Q.
Proof.
  intros Hi. apply lookup_lt_Some in Hi as Hlt. unfold lastEnd.
  destruct (lookup_lt_is_Some_2 whisperWords (length whisperWords - 1)) as [v Hv]; [lia|].
  rewrite Hv. destruct (decide (i = length whisperWords - 1)) as [->|Hne].
  - replace v with w by congruence. lra.
  - pose proof (whisper_before i (length whisperWords - 1) w v ltac:(lia) Hi Hv).
    destruct (Forall_lookup_1 _ _ _ _ whisper_times Hv). lra.
Qed.

Local Abbreviation orderedInvariant := (TextUtils.orderedInvariant whisperWords).

Lemma orderedInvariant_step s origWord :
  orderedInvariant s -> orderedInvariant (step s origWord).
Proof.
  intros [Hord Hnext].
  rewrite <- (app_nil_r (result s)) in Hord. apply ordered_app in Hord as [Hord Hle].
  simpl in Hle. unfold TextUtils.orderedInvariant.
  destruct (alignStep_shape s origWord)
    as [(k & w & txt & Hw & Hk & -> & ->) | (gaps & Hgaps & -> & ->)].
  - destruct (Forall_lookup_1 _ _ _ _ whisper_times Hw) as [H0 Hse].
    assert (isGap (mkWord txt (start w) (end_ w)) = false) as Hknown
      by by apply isMinusOne_nonneg.
    split.
    + apply ordered_app. split; [done|]. simpl. rewrite Hknown. simpl.
      split; [by eapply Hnext|]. split; [done|]. by eapply whisper_end_le_last.
    + intros k' w' Hk' Hw'. rewrite lastEndFrom_app. simpl. rewrite Hknown. simpl.
      eapply (whisper_before k k'); [lia | done | done].
  - split.
    + apply ordered_app. split; [done|].
      rewrite <- (app_nil_r gaps). by apply ordered_gaps.
    + intros k' w' Hk' Hw'. rewrite lastEndFrom_app, lastEndFrom_gaps by done.
      by eapply Hnext.
Qed.

Lemma alignWalk_ordered :
  whisperWords <> [] ->
  ordered (lastEnd whisperWords) 0 (alignWalk toLowerCase whisperWords originalWords).
Proof.
  intros Hne. unfold alignWalk.
  apply (alignLoop_invariant toLowerCase whisperWords originalWords orderedInvariant).
  - intros s w _. apply orderedInvariant_step.
  - split; simpl.
    + destruct (lookup_lt_is_Some_2 whisperWords 0) as [w H0].
      { destruct (decide (length whisperWords = 0)) as [Hz%nil_length_inv|]; [done | lia]. }
      pose proof (whisper_end_le_last 0 w H0).
      destruct (Forall_lookup_1 _ _ _ _ whisper_times H0). lra.
    + intros k w _ Hw. by destruct (Forall_lookup_1 _ _ _ _ whisper_times Hw).
Qed.

End Chronological.

End AlignTimes.

(** ** The properties of the specification *)

Import Examples.

(** C1. [alignWhisperToOriginal] returns one word for each original word, in
    order: the output is as long as [originalWords], and its [i]-th word
    carries the text of the [i]-th original word, after one space when
    [i > 0]. *)
Theorem alignWhisperToOriginal_texts (toLowerCase : jsstring -> jsstring)
  (whisperWords : list WordTimestamp) (originalWords : list jsstring) :
  let out := alignWhisperToOriginal toLowerCase whisperWords originalWords in
  length out = length originalWords
  /\ forall i, word <$> out !! i
               = (fun w => (if 0 <? i then [32%N] else []) ++ w) <$> originalWords !! i.
Proof.
  assert (word <$> alignWhisperToOriginal toLowerCase whisperWords originalWords
          = originalTexts originalWords) as Htexts.
  { unfold alignWhisperToOriginal. case_match.
    - unfold originalTexts. apply list_eq. intros i.
      rewrite list_lookup_fmap, !list_lookup_imap. by destruct (originalWords !! i).
    - rewrite interpolate_words. apply alignWalk_words. }
  cbv zeta. split.
  - rewrite <- (length_fmap word), Htexts. apply length_imap.
  - intros i. rewrite <- list_lookup_fmap, Htexts.
    unfold originalTexts. by rewrite list_lookup_imap.
Qed.

(** C2. The walk of a batch pushes exactly one word for each word of the
    batch, in order: the word itself, or the word with its text replaced by a
    corrected token that matches it. The words returned by [addPunctuation]
    are as many as the words of the transcript, each the word of the
    transcript or that word under a new text. *)
Theorem addPunctuation_one_outcome_per_word (toLowerCase : jsstring -> jsstring) :
  (forall batchWords punctuatedBatch pushed,
      exists outs,
        Transcription.punctuatedWords
          (Transcription.alignBatch toLowerCase batchWords punctuatedBatch pushed)
        = pushed ++ outs
        /\ length outs = length batchWords
        /\ Forall2 (Transcription.outcome toLowerCase punctuatedBatch) batchWords outs)
  /\ (forall service words apiKey,
         let out := Transcription.addPunctuation toLowerCase service words apiKey in
         length out = length words
         /\ Forall2 Transcription.keptOrReplaced words out).
Proof.
  split.
  - intros batchWords punctuatedBatch pushed.
    destruct (alignBatch_outcomes toLowerCase batchWords punctuatedBatch pushed)
      as (outs & Hres & Houts).
    exists outs. split; [done|]. split; [|done].
    symmetry. by eapply Forall2_length.
  - intros service words apiKey.
    pose proof (addPunctuation_keeps toLowerCase service words apiKey) as H.
    split; [|done]. symmetry. by eapply Forall2_length.
Qed.

(** C3, as amended. When no whisper word has a negative start or end, every
    maximal run of [g] words left with [-1] by the walk, between [prevEnd]
    (the end of the word before the run, [0] if the run opens the array) and
    [nextStart] (the start of the word after the run, the end of the last
    whisper word if the run closes the array), comes out with
    [start = prevEnd + step * p] and [end = prevEnd + step * (p + 0.8)] for
    [p = 1 .. g], where [step = (nextStart - prevEnd) / (g + 1)]; and no word
    of the output carries [-1]. For [prevEnd = 10], [nextStart = 13] and
    [g = 2] the two words get 11 to 11.8 and 12 to 12.8. *)
Theorem interpolation_fills_gaps (toLowerCase : jsstring -> jsstring)
  (whisperWords : list WordTimestamp) (originalWords : list jsstring)
  (pre run post : list WordTimestamp) :
  whisperWords <> [] ->
  Forall nonNegative whisperWords ->
  alignWalk toLowerCase whisperWords originalWords = pre ++ run ++ post ->
  run <> [] ->
  Forall (fun t => (start t == -1)%Q) run ->
  (forall k, last pre = Some k -> ~ (start k == -1)%Q) ->
  (forall k, head post = Some k -> ~ (start k == -1)%Q) ->
  let prevEnd := match last pre with Some k => end_ k | None => 0%Q end in
  let nextStart := match head post with Some k => start k | None => lastEnd whisperWords end in
  let g := length run in
  let step := ((nextStart - prevEnd) / num (g + 1))%Q in
  let out := alignWhisperToOriginal toLowerCase whisperWords originalWords in
  (forall p t, run !! p = Some t ->
     exists t', out !! (length pre + p) = Some t'
       /\ word t' = word t
       /\ (start t' == prevEnd + step * num (p + 1))%Q
       /\ (end_ t' == prevEnd + step * (num (p + 1) + 0.8))%Q)
  /\ Forall (fun t => ~ (start t == -1)%Q /\ ~ (end_ t == -1)%Q) out
  /\ Forall2 (fun t e => word t = e.1.1 /\ (start t == e.1.2)%Q /\ (end_ t == e.2)%Q)
       (alignWhisperToOriginal toLowerCaseRu heardAD scriptABCD)
       [(a, 9, 10); (32%N :: b, 11, 11.8); (32%N :: c, 12, 12.8); (32%N :: d, 13, 14)]%Q.
Proof.
  intros Hne Hnn Hwalk Hrun Hgaps Hpre Hpost prevEnd nextStart g step out.
  pose proof (alignWalk_flagged toLowerCase whisperWords originalWords Hnn) as Hfl.
  assert (0 <= lastEnd whisperWords)%Q as HT.
  { unfold lastEnd. destruct (whisperWords !! _) as [w|] eqn:Hw; [|lra].
    by destruct (Forall_lookup_1 _ _ _ _ Hnn Hw). }
  assert (out = interpolate (lastEnd whisperWords) (pre ++ run ++ post)) as Hout.
  { unfold out, alignWhisperToOriginal. rewrite <- Hwalk.
    destruct (Nat.eqb_spec (length whisperWords) 0) as [Hz%nil_length_inv|_]; [done|].
    destruct (Nat.eqb_spec (length originalWords) 0) as [Hz%nil_length_inv|_]; [|done].
    exfalso. subst originalWords. unfold alignWalk in Hwalk.
    rewrite alignLoop_unfold in Hwalk. simpl in Hwalk. by destruct pre, run. }
  rewrite Hwalk in Hfl.
  split; [|split].
  - apply Forall_app in Hfl as [Hflpre [_ Hflpost]%Forall_app].
    assert (Forall (fun t => isGap t = true) run) as Hgaps'.
    { eapply Forall_impl; [exact Hgaps|]. intros t. apply isMinusOne_true. }
    assert (knownAt pre (length pre - 1)) as Hpre'.
    { intros k Hk. apply isMinusOne_false, Hpre.
      rewrite last_lookup. by replace (pred (length pre)) with (length pre - 1) by lia. }
    assert (knownAt post 0) as Hpost'.
    { intros k Hk. apply isMinusOne_false, Hpost. by rewrite head_lookup. }
    change prevEnd with (prevEndOf pre) in *.
    assert (nextStart = nextStartOf (lastEnd whisperWords) post) as Hns
      by (unfold nextStart; by destruct post).
    pose proof (prevEndOf_nonneg pre Hflpre Hpre').
    pose proof (nextStartOf_nonneg _ post HT Hflpost Hpost').
    pose proof (fillRun_nonNegative (prevEndOf pre) nextStart g 0 run
                  ltac:(done) ltac:(by rewrite Hns) ltac:(unfold g; lia)) as Hfill.
    fold step in Hfill.
    pose proof (interpolate_gap (lastEnd whisperWords) pre run post Hrun Hgaps'
                  Hpre' Hpost' (prevEndOf_not_minusOne pre Hflpre Hpre')) as Hgap.
    cbv zeta in Hgap. rewrite <- Hns, <- Hout in Hgap. fold g step in Hgap.
    intros p t Ht.
    exists (filled (prevEndOf pre) step (S p) t).
    assert (take g (drop (length pre) out) !! p
            = Some (filled (prevEndOf pre) step (S p) t)) as Hp.
    { rewrite Hgap.
      - by rewrite (fillRun_lookup _ _ 0 run p t Ht).
      - eapply Forall_impl; [exact Hfill|]. apply nonNegative_known. }
    apply lookup_lt_Some in Ht as Hlt.
    rewrite lookup_take_lt, lookup_drop in Hp by done.
    split; [done|]. split; [done|]. simpl.
    replace (p + 1) with (S p) by lia. split; reflexivity.
  - rewrite Hout.
    pose proof (interpolate_nonNegative (lastEnd whisperWords) HT _ Hfl) as Hall.
    eapply Forall_impl; [exact Hall|].
    intros t [H1 H2]. split; lra.
  - vm_compute. repeat constructor.
Qed.

(** C3, the claim as it is written fails on times below zero. In the script
    [a b c] heard as [c] from -1.5 to -1.2, the run [a b] lies between
    [prevEnd = 0] and [nextStart = -1.5], so that [step = -0.5] and the
    second word should start at [0 + step * 2]; that value is [-1], the loop
    takes the word for one not yet written and interpolates it again, and it
    starts at -1.2. In the script [a b] heard as [b] from -2 to -1.5, the
    first word of the output starts at [-1]. *)
Lemma interpolation_fills_gaps_counterexample :
  alignWalk toLowerCaseRu heardC [a; b; c]
  = [] ++ [unmatched a; unmatched (32%N :: b)] ++ [mkWord (32%N :: c) (-1.5) (-1.2)]
  /\ (exists t, alignWhisperToOriginal toLowerCaseRu heardC [a; b; c] !! 1 = Some t
             /\ ~ (start t == 0 + (-1.5 - 0) / num (2 + 1) * num 2)%Q)
  /\ (exists t, alignWhisperToOriginal toLowerCaseRu heardB [a; b] !! 0 = Some t
             /\ (start t == -1)%Q).
Proof.
  split; [by vm_compute|]. split.
  - eexists. split; [by vm_compute|]. by vm_compute.
  - eexists. split; [by vm_compute|]. by vm_compute.
Qed.

Lemma interpolation_fills_gaps_witness :
  exists t, alignWhisperToOriginal toLowerCaseRu heardAD scriptABCD !! (1 + 1) = Some t
       /\ word t = 32%N :: c
       /\ (start t == 10 + (13 - 10) / num (2 + 1) * num (1 + 1))%Q
       /\ (end_ t == 10 + (13 - 10) / num (2 + 1) * (num (1 + 1) + 0.8))%Q.
Proof.
  refine (proj1 (interpolation_fills_gaps toLowerCaseRu heardAD scriptABCD
                   [mkWord a 9 10] [unmatched (32%N :: b); unmatched (32%N :: c)]
                   [mkWord (32%N :: d) 13 14] _ _ _ _ _ _ _)
                1 (unmatched (32%N :: c)) eq_refl).
  - discriminate.
  - repeat constructor; by vm_compute.
  - by vm_compute.
  - discriminate.
  - repeat constructor.
  - intros k [= <-]. by vm_compute.
  - intros k [= <-]. by vm_compute.
Defined.

(** C4, as amended. When every whisper word starts at or after [0] and ends at
    or after its start, and each starts at or after the end of the one
    before, every word returned by [alignWhisperToOriginal] ends at or after
    its start. *)
Theorem aligned_start_le_end (toLowerCase : jsstring -> jsstring)
  (whisperWords : list WordTimestamp) (originalWords : list jsstring) :
  Forall (fun w => (0 <= start w)%Q /\ (start w <= end_ w)%Q) whisperWords ->
  chronological whisperWords ->
  Forall (fun t => (start t <= end_ t)%Q)
    (alignWhisperToOriginal toLowerCase whisperWords originalWords).
Proof.
  intros Htimes Horder. unfold alignWhisperToOriginal.
  destruct (Nat.eqb_spec (length whisperWords) 0) as [Hz|Hnz]; simpl.
  { apply Forall_lookup. intros i t. rewrite list_lookup_imap.
    destruct (originalWords !! i); intros [= <-]. simpl. lra. }
  destruct (length originalWords =? 0).
  { apply Forall_lookup. intros i t. rewrite list_lookup_imap.
    destruct (originalWords !! i); intros [= <-]. simpl. lra. }
  apply interpolate_start_le_end, alignWalk_ordered; [done | done |].
  intros ->. done.
Qed.

(** C4, the claim as it is written fails on times below zero: the script
    [a b] heard as [b] from -10 to -5 has its first word from -5 to -9. *)
Lemma aligned_start_le_end_counterexample :
  Forall (fun w => (start w <= end_ w)%Q) heardEarlyB
  /\ chronological heardEarlyB
  /\ exists t, alignWhisperToOriginal toLowerCaseRu heardEarlyB [a; b] !! 0 = Some t
          /\ ~ (start t <= end_ t)%Q.
Proof.
  split; [repeat constructor; by vm_compute|]. split.
  - intros [|i] w w' Hw Hw'; simplify_eq/=.
  - eexists. split; [by vm_compute|]. vm_compute. intros H. by apply H.
Qed.

Lemma aligned_start_le_end_witness :
  Forall (fun t => (start t <= end_ t)%Q)
    (alignWhisperToOriginal toLowerCaseRu heardAD scriptABCD).
Proof.
  apply aligned_start_le_end.
  - repeat constructor; by vm_compute.
  - intros [|[|i]] w w' Hw Hw'; simplify_eq/=. by vm_compute.
Defined.

Lemma fuzzyTolerance_div maxLen : fuzzyTolerance maxLen = maxLen * 3 / 10.
Proof.
  unfold fuzzyTolerance, num.
  change (Qfloor (inject_Z (Z.of_nat maxLen) * 0.3))
    with ((Z.of_nat maxLen * Z.of_nat 3) / Z.of_nat 10)%Z.
  by rewrite <- Nat2Z.inj_mul, <- Nat2Z.inj_div, Nat2Z.id.
Qed.

(** C5. [isFuzzyMatch(a, b)] is false when either string has fewer than four
    characters; otherwise it is true exactly when
    [editDistance(a, b) <= max(2, floor(max(a.length, b.length) * 0.3))]. It
    is true for two strings of six characters at distance 1 and false for two
    strings of four characters at distance 3. *)
Theorem isFuzzyMatch_threshold (a b : jsstring) :
  (length a < 4 \/ length b < 4 -> isFuzzyMatch a b = false)
  /\ (4 <= length a -> 4 <= length b ->
      (isFuzzyMatch a b = true
       <-> editDistance a b
           <= Nat.max 2 (Z.to_nat (Qfloor (num (Nat.max (length a) (length b)) * 0.3)))))
  /\ (length a = 6 -> length b = 6 -> editDistance a b = 1 -> isFuzzyMatch a b = true)
  /\ (length a = 4 -> length b = 4 -> editDistance a b = 3 -> isFuzzyMatch a b = false).
Proof.
  unfold isFuzzyMatch. fold (fuzzyTolerance (Nat.max (length a) (length b))).
  rewrite fuzzyTolerance_div.
  destruct (Nat.ltb_spec (length a) 4), (Nat.ltb_spec (length b) 4); simpl;
    repeat split; try lia; intros;
    try (apply Nat.leb_le; lia); try (apply Nat.leb_gt; lia);
    try (match goal with H : _ = true |- _ => apply Nat.leb_le in H end; lia).
  all: try (replace (length a) with 6 by lia; replace (length b) with 6 by lia;
            apply Nat.leb_le; simpl; lia).
  all: try (replace (length a) with 4 by lia; replace (length b) with 4 by lia;
            apply Nat.leb_gt; simpl; lia).
Qed.

Lemma isFuzzyMatch_threshold_witness :
  isFuzzyMatch skazhym skazhem = true /\ isFuzzyMatch kak dela = false.
Proof.
  destruct (isFuzzyMatch_threshold skazhym skazhem) as (_ & _ & H6 & _).
  destruct (isFuzzyMatch_threshold kak dela) as (H3 & _).
  split; [apply H6; by vm_compute | apply H3; left; vm_compute; lia].
Defined.

(** C6. [editDistance(a, b)] is the Levenshtein distance of [a] and [b] as the
    naive recursion defines it; so it is symmetric, it is [0] from a string
    to itself and [b.length] from the empty string to [b], and
    [isFuzzyMatch] is symmetric. *)
Theorem editDistance_refines_levenshtein :
  (forall a b : jsstring, editDistance a b = levenshtein a b)
  /\ (forall a b : jsstring, editDistance a b = editDistance b a)
  /\ (forall a : jsstring, editDistance a a = 0)
  /\ (forall b : jsstring, editDistance [] b = length b)
  /\ (forall a b : jsstring, isFuzzyMatch a b = isFuzzyMatch b a).
Proof.
  assert (forall a b : jsstring, editDistance a b = editDistance b a) as Hsym.
  { intros. rewrite !editDistance_levenshtein. apply levenshtein_sym. }
  split; [|split; [|split; [|split]]].
  - apply editDistance_levenshtein.
  - apply Hsym.
  - intros x. rewrite editDistance_levenshtein. apply levenshtein_refl.
  - intros y. by rewrite editDistance_levenshtein.
  - intros x y. unfold isFuzzyMatch.
    by rewrite (Hsym x y), (Nat.max_comm (length x)), (orb_comm (length x <? 4)).
Qed.

(** X1. The distance is the least number of edits that turn [a] into [b]. *)
Lemma editDistance_least_edits (a b : jsstring) :
  edits (editDistance a b) a b /\ forall n, edits n a b -> editDistance a b <= n.
Proof.
  split.
  - rewrite editDistance_levenshtein. apply edits_levenshtein.
  - intros n Hn. rewrite editDistance_levenshtein. by apply edits_lower_bound.
Qed.

Lemma zip_with_replaceText_times (batchWords : list WordTimestamp)
  (punctuatedBatch : list jsstring) :
  length punctuatedBatch = length batchWords ->
  start <$> zip_with Transcription.replaceText batchWords punctuatedBatch
  = start <$> batchWords
  /\ end_ <$> zip_with Transcription.replaceText batchWords punctuatedBatch
     = end_ <$> batchWords.
Proof.
  revert punctuatedBatch.
  induction batchWords as [|w ws IH]; intros [|p ps] Hlen; simplify_eq/=; [done|].
  destruct (IH ps Hlen) as [-> ->]. done.
Qed.

Lemma zip_with_replaceText_bases toLowerCase (batchWords : list WordTimestamp)
  (punctuatedBatch : list jsstring) :
  length punctuatedBatch = length batchWords ->
  (fun t => baseOf toLowerCase (word t))
    <$> zip_with Transcription.replaceText batchWords punctuatedBatch
  = baseOf toLowerCase <$> punctuatedBatch.
Proof.
  revert punctuatedBatch.
  induction batchWords as [|w ws IH]; intros [|p ps] Hlen; simplify_eq/=; [done|].
  by rewrite (IH ps Hlen), baseOf_leadingWhiteSpace.
Qed.

(** C7, as amended. When the corrected tokens equal the words of the batch up
    to case and edge punctuation, in the same order and number, every word
    comes out with its own start and end under the text of its token, after
    the leading white space of the word: a text equal to that of the word up
    to case and edge punctuation. Every word is counted as matched. *)
Theorem addPunctuation_same_words (toLowerCase : jsstring -> jsstring)
  (batchWords : list WordTimestamp) (punctuatedBatch : list jsstring) :
  baseOf toLowerCase <$> punctuatedBatch
  = (fun w => baseOf toLowerCase (word w)) <$> batchWords ->
  let s := Transcription.alignBatch toLowerCase batchWords punctuatedBatch [] in
  let out := Transcription.punctuatedWords s in
  out = zip_with Transcription.replaceText batchWords punctuatedBatch
  /\ Transcription.matched s = length batchWords
  /\ start <$> out = start <$> batchWords
  /\ end_ <$> out = end_ <$> batchWords
  /\ (fun t => baseOf toLowerCase (word t)) <$> out
     = (fun w => baseOf toLowerCase (word w)) <$> batchWords.
Proof.
  intros Hbases s out.
  destruct (alignBatch_same_bases toLowerCase batchWords punctuatedBatch Hbases)
    as [Hout Hmatched].
  fold s out in Hout, Hmatched.
  assert (length punctuatedBatch = length batchWords) as Hlen.
  { rewrite <- (length_fmap (baseOf toLowerCase)), Hbases. apply length_fmap. }
  destruct (zip_with_replaceText_times batchWords punctuatedBatch Hlen) as [Hs He].
  rewrite Hout. repeat split; try done.
  by rewrite zip_with_replaceText_bases.
Qed.

(** C7, the claim as it is written fails: for the word [привет] corrected to
    [Привет] the bases are equal and the text that comes out is that of the
    token, not that of the word. *)
Lemma addPunctuation_same_words_counterexample :
  baseOf toLowerCaseRu <$> [Privet]
  = (fun w => baseOf toLowerCaseRu (word w)) <$> [mkWord privet 0 1]
  /\ word <$> Transcription.punctuatedWords
                (Transcription.alignBatch toLowerCaseRu [mkWord privet 0 1] [Privet] [])
     <> word <$> [mkWord privet 0 1].
Proof. split; by vm_compute. Qed.

Lemma addPunctuation_same_words_witness :
  Transcription.punctuatedWords
    (Transcription.alignBatch toLowerCaseRu [mkWord privet 0 1] [Privet] [])
  = [mkWord Privet 0 1].
Proof.
  apply (addPunctuation_same_words toLowerCaseRu [mkWord privet 0 1] [Privet]).
  by vm_compute.
Defined.

(** C8, as amended. For the source [привет как дела] with the times 0 to 1,
    1 to 2, 2 to 3 and the corrected tokens [Привет , как дела ?], the walk
    pushes exactly three words, [Привет], [как] and [дела], under the times
    of the source, all three counted as matched. The comma is skipped by the
    lookahead and the question mark is never reached: neither is part of any
    word pushed. *)
Theorem addPunctuation_lookahead_example :
  Transcription.alignBatch toLowerCaseRu greeting greetingCorrected []
  = Transcription.mkPunct 3 4 3 [mkWord Privet 0 1; mkWord kak 1 2; mkWord dela 2 3].
Proof. by vm_compute. Qed.

(** C8, the claim as it is written fails: no word pushed carries the comma or
    the question mark of the correction. *)
Lemma addPunctuation_lookahead_counterexample :
  ~ exists t, t ∈ Transcription.punctuatedWords
                    (Transcription.alignBatch toLowerCaseRu greeting greetingCorrected [])
         /\ (44%N ∈ word t \/ 63%N ∈ word t).
Proof.
  assert (Transcription.punctuatedWords
            (Transcription.alignBatch toLowerCaseRu greeting greetingCorrected [])
          = [mkWord Privet 0 1; mkWord kak 1 2; mkWord dela 2 3]) as -> by by vm_compute.
  intros (t & Ht & Hp).
  repeat (apply elem_of_cons in Ht as [-> | Ht]);
    [| | | by apply elem_of_nil in Ht];
    destruct Hp as [Hp | Hp]; simpl in Hp;
    repeat (apply elem_of_cons in Hp as [Hp | Hp]; [discriminate|]);
    by apply elem_of_nil in Hp.
Qed.

(** C9, as amended. When [whisperWords] is empty, [alignWhisperToOriginal]
    returns one word for each original word, from 0 to 0, whose text is
    the original word after one space when it is not the first; the words
    carry no flag. For [привет мир] the texts are [привет] and [ мир]. *)
Theorem alignWhisperToOriginal_nothing_heard (toLowerCase : jsstring -> jsstring)
  (originalWords : list jsstring) :
  alignWhisperToOriginal toLowerCase [] originalWords
  = imap (fun i w => mkWord ((if 0 <? i then [32%N] else []) ++ w) 0 0) originalWords
  /\ alignWhisperToOriginal toLowerCase [] [privet; mir]
     = [mkWord privet 0 0; mkWord (32%N :: mir) 0 0].
Proof. done. Qed.

(** C9, the claim as it is written fails on the text of the second word:
    the output for [привет мир] is not the pair of the two bare words. *)
Lemma alignWhisperToOriginal_nothing_heard_counterexample :
  alignWhisperToOriginal toLowerCaseRu [] [privet; mir]
  <> [mkWord privet 0 0; mkWord mir 0 0].
Proof. by vm_compute. Qed.

(** C10. Both walks terminate: every iteration of the loop of
    [alignWhisperToOriginal] and of the loop of a batch of [addPunctuation]
    moves [oi] forward by at least one and not beyond the array, so the
    number of words still to place decreases; each loop, defined by
    well-founded recursion on that number, returns a state whose [oi] has
    left the array. *)
Theorem walks_terminate (toLowerCase : jsstring -> jsstring) :
  (forall whisperWords originalWords s origWord,
      originalWords !! TextUtils.oi s = Some origWord ->
      let s' := alignStep toLowerCase whisperWords originalWords s origWord in
      TextUtils.oi s < TextUtils.oi s' <= length originalWords
      /\ length originalWords - TextUtils.oi s' < length originalWords - TextUtils.oi s)
  /\ (forall batchWords punctuatedBatch s original,
         batchWords !! Transcription.oi s = Some original ->
         let s' := Transcription.punctStep toLowerCase batchWords punctuatedBatch s original in
         Transcription.oi s < Transcription.oi s' <= length batchWords
         /\ length batchWords - Transcription.oi s' < length batchWords - Transcription.oi s)
  /\ (forall whisperWords originalWords s,
         length originalWords
         <= TextUtils.oi (alignLoop toLowerCase whisperWords originalWords s))
  /\ (forall batchWords punctuatedBatch s,
         length batchWords
         <= Transcription.oi (Transcription.punctLoop toLowerCase batchWords punctuatedBatch s)).
Proof.
  split; [|split; [|split]].
  - intros whisperWords originalWords s origWord Ho.
    pose proof (alignStep_oi toLowerCase whisperWords originalWords s origWord Ho).
    apply lookup_lt_Some in Ho. cbv zeta. lia.
  - intros batchWords punctuatedBatch s original Ho.
    pose proof (punctStep_oi toLowerCase batchWords punctuatedBatch s original Ho).
    apply lookup_lt_Some in Ho. cbv zeta. lia.
  - intros whisperWords originalWords s.
    destruct (alignLoop_invariant toLowerCase whisperWords originalWords
                (fun _ => True) (fun _ _ _ _ => I) s I) as [_ Hend].
    by apply lookup_ge_None in Hend.
  - intros batchWords punctuatedBatch s.
    destruct (punctLoop_invariant toLowerCase batchWords punctuatedBatch
                (fun _ => True) (fun _ _ _ _ => I) s I) as [_ Hend].
    by apply lookup_ge_None in Hend.
Qed.

Lemma walks_terminate_witness :
  TextUtils.oi (mkAlign 1 1 [mkWord a 9 10])
  < TextUtils.oi (alignStep toLowerCaseRu heardAD scriptABCD
                    (mkAlign 1 1 [mkWord a 9 10]) b)
  /\ Transcription.oi (Transcription.mkPunct 1 1 1 [mkWord Privet 0 1])
     < Transcription.oi (Transcription.punctStep toLowerCaseRu greeting greetingCorrected
                           (Transcription.mkPunct 1 1 1 [mkWord Privet 0 1])
                           (mkWord kak 1 2)).
Proof.
  destruct (walks_terminate toLowerCaseRu) as (HB & HA & _).
  split.
  - apply (HB heardAD scriptABCD (mkAlign 1 1 [mkWord a 9 10]) b). reflexivity.
  - apply (HA greeting greetingCorrected
             (Transcription.mkPunct 1 1 1 [mkWord Privet 0 1]) (mkWord kak 1 2)).
    reflexivity.
Defined.

(** ** The rational model and binary64 *)

(** For every length up to 2000, [Math.floor(maxLen * 0.3)] computed on
    doubles is the tolerance computed on rationals. *)
#[warnings="-inexact-float"]
Lemma binary64_fuzzyTolerance :
  forallb (fun n => Binary64.floorIs (Binary64.num64 n * 0.3)%float (fuzzyTolerance n))
    (seq 0 2001)
  = true.
Proof. by vm_compute. Qed.

(** The worked example of the interpolation, computed on doubles. *)
#[warnings="-inexact-float"]
Lemma binary64_interpolation_example :
  let step := Binary64.step64 10 13 2 in
  (Binary64.filled64 10 step 1, Binary64.filled64 10 step 2)
  = ((11, 11.8), (12, 12.8))%float.
Proof. by vm_compute. Qed.

(** * Further properties of the code *)

(** ** [stripPunctuation] and [trim] *)

Section Edges.

Context {A : Type} (p : A -> bool).

(** What is left of [l] when the elements of [p] are dropped at both ends. *)
Local Abbreviation core l := (rev (dropWhile p (rev (dropWhile p l)))).

Lemma dropWhile_id (l : list A) :
  (forall x, head l = Some x -> p x = false) -> dropWhile p l = l.
Proof.
  destruct l as [|x l]; simpl; [done|]. intros H. by rewrite (H x eq_refl).
Qed.

Lemma core_split (l : list A) :
  l = takeWhile p l ++ core l ++ rev (takeWhile p (rev (dropWhile p l))).
Proof.
  rewrite <- rev_app_distr, takeWhile_dropWhile, rev_involutive.
  by rewrite takeWhile_dropWhile.
Qed.

Lemma last_rev (l : list A) : last (rev l) = head l.
Proof. destruct l as [|x l]; simpl; [done|]. apply last_snoc. Qed.

Lemma head_rev (l : list A) : head (rev l) = last l.
Proof. by rewrite <- last_rev, rev_involutive. Qed.

Lemma core_last (l : list A) x : last (core l) = Some x -> p x = false.
Proof. rewrite last_rev, head_lookup. apply dropWhile_head. Qed.

Lemma core_head (l : list A) x : head (core l) = Some x -> p x = false.
Proof.
  intros Hx.
  assert (head (dropWhile p l) = Some x) as H.
  { pose proof (takeWhile_dropWhile p (rev (dropWhile p l))) as Heq.
    apply (f_equal (@rev A)) in Heq. rewrite rev_app_distr, rev_involutive in Heq.
    rewrite <- Heq. destruct (rev (dropWhile p (rev (dropWhile p l)))); [done|].
    simpl in *. done. }
  rewrite head_lookup in H. by apply dropWhile_head in H.
Qed.

Lemma core_id (l : list A) :
  (forall x, head l = Some x -> p x = false) ->
  (forall x, last l = Some x -> p x = false) -> core l = l.
Proof.
  intros Hh Hl. rewrite (dropWhile_id l Hh).
  rewrite dropWhile_id; [apply rev_involutive|].
  intros x. rewrite head_rev. apply Hl.
Qed.

Lemma core_idemp (l : list A) : core (core l) = core l.
Proof. apply core_id; [apply core_head | apply core_last]. Qed.

End Edges.

(** X2. [stripPunctuation(word)] is [word] without a prefix and a suffix made
    of characters of the class; it neither starts nor ends with a character
    of the class, and stripping it again changes nothing. *)
Theorem stripPunctuation_core (word : jsstring) :
  (exists pre suf,
      word = pre ++ stripPunctuation word ++ suf
      /\ Forall (fun c => isEdgeChar c = true) pre
      /\ Forall (fun c => isEdgeChar c = true) suf)
  /\ (forall c, head (stripPunctuation word) = Some c -> isEdgeChar c = false)
  /\ (forall c, last (stripPunctuation word) = Some c -> isEdgeChar c = false)
  /\ stripPunctuation (stripPunctuation word) = stripPunctuation word.
Proof.
  unfold stripPunctuation. split; [|split; [|split]].
  - eexists _, _. split; [apply (core_split isEdgeChar)|].
    split; [apply takeWhile_all|].
    apply Forall_rev, takeWhile_all.
  - apply core_head.
  - apply core_last.
  - apply core_idemp.
Qed.

Lemma dropWhile_app {A} (p : A -> bool) (l k : list A) :
  dropWhile p (l ++ k)
  = match dropWhile p l with
    | [] => dropWhile p k
    | _ :: _ => dropWhile p l ++ k
    end.
Proof.
  induction l as [|x l IH]; simpl; [by destruct (dropWhile p k)|].
  by destruct (p x).
Qed.

Lemma dropWhile_all {A} (p : A -> bool) (l : list A) :
  Forall (fun x => p x = true) l -> dropWhile p l = [].
Proof. induction 1 as [|x l Hx _ IH]; simpl; [done|]. by rewrite Hx. Qed.

(** X3. Characters of the class of [stripPunctuation] written before and
    after a word do not change what [stripPunctuation] returns for it. *)
Theorem stripPunctuation_ignores_edges (pre word suf : jsstring) :
  Forall (fun c => isEdgeChar c = true) pre ->
  Forall (fun c => isEdgeChar c = true) suf ->
  stripPunctuation (pre ++ word ++ suf) = stripPunctuation word.
Proof.
  intros Hpre Hsuf. unfold stripPunctuation.
  rewrite dropWhile_app_all by done. rewrite dropWhile_app.
  destruct (dropWhile isEdgeChar word) as [|x m] eqn:Hw.
  - by rewrite (dropWhile_all _ suf) by done.
  - rewrite rev_app_distr. rewrite dropWhile_app_all; [done|].
    by apply List.Forall_rev.
Qed.

Lemma stripPunctuation_ignores_edges_witness :
  stripPunctuation ([171%N] ++ Privet ++ [44; 187]%N) = stripPunctuation Privet.
Proof.
  apply (stripPunctuation_ignores_edges [171%N] Privet [44; 187]%N);
    repeat constructor.
Defined.

(** ** [editDistance] as a metric *)

Section Metric.

Implicit Types a b c : jsstring.

Lemma edits_lengths n a b :
  edits n a b -> length a <= length b + n /\ length b <= length a + n.
Proof. induction 1; simpl; lia. Qed.

Lemma edits_zero n a b : edits n a b -> n = 0 -> a = b.
Proof. induction 1; intros Hn; try discriminate; [done|]. f_equal. auto. Qed.

Lemma levenshtein_le_max a b :
  levenshtein a b <= Nat.max (length a) (length b).
Proof.
  revert b. induction a as [|x a IH]; intros b; [simpl; lia|].
  destruct b as [|y b]; [rewrite levenshtein_nil_r; lia|].
  rewrite levenshtein_cons. specialize (IH b).
  unfold min3, cost. simpl length. case_bool_decide; lia.
Qed.

Lemma levenshtein_keep x a b :
  levenshtein (x :: a) (x :: b) <= levenshtein a b.
Proof.
  rewrite levenshtein_cons. unfold min3, cost.
  rewrite bool_decide_eq_true_2 by done. lia.
Qed.

Lemma levenshtein_subst x y a b :
  levenshtein (x :: a) (y :: b) <= levenshtein a b + 1.
Proof.
  rewrite levenshtein_cons. unfold min3, cost. case_bool_decide; lia.
Qed.

(** An edit script from [a] to [b] followed by one from [b] to [c]. *)
Lemma edits_trans n a b :
  edits n a b -> forall m c, edits m b c -> levenshtein a c <= n + m.
Proof.
  induction 1 as [|x a b n H IH|x y a b n H IH|x a b n H IH|y a b n H IH];
    intros m c H2.
  - by apply edits_lower_bound in H2.
  - remember (x :: b) as b0 eqn:Hb.
    induction H2 as [|x' b' c n' H2 _|x' y' b' c n' H2 _|x' b' c n' H2 _|y' b' c n' H2 IH2];
      try discriminate.
    + injection Hb as -> ->. pose proof (IH _ _ H2). pose proof (levenshtein_keep x a c). lia.
    + injection Hb as -> ->. pose proof (IH _ _ H2). pose proof (levenshtein_subst x y' a c). lia.
    + injection Hb as -> ->. pose proof (IH _ _ H2). pose proof (levenshtein_delete x a c). lia.
    + specialize (IH2 Hb). pose proof (levenshtein_insert y' (x :: a) c). lia.
  - remember (y :: b) as b0 eqn:Hb.
    induction H2 as [|x' b' c n' H2 _|x' y' b' c n' H2 _|x' b' c n' H2 _|y' b' c n' H2 IH2];
      try discriminate.
    + injection Hb as -> ->. pose proof (IH _ _ H2). pose proof (levenshtein_subst x y a c). lia.
    + injection Hb as -> ->. pose proof (IH _ _ H2). pose proof (levenshtein_subst x y' a c). lia.
    + injection Hb as -> ->. pose proof (IH _ _ H2). pose proof (levenshtein_delete x a c). lia.
    + specialize (IH2 Hb). pose proof (levenshtein_insert y' (x :: a) c). lia.
  - pose proof (IH _ _ H2). pose proof (levenshtein_delete x a c). lia.
  - remember (y :: b) as b0 eqn:Hb.
    induction H2 as [|x' b' c n' H2 _|x' y' b' c n' H2 _|x' b' c n' H2 _|y' b' c n' H2 IH2];
      try discriminate.
    + injection Hb as -> ->. pose proof (IH _ _ H2). pose proof (levenshtein_insert y a c). lia.
    + injection Hb as -> ->. pose proof (IH _ _ H2). pose proof (levenshtein_insert y' a c). lia.
    + injection Hb as -> ->. pose proof (IH _ _ H2). lia.
    + specialize (IH2 Hb). pose proof (levenshtein_insert y' a c). lia.
Qed.

End Metric.

(** X4. [editDistance] satisfies the triangle inequality. *)
Theorem editDistance_triangle (a b c : jsstring) :
  editDistance a c <= editDistance a b + editDistance b c.
Proof.
  rewrite !editDistance_levenshtein.
  apply (edits_trans _ a b); apply edits_levenshtein.
Qed.

(** X5. [editDistance(a, b)] is [0] only for equal strings. *)
Theorem editDistance_zero_iff (a b : jsstring) :
  editDistance a b = 0 <-> a = b.
Proof.
  rewrite editDistance_levenshtein. split.
  - intros H. eapply edits_zero; [apply edits_levenshtein | done].
  - intros ->. apply levenshtein_refl.
Qed.

(** X6. [editDistance(a, b)] is at least the difference of the two lengths
    and at most the greater of them. *)
Theorem editDistance_bounds (a b : jsstring) :
  length a - length b <= editDistance a b
  /\ length b - length a <= editDistance a b
  /\ editDistance a b <= Nat.max (length a) (length b).
Proof.
  rewrite editDistance_levenshtein.
  pose proof (edits_lengths _ a b (edits_levenshtein a b)).
  pose proof (levenshtein_le_max a b). lia.
Qed.

(** X7. Two strings that [isFuzzyMatch] accepts have four characters or
    more each, and their lengths differ by no more than the tolerance: [2],
    or three tenths of the greater length when that is more. *)
Theorem isFuzzyMatch_lengths (a b : jsstring) :
  isFuzzyMatch a b = true ->
  4 <= length a /\ 4 <= length b
  /\ length a - length b <= Nat.max 2 (Nat.max (length a) (length b) * 3 / 10)
  /\ length b - length a <= Nat.max 2 (Nat.max (length a) (length b) * 3 / 10).
Proof.
  unfold isFuzzyMatch. rewrite fuzzyTolerance_div.
  rewrite editDistance_levenshtein.
  pose proof (edits_lengths _ a b (edits_levenshtein a b)) as [H1 H2].
  destruct (Nat.ltb_spec (length a) 4), (Nat.ltb_spec (length b) 4); simpl;
    try discriminate.
  intros Hd%Nat.leb_le. lia.
Qed.

Lemma isFuzzyMatch_lengths_witness :
  4 <= length skazhym /\ 4 <= length skazhem
  /\ length skazhym - length skazhem
     <= Nat.max 2 (Nat.max (length skazhym) (length skazhem) * 3 / 10)
  /\ length skazhem - length skazhym
     <= Nat.max 2 (Nat.max (length skazhym) (length skazhem) * 3 / 10).
Proof.
  apply (isFuzzyMatch_lengths skazhym skazhem). vm_compute. reflexivity.
Defined.

(** ** Texts and their words *)

(** The pieces and the words of [a  b], of [ a], of [a ], of the empty text
    and of one space. *)
Example test_splitWhiteSpace :
  splitWhiteSpace [97; 32; 32; 98]%N = [[97]; [98]]%N
  /\ splitWhiteSpace [32; 97]%N = [[]; [97]]%N
  /\ splitWhiteSpace [97; 32]%N = [[97]; []]%N
  /\ splitWhiteSpace [] = [[]]
  /\ splitWhiteSpace [32]%N = [[]; []]
  /\ splitWords [32; 97; 10; 9; 98; 32]%N = [[97]; [98]]%N.
Proof. repeat split. Qed.

Section Split.

Implicit Types text w : jsstring.

Local Abbreviation blank := (fun c : N => isWhiteSpace c = true).
Local Abbreviation solid := (fun c : N => isWhiteSpace c = false).

Lemma splitWhiteSpace_solid text :
  Forall (Forall solid) (splitWhiteSpace text).
Proof.
  induction text as [|c text IH]; simpl; [by repeat constructor|].
  destruct (isWhiteSpace c) eqn:Hc.
  - destruct text as [|c' text]; [by repeat constructor|].
    destruct (isWhiteSpace c'); [done | by constructor].
  - destruct (splitWhiteSpace text) as [|piece pieces]; [by repeat constructor|].
    apply Forall_cons in IH as [? ?]. by repeat constructor.
Qed.

Lemma splitWhiteSpace_concat text :
  concat (splitWhiteSpace text) = List.filter (fun c => negb (isWhiteSpace c)) text.
Proof.
  induction text as [|c text IH]; simpl; [done|].
  destruct (isWhiteSpace c) eqn:Hc; simpl.
  - destruct text as [|c' text]; [done|].
    by destruct (isWhiteSpace c').
  - rewrite <- IH. by destruct (splitWhiteSpace text).
Qed.

Lemma filter_nonempty_concat (l : list jsstring) :
  concat (List.filter (fun w => 0 <? length w) l) = concat l.
Proof.
  induction l as [|w l IH]; simpl; [done|].
  destruct w; simpl; by rewrite IH.
Qed.

Lemma splitWords_isWord text : Forall isWord (splitWords text).
Proof.
  unfold splitWords.
  pose proof (splitWhiteSpace_solid text) as H.
  induction H as [|w l Hw Hl IH]; simpl; [constructor|].
  destruct w as [|c w]; simpl; [done|]. by constructor.
Qed.

Lemma splitWhiteSpace_nonempty text : splitWhiteSpace text <> [].
Proof.
  induction text as [|c text IH]; simpl; [done|].
  destruct (isWhiteSpace c).
  - destruct text as [|c' text]; [done|]. by destruct (isWhiteSpace c').
  - by destruct (splitWhiteSpace text).
Qed.

(** A word in front of a text joins its first piece. *)
Lemma splitWhiteSpace_word w text :
  Forall solid w ->
  splitWhiteSpace (w ++ text)
  = match splitWhiteSpace text with
    | piece :: pieces => (w ++ piece) :: pieces
    | [] => [w]
    end.
Proof.
  pose proof (splitWhiteSpace_nonempty text) as Hne.
  induction 1 as [|c w Hc Hw IH]; simpl.
  - by destruct (splitWhiteSpace text).
  - rewrite Hc, IH. by destruct (splitWhiteSpace text).
Qed.

Lemma splitWords_word_space w text c :
  isWord w -> isWhiteSpace c = true ->
  splitWords (w ++ c :: text) = w :: splitWords (c :: text).
Proof.
  intros [Hne Hw] Hc. unfold splitWords.
  rewrite splitWhiteSpace_word by done.
  assert (exists pieces, splitWhiteSpace (c :: text) = [] :: pieces) as [pieces Hp].
  { clear w Hne Hw. revert c Hc.
    induction text as [|c' text IH]; intros c Hc.
    - simpl. rewrite Hc. by eexists.
    - change (splitWhiteSpace (c :: c' :: text))
        with (if isWhiteSpace c then
                if isWhiteSpace c' then splitWhiteSpace (c' :: text)
                else [] :: splitWhiteSpace (c' :: text)
              else match splitWhiteSpace (c' :: text) with
                   | piece :: pieces' => (c :: piece) :: pieces'
                   | [] => [[c]]
                   end).
      rewrite Hc. destruct (isWhiteSpace c') eqn:Hc'; [by apply IH | by eexists]. }
  rewrite Hp, app_nil_r. simpl.
  destruct w; [done|]. done.
Qed.

Lemma splitWords_space c text :
  isWhiteSpace c = true -> splitWords (c :: text) = splitWords text.
Proof.
  intros Hc. unfold splitWords.
  change (splitWhiteSpace (c :: text))
    with (let pieces := splitWhiteSpace text in
          if isWhiteSpace c then
            match text with
            | c' :: _ => if isWhiteSpace c' then pieces else [] :: pieces
            | [] => [] :: pieces
            end
          else match pieces with
               | piece :: pieces' => (c :: piece) :: pieces'
               | [] => [[c]]
               end).
  cbv zeta. rewrite Hc.
  destruct text as [|c' text]; [done|].
  destruct (isWhiteSpace c') eqn:Hc'; [done|]. done.
Qed.

Lemma splitWords_word w : isWord w -> splitWords w = [w].
Proof.
  intros [Hne Hw]. unfold splitWords.
  rewrite <- (app_nil_r w) at 1. rewrite splitWhiteSpace_word by done. simpl.
  rewrite app_nil_r. by destruct w.
Qed.

(** The words of a text written with one space between two words. *)
Lemma splitWords_join (ws : list jsstring) :
  Forall isWord ws -> splitWords (join [32%N] ws) = ws.
Proof.
  induction 1 as [|w ws Hw Hws IH]; [done|].
  destruct ws as [|w' ws]; [by apply splitWords_word|].
  change (join [32%N] (w :: w' :: ws)) with (w ++ 32%N :: join [32%N] (w' :: ws)).
  rewrite splitWords_word_space, splitWords_space by done. by rewrite IH.
Qed.

End Split.

(** ** Segments of twenty words *)

Section Segments.

Implicit Types words : list WordTimestamp.
Implicit Types raws ws : list jsstring.

Local Abbreviation blank := (fun c : N => isWhiteSpace c = true).
Local Abbreviation textsFrom i ws :=
  (imap (fun j w => leadingSpaceAt (i + j) ++ w) ws).

Lemma join_nil ws : join [] ws = concat ws.
Proof.
  induction ws as [|w ws IH]; [done|].
  destruct ws as [|w' ws]; [simpl; by rewrite app_nil_r|].
  change (join [] (w :: w' :: ws)) with (w ++ [] ++ join [] (w' :: ws)).
  by rewrite IH.
Qed.

Lemma join_cons sep w w' ws :
  join sep (w :: w' :: ws) = w ++ sep ++ join sep (w' :: ws).
Proof. done. Qed.

Lemma join_head ws w c :
  Forall isWord ws -> head ws = Some w -> head (join [32%N] ws) = Some c ->
  isWhiteSpace c = false.
Proof.
  intros Hws Hw. destruct ws as [|w0 ws]; [done|]. injection Hw as ->.
  apply Forall_cons in Hws as [[Hne Hsolid] _].
  destruct w as [|c' w]; [done|]. apply Forall_cons in Hsolid as [Hc' _].
  destruct ws; simpl; congruence.
Qed.

Lemma join_last ws c :
  Forall isWord ws -> last (join [32%N] ws) = Some c -> isWhiteSpace c = false.
Proof.
  induction 1 as [|w ws Hw Hws IH]; [done|].
  destruct ws as [|w' ws].
  - simpl. destruct Hw as [_ Hsolid]. intros Hc.
    apply last_Some in Hc as [l' ->].
    by apply Forall_app in Hsolid as [_ [? _]%Forall_cons].
  - rewrite join_cons. intros Hc. apply IH.
    rewrite !last_app in Hc.
    destruct (last (join [32%N] (w' :: ws))) eqn:Hl; [done|].
    exfalso. apply last_None in Hl.
    apply Forall_cons in Hws as [[Hne' _] _].
    simpl in Hl. destruct ws; [done|]. by destruct w'.
Qed.

Lemma trim_id (s : jsstring) :
  (forall c, head s = Some c -> isWhiteSpace c = false) ->
  (forall c, last s = Some c -> isWhiteSpace c = false) -> trim s = s.
Proof. apply core_id. Qed.

Lemma trim_leading (sp s : jsstring) :
  Forall blank sp -> trim (sp ++ s) = trim s.
Proof. intros Hsp. unfold trim. by rewrite dropWhile_app_all. Qed.

Lemma leadingSpaceAt_blank i : Forall blank (leadingSpaceAt i).
Proof. unfold leadingSpaceAt. destruct (0 <? i); by repeat constructor. Qed.

Lemma textsFrom_join i ws :
  ws <> [] -> join [] (textsFrom i ws) = leadingSpaceAt i ++ join [32%N] ws.
Proof.
  rewrite join_nil. revert i. induction ws as [|w ws IH]; intros i Hne; [done|].
  rewrite imap_cons. simpl. rewrite Nat.add_0_r.
  destruct ws as [|w' ws]; [simpl; by rewrite !app_nil_r|].
  rewrite (imap_ext _ (fun j w => leadingSpaceAt (S i + j) ++ w)).
  2:{ intros j x _. simpl. by rewrite Nat.add_succ_r. }
  rewrite IH by done. by rewrite <- app_assoc.
Qed.

Lemma drop_textsFrom i n ws :
  drop n (textsFrom i ws) = textsFrom (i + n) (drop n ws).
Proof.
  revert i ws. induction n as [|n IH]; intros i ws.
  - rewrite !drop_0. apply imap_ext. intros. by rewrite Nat.add_0_r.
  - destruct ws as [|w ws]; [done|]. rewrite imap_cons. simpl.
    rewrite (imap_ext _ (fun j w => leadingSpaceAt (S i + j) ++ w)).
    2:{ intros j x _. simpl. by rewrite Nat.add_succ_r. }
    rewrite IH. apply imap_ext. intros. do 2 f_equal. lia.
Qed.

Lemma take_textsFrom i n ws :
  take n (textsFrom i ws) = textsFrom i (take n ws).
Proof.
  revert i ws. induction n as [|n IH]; intros i ws; [done|].
  destruct ws as [|w ws]; [done|]. rewrite !imap_cons. simpl. f_equal.
  rewrite (imap_ext _ (fun j w => leadingSpaceAt (S i + j) ++ w)).
  2:{ intros j x _. simpl. by rewrite Nat.add_succ_r. }
  rewrite IH. apply imap_ext. intros. simpl. by rewrite Nat.add_succ_r.
Qed.

(** The text of the segment of the words [i .. i + n - 1]: the original
    words, one space between two of them. *)
Lemma segment_text raws i n :
  Forall isWord raws -> i < length raws -> 0 < n ->
  trim (join [] (take n (drop i (originalTexts raws))))
  = join [32%N] (take n (drop i raws)).
Proof.
  intros Hraws Hi Hn. unfold originalTexts.
  rewrite (drop_textsFrom 0), take_textsFrom. simpl.
  assert (take n (drop i raws) <> []) as Hne.
  { intros H%(f_equal length). rewrite length_take, length_drop in H. simpl in H. lia. }
  assert (Forall isWord (take n (drop i raws))) as Hws
    by by apply Forall_take, Forall_drop.
  rewrite textsFrom_join by done.
  rewrite trim_leading by apply leadingSpaceAt_blank.
  apply trim_id.
  - destruct (take n (drop i raws)) as [|w ws] eqn:E; [done|].
    intros c. by apply (join_head (w :: ws) w).
  - intros c. by apply join_last.
Qed.

Lemma segmentLoop_unfold words i segments :
  segmentLoop words i segments
  = if i <? length words then
      segmentLoop words (i + 20)
        (segments ++ [segmentOf (take 20 (drop i words))])
    else segments.
Proof.
  rewrite (segmentLoop_equation_1 words i segments).
  destruct (inspect (i <? length words)) as [[|] e]; simpl; by rewrite e.
Qed.

Lemma segmentLoop_lookup words : forall n i segments,
  n = length words - i ->
  take (length segments) (segmentLoop words i segments) = segments
  /\ forall k,
       segmentLoop words i segments !! (length segments + k)
       = if i + 20 * k <? length words
         then Some (segmentOf (take 20 (drop (i + 20 * k) words)))
         else None.
Proof.
  induction n as [n IH] using lt_wf_ind. intros i segments Hn.
  rewrite segmentLoop_unfold.
  destruct (Nat.ltb_spec i (length words)) as [Hi|Hi].
  - destruct (IH (length words - (i + 20)) ltac:(lia) (i + 20)
                (segments ++ [segmentOf (take 20 (drop i words))]) eq_refl)
      as [Htake Hlook].
    rewrite length_app in Htake, Hlook. cbn [length] in Htake, Hlook.
    split.
    + apply (f_equal (take (length segments))) in Htake.
      rewrite take_take, Nat.min_l in Htake by lia.
      by rewrite Htake, take_app_length.
    + intros [|k].
      * rewrite Nat.mul_0_r, !Nat.add_0_r.
        destruct (Nat.ltb_spec i (length words)) as [_|]; [|lia].
        apply (f_equal (fun l => l !! length segments)) in Htake.
        rewrite lookup_take_lt in Htake by lia.
        by rewrite Htake, lookup_app_r, Nat.sub_diag.
      * replace (length segments + S k) with (length segments + 1 + k) by lia.
        rewrite Hlook. replace (i + 20 + 20 * k) with (i + 20 * S k) by lia. done.
  - split; [apply take_ge; lia|]. intros k.
    destruct (Nat.ltb_spec (i + 20 * k) (length words)) as [|_]; [lia|].
    apply lookup_ge_None. lia.
Qed.

Lemma buildSegments_lookup words k :
  buildSegments words !! k
  = if 20 * k <? length words
    then Some (segmentOf (take 20 (drop (20 * k) words)))
    else None.
Proof.
  destruct (segmentLoop_lookup words _ 0 [] eq_refl) as [_ H]. apply (H k).
Qed.

Lemma buildSegments_length words :
  length (buildSegments words) = (length words + 19) / 20.
Proof.
  set (m := (length words + 19) / 20).
  pose proof (Nat.div_mod_eq (length words + 19) 20) as Hdiv.
  pose proof (Nat.mod_upper_bound (length words + 19) 20 ltac:(lia)) as Hmod.
  fold m in Hdiv.
  apply Nat.le_antisymm.
  - apply lookup_ge_None. rewrite buildSegments_lookup.
    destruct (Nat.ltb_spec (20 * m) (length words)); [lia | done].
  - destruct m as [|m']; [lia|].
    apply (lookup_lt_is_Some_1 _ m'). rewrite buildSegments_lookup.
    destruct (Nat.ltb_spec (20 * m') (length words)); [done | lia].
Qed.

(** The segment [k] of the words that carry the texts of the original
    words [raws]. *)
Lemma buildSegments_segment words raws k :
  word <$> words = originalTexts raws -> Forall isWord raws ->
  20 * k < length words ->
  exists first final,
    words !! (20 * k) = Some first
    /\ words !! Nat.min (20 * k + 19) (length words - 1) = Some final
    /\ buildSegments words !! k
       = Some {| Segment.text := join [32%N] (take 20 (drop (20 * k) raws));
                 Segment.start := start first;
                 Segment.end_ := end_ final |}.
Proof.
  intros Htexts Hraws Hk.
  assert (length raws = length words) as Hlen.
  { apply (f_equal length) in Htexts.
    unfold originalTexts in Htexts. by rewrite length_fmap, length_imap in Htexts. }
  destruct (lookup_lt_is_Some_2 words (20 * k) Hk) as [first Hfirst].
  destruct (lookup_lt_is_Some_2 words (Nat.min (20 * k + 19) (length words - 1))
              ltac:(lia)) as [final Hfinal].
  exists first, final. split; [done|]. split; [done|].
  rewrite buildSegments_lookup.
  destruct (Nat.ltb_spec (20 * k) (length words)) as [_|]; [|lia].
  f_equal. unfold segmentOf. f_equal.
  - rewrite fmap_take, fmap_drop, Htexts. apply segment_text; [done | lia | lia].
  - rewrite lookup_take_lt, lookup_drop, Nat.add_0_r, Hfirst by lia. done.
  - rewrite length_take, length_drop.
    rewrite lookup_take_lt, lookup_drop by lia.
    replace (20 * k + (Nat.min 20 (length words - 20 * k) - 1))
      with (Nat.min (20 * k + 19) (length words - 1)) by lia.
    by rewrite Hfinal.
Qed.

End Segments.

(** ** [estimateWordTimestamps] *)

Section Estimate.

Variable T : nat.
Variable D : Q.

Implicit Types raws : list jsstring.
Implicit Types st : Q * list WordTimestamp.

Local Abbreviation loop := (estimateLoop T D).
Local Abbreviation textsFrom i ws :=
  (imap (fun j w => leadingSpaceAt (i + j) ++ w) ws).

Lemma estimateLoop_words raws : forall i st,
  word <$> (loop i raws st).2 = (word <$> st.2) ++ textsFrom i raws.
Proof.
  induction raws as [|w raws IH]; intros i st; simpl; [by rewrite app_nil_r|].
  rewrite IH. simpl. rewrite fmap_app, <- app_assoc. simpl.
  rewrite Nat.add_0_r. do 2 f_equal.
  apply imap_ext. intros j x _. simpl. by rewrite Nat.add_succ_r.
Qed.

(** The words follow one another from [c0]: the first starts at [c0], each
    other one where the one before ends, and the cursor is the end of the
    last. *)
Local Abbreviation chained c0 st :=
  ((forall w, st.2 !! 0 = Some w -> start w = c0)
   /\ (forall k w w', st.2 !! k = Some w -> st.2 !! S k = Some w' ->
         start w' = end_ w)
   /\ st.1 = match last st.2 with Some w => end_ w | None => c0 end).

Lemma estimateStep_chained c0 st i raw :
  chained c0 st -> chained c0 (estimateStep T D st i raw).
Proof.
  intros (Hhead & Hnext & Hcur). destruct st as [c l]. simpl in *.
  split; [|split].
  - intros w. destruct l as [|w0 l]; simpl.
    + intros [= <-]. by simpl.
    + apply Hhead.
  - intros k w w' Hw Hw'.
    destruct (decide (S k < length l)) as [Hk|Hk].
    + rewrite lookup_app_l in Hw, Hw' by lia. by eapply Hnext.
    + apply lookup_lt_Some in Hw' as Hlt. rewrite length_app in Hlt. simpl in Hlt.
      assert (S k = length l) as Hk' by lia.
      rewrite lookup_app_l in Hw by lia.
      rewrite lookup_app_r, Hk', Nat.sub_diag in Hw' by lia.
      injection Hw' as <-. simpl.
      rewrite Hcur, last_lookup.
      replace (pred (length l)) with k by lia. by rewrite Hw.
  - by rewrite last_snoc.
Qed.

Lemma estimateLoop_chained c0 raws : forall i st,
  chained c0 st -> chained c0 (loop i raws st).
Proof.
  induction raws as [|w raws IH]; intros i st Hst; [done|].
  apply IH. by apply estimateStep_chained.
Qed.

Lemma totalChars_from n raws :
  foldl (fun sum w => sum + length w) n raws = n + totalChars raws.
Proof.
  unfold totalChars. revert n.
  induction raws as [|w raws IH]; intros n; simpl; [lia|].
  rewrite (IH (n + length w)), (IH (length w)). lia.
Qed.

Lemma totalChars_cons w raws :
  totalChars (w :: raws) = length w + totalChars raws.
Proof. unfold totalChars at 1. simpl. apply totalChars_from. Qed.

Lemma num_add n m : (num (n + m) == num n + num m)%Q.
Proof. unfold num. by rewrite Nat2Z.inj_add, inject_Z_plus. Qed.

Lemma estimateLoop_cursor raws : forall i st,
  ((loop i raws st).1 == st.1 + num (totalChars raws) / num T * D)%Q.
Proof.
  induction raws as [|w raws IH]; intros i st; simpl.
  - unfold totalChars, num. simpl. unfold Qdiv. ring.
  - rewrite IH. simpl. rewrite totalChars_cons, num_add. unfold Qdiv. ring.
Qed.

Lemma wordDuration_nonneg (raw : jsstring) :
  (0 <= D)%Q -> (0 <= num (length raw) / num T * D)%Q.
Proof.
  intros HD. apply Qmult_le_0_compat; [|done].
  apply Qmult_le_0_compat; [apply num_nonneg|].
  apply Qinv_le_0_compat, num_nonneg.
Qed.

(** Every word so far lies between [c0] and the cursor. *)
Local Abbreviation bounded c0 c l :=
  ((c0 <= c)%Q
   /\ Forall (fun w => (c0 <= start w /\ start w <= end_ w /\ end_ w <= c)%Q) l).

Lemma estimateLoop_bounded c0 raws :
  (0 <= D)%Q -> forall i st,
  bounded c0 st.1 st.2 -> bounded c0 (loop i raws st).1 (loop i raws st).2.
Proof.
  intros HD. induction raws as [|raw raws IH]; intros i st Hst; [done|].
  apply IH. destruct st as [c l]. destruct Hst as [Hc Hl]. simpl in *.
  pose proof (wordDuration_nonneg raw HD) as Hd.
  split; [lra|]. apply Forall_app. split.
  - eapply Forall_impl; [exact Hl|]. intros w (? & ? & ?). simpl in *.
    split; [done|]. split; [done|]. lra.
  - constructor; [|constructor]. simpl. split; [done|]. split; lra.
Qed.

End Estimate.

Lemma splitWords_totalChars (raws : list jsstring) :
  Forall isWord raws -> raws <> [] -> 0 < totalChars raws.
Proof.
  intros Hraws Hne. destruct raws as [|w raws]; [done|].
  rewrite totalChars_cons. apply Forall_cons in Hraws as [[Hw _] _].
  destruct w; [done|]. simpl. lia.
Qed.

(** X8. The words of [text.split(/\s+/).filter(w => w.length > 0)] are not
    empty and hold no white space, and together they are the characters of
    [text] that are not white space, in order. *)
Theorem splitWords_words (text : jsstring) :
  Forall isWord (splitWords text)
  /\ concat (splitWords text)
     = List.filter (fun c => negb (isWhiteSpace c)) text.
Proof.
  split; [apply splitWords_isWord|].
  unfold splitWords. rewrite filter_nonempty_concat. apply splitWhiteSpace_concat.
Qed.

(** X9. A text written as words with one space between two of them splits
    into these words. *)
Theorem splitWords_round_trip (ws : list jsstring) :
  Forall isWord ws -> splitWords (join [32%N] ws) = ws.
Proof. apply splitWords_join. Qed.

Lemma splitWords_round_trip_witness :
  splitWords (join [32%N] [privet; kak; dela]) = [privet; kak; dela].
Proof.
  apply (splitWords_round_trip [privet; kak; dela]).
  repeat constructor; done.
Defined.




(** X12. The segments of [estimateWordTimestamps]: one for every twenty words,
    the last one for the words that are left. The segment [k] carries the
    words [20 k .. 20 k + 19] of the text with one space between two of
    them, it starts where the first of these words starts and ends where the
    last of them ends. *)
Theorem estimateWordTimestamps_segments (text : jsstring) (duration : Q) :
  let t := estimateWordTimestamps text duration in
  let words := Transcript.words t in
  length (Transcript.segments t) = (length words + 19) / 20
  /\ forall k, 20 * k < length words ->
       exists first final,
         words !! (20 * k) = Some first
         /\ words !! Nat.min (20 * k + 19) (length words - 1) = Some final
         /\ Transcript.segments t !! k
            = Some {| Segment.text :=
                        join [32%N] (take 20 (drop (20 * k) (splitWords text)));
                      Segment.start := start first;
                      Segment.end_ := end_ final |}.
Proof.
  cbv zeta. unfold estimateWordTimestamps.
  cbn [Transcript.words Transcript.segments].
  split; [apply buildSegments_length|].
  intros k Hk. apply buildSegments_segment; [|apply splitWords_isWord|done].
  rewrite estimateLoop_words. done.
Qed.

Lemma splitWords_blank (text : jsstring) :
  Forall (fun c => isWhiteSpace c = true) text -> splitWords text = [].
Proof.
  intros Hblank.
  pose proof (splitWords_isWord text) as Hwords.
  assert (concat (splitWords text) = []) as Hconcat.
  { unfold splitWords. rewrite filter_nonempty_concat, splitWhiteSpace_concat.
    clear Hwords. induction Hblank as [|c text Hc _ IH]; simpl; [done|].
    rewrite Hc. simpl. apply IH. }
  destruct (splitWords text) as [|w ws]; [done|].
  apply Forall_cons in Hwords as [[Hne _] _].
  simpl in Hconcat. by destruct w.
Qed.

(** X13. For a text without words, empty or white space only,
    [estimateWordTimestamps] returns no word and no segment, whatever the
    duration. *)
Theorem estimateWordTimestamps_blank (text : jsstring) (duration : Q) :
  Forall (fun c => isWhiteSpace c = true) text ->
  estimateWordTimestamps text duration
  = {| Transcript.words := []; Transcript.segments := [];
       Transcript.language := ru; Transcript.duration := duration |}.
Proof.
  intros Hblank. unfold estimateWordTimestamps.
  rewrite (splitWords_blank text Hblank). cbn [totalChars foldl estimateLoop snd].
  unfold buildSegments. by rewrite segmentLoop_unfold.
Qed.

Lemma estimateWordTimestamps_blank_witness :
  estimateWordTimestamps [32; 10; 9]%N 5
  = {| Transcript.words := []; Transcript.segments := [];
       Transcript.language := ru; Transcript.duration := 5 |}.
Proof.
  apply (estimateWordTimestamps_blank [32; 10; 9]%N 5).
  repeat constructor.
Defined.

(** ** [transcribeAndAlignTTS] and exact transcriptions *)

Lemma alignWhisperToOriginal_words (toLowerCase : jsstring -> jsstring)
  (whisperWords : list WordTimestamp) (originalWords : list jsstring) :
  word <$> alignWhisperToOriginal toLowerCase whisperWords originalWords
  = originalTexts originalWords.
Proof.
  unfold alignWhisperToOriginal. case_match.
  - unfold originalTexts. apply list_eq. intros i.
    rewrite list_lookup_fmap, !list_lookup_imap. by destruct (originalWords !! i).
  - rewrite interpolate_words. apply alignWalk_words.
Qed.

(** X14. [transcribeAndAlignTTS] returns one word for each word of the text,
    under the text of that word, whatever the transcription heard; its
    segments hold twenty words each but the last, the segment [k] carrying
    the words [20 k .. 20 k + 19] of the text with one space between two of
    them, from the start of the first of these words to the end of the last;
    the duration is the one of the transcription. *)
Theorem transcribeAndAlignTTS_script (toLowerCase : jsstring -> jsstring)
  (whisperResult : Transcript.t) (text : jsstring) :
  let t := Tts.transcribeAndAlignTTS toLowerCase whisperResult text in
  let words := Transcript.words t in
  word <$> words = originalTexts (splitWords text)
  /\ length (Transcript.segments t) = (length (splitWords text) + 19) / 20
  /\ (forall k, 20 * k < length words ->
        exists first final,
          words !! (20 * k) = Some first
          /\ words !! Nat.min (20 * k + 19) (length words - 1) = Some final
          /\ Transcript.segments t !! k
             = Some {| Segment.text :=
                         join [32%N] (take 20 (drop (20 * k) (splitWords text)));
                       Segment.start := start first;
                       Segment.end_ := end_ final |})
  /\ Transcript.duration t = Transcript.duration whisperResult.
Proof.
  cbv zeta. unfold Tts.transcribeAndAlignTTS.
  cbn [Transcript.words Transcript.segments Transcript.duration].
  pose proof (alignWhisperToOriginal_words toLowerCase
                (Transcript.words whisperResult) (splitWords text)) as Htexts.
  split; [done|]. split; [|split; [|done]].
  - rewrite buildSegments_length. do 2 f_equal.
    apply (f_equal length) in Htexts. unfold originalTexts in Htexts.
    by rewrite length_fmap, length_imap in Htexts.
  - intros k Hk. apply buildSegments_segment; [done|apply splitWords_isWord|done].
Qed.

Section Exact.

Variable toLowerCase : jsstring -> jsstring.
Variable whisperWords : list WordTimestamp.
Variable originalWords : list jsstring.

Local Abbreviation base := (baseOf toLowerCase).
Local Abbreviation step := (alignStep toLowerCase whisperWords originalWords).

(** The word pushed for the whisper word [w] under the text [text]. *)
Local Abbreviation timed := (fun (w : WordTimestamp) (text : jsstring) =>
                               mkWord text (start w) (end_ w)).

Hypothesis heard : length originalWords <= length whisperWords.
Hypothesis same : forall i o w,
  originalWords !! i = Some o -> whisperWords !! i = Some w ->
  sameWord (base o) (base (word w)) = true.

Local Abbreviation exactInvariant := (fun s : AlignState =>
  wi s = oi s
  /\ result s = take (oi s) (zip_with timed whisperWords (originalTexts originalWords))).

Lemma exactInvariant_step s origWord :
  originalWords !! oi s = Some origWord ->
  exactInvariant s -> exactInvariant (step s origWord).
Proof.
  intros Ho [Hwi Hres]. apply lookup_lt_Some in Ho as Hlt.
  destruct (lookup_lt_is_Some_2 whisperWords (oi s) ltac:(lia)) as [w Hw].
  unfold alignStep. rewrite Hwi, Hw. rewrite (same _ _ _ Ho Hw). simpl.
  split; [done|].
  rewrite Hres. symmetry. apply take_S_r.
  rewrite lookup_zip_with, Hw. simpl.
  unfold originalTexts. rewrite list_lookup_imap, Ho. done.
Qed.

Lemma alignWalk_exact :
  alignWalk toLowerCase whisperWords originalWords
  = zip_with timed whisperWords (originalTexts originalWords).
Proof.
  unfold alignWalk.
  destruct (alignLoop_invariant toLowerCase whisperWords originalWords
              exactInvariant exactInvariant_step
              {| wi := 0; oi := 0; result := [] |}) as [[_ Hres] Hend]; [done|].
  rewrite Hres. apply take_ge. apply lookup_ge_None in Hend.
  rewrite length_zip_with. unfold originalTexts. rewrite length_imap. lia.
Qed.

End Exact.

Lemma interpolate_known (T : Q) (r : list WordTimestamp) :
  Forall (fun t => isGap t = false) r -> interpolate T r = r.
Proof.
  intros Hr. unfold interpolate.
  apply (interpolate_loop_preserves (fun r' => r' = r)); [|done].
  intros r' i ->. apply interpolateAt_known.
  intros k Hk. exact (Forall_lookup_1 _ _ _ _ Hr Hk).
Qed.

(** X15. When the transcription heard the words of the script one for one,
    each whisper word matching the original word at its position, and no
    whisper word starts at [-1], [alignWhisperToOriginal] gives every
    original word the start and the end of the whisper word at its
    position. *)
Theorem alignWhisperToOriginal_exact (toLowerCase : jsstring -> jsstring)
  (whisperWords : list WordTimestamp) (originalWords : list jsstring) :
  length originalWords <= length whisperWords ->
  (forall i o w,
      originalWords !! i = Some o -> whisperWords !! i = Some w ->
      sameWord (baseOf toLowerCase o) (baseOf toLowerCase (word w)) = true) ->
  Forall (fun w => ~ (start w == -1)%Q) whisperWords ->
  alignWhisperToOriginal toLowerCase whisperWords originalWords
  = zip_with (fun w text => mkWord text (start w) (end_ w))
      whisperWords (originalTexts originalWords).
Proof.
  intros Hlen Hsame Hknown. unfold alignWhisperToOriginal.
  destruct (_ || _) eqn:Hempty.
  - assert (originalWords = []) as ->; [|by destruct whisperWords].
    apply orb_true_iff in Hempty as [H%Nat.eqb_eq|H%Nat.eqb_eq];
      apply nil_length_inv; lia.
  - rewrite alignWalk_exact by done.
    apply interpolate_known.
    apply Forall_forall. intros t Ht.
    apply elem_of_lookup_zip_with in Ht as (i & w & text & -> & Hw & _).
    unfold isGap. simpl. apply isMinusOne_false.
    by eapply (Forall_lookup_1 _ _ _ _ Hknown).
Qed.

Lemma alignWhisperToOriginal_exact_witness :
  alignWhisperToOriginal toLowerCaseRu
    [mkWord Privet 0 1; mkWord kak 1 2; mkWord dela 2 3] [privet; kak; dela]
  = zip_with (fun w text => mkWord text (start w) (end_ w))
      [mkWord Privet 0 1; mkWord kak 1 2; mkWord dela 2 3]
      (originalTexts [privet; kak; dela]).
Proof.
  apply (alignWhisperToOriginal_exact toLowerCaseRu
           [mkWord Privet 0 1; mkWord kak 1 2; mkWord dela 2 3]
           [privet; kak; dela]).
  - simpl. lia.
  - intros [|[|[|i]]] o w; simpl; try discriminate;
      intros [= <-] [= <-]; vm_compute; reflexivity.
  - repeat constructor; vm_compute; discriminate.
Defined.

(** ** The order of the aligned words *)

Lemma ordered_chain (hi : Q) (r : list WordTimestamp) : forall lo,
  Forall (fun t => isGap t = false) r -> ordered hi lo r ->
  Forall (fun t => (lo <= start t /\ start t <= end_ t /\ end_ t <= hi)%Q) r
  /\ forall i t t', r !! i = Some t -> r !! S i = Some t' -> (end_ t <= start t')%Q.
Proof.
  induction r as [|t r IH]; intros lo Hknown; [by split|].
  apply Forall_cons in Hknown as [Ht Hknown]. simpl. rewrite Ht.
  intros (Hlo & Hte & Hord).
  destruct (IH (end_ t) Hknown Hord) as [Hall Hnext].
  pose proof (ordered_bounds _ _ _ Hord) as Hhi.
  split.
  - constructor; [done|].
    eapply Forall_impl; [exact Hall|]. intros t' (? & ? & ?).
    split; [lra | done].
  - intros [|i] t1 t2; simpl.
    + intros [= <-] H2. by destruct (Forall_lookup_1 _ _ _ _ Hall H2).
    + apply Hnext.
Qed.

(** X16. When every whisper word starts at or after [0] and ends at or after
    its start, and each starts at or after the end of the one before, the
    words returned by [alignWhisperToOriginal] are in the order of time:
    each starts at or after the end of the word before it, none starts
    before [0] and none ends after the last whisper word. *)
Theorem alignWhisperToOriginal_chronological (toLowerCase : jsstring -> jsstring)
  (whisperWords : list WordTimestamp) (originalWords : list jsstring) :
  Forall (fun w => (0 <= start w)%Q /\ (start w <= end_ w)%Q) whisperWords ->
  chronological whisperWords ->
  let out := alignWhisperToOriginal toLowerCase whisperWords originalWords in
  Forall (fun t => (0 <= start t)%Q /\ (end_ t <= lastEnd whisperWords)%Q) out
  /\ forall i t t', out !! i = Some t -> out !! S i = Some t' ->
       (end_ t <= start t')%Q.
Proof.
  intros Htimes Horder. cbv zeta. unfold alignWhisperToOriginal.
  destruct (_ || _) eqn:Hempty.
  - assert (whisperWords = [] \/ originalWords = []) as [-> | ->].
    { apply orb_true_iff in Hempty as [H%Nat.eqb_eq|H%Nat.eqb_eq];
        [left | right]; by apply nil_length_inv. }
    + split.
      * apply Forall_lookup. intros i t. rewrite list_lookup_imap.
        destruct (originalWords !! i); intros [= <-]. simpl.
        unfold lastEnd. simpl. lra.
      * intros i t t'. rewrite !list_lookup_imap.
        destruct (originalWords !! i); intros [= <-].
        destruct (originalWords !! S i); intros [= <-]. simpl. lra.
    + by split.
  - assert (whisperWords <> []) as Hne.
    { intros ->. done. }
    pose proof (alignWalk_ordered toLowerCase whisperWords originalWords
                  Htimes Horder Hne) as Hord.
    set (T := lastEnd whisperWords) in *.
    set (r := alignWalk toLowerCase whisperWords originalWords) in *.
    pose proof (ordered_bounds _ _ _ Hord) as HT.
    assert (Forall nonNegative (interpolate T r)) as Hnn.
    { apply interpolate_nonNegative; [done|].
      eapply ordered_flagged; [|done]. lra. }
    assert (ordered T 0 (interpolate T r)) as Hout
      by by apply interpolate_loop_ordered.
    destruct (ordered_chain T (interpolate T r) 0) as [Hall Hnext]; [|done|].
    { eapply Forall_impl; [exact Hnn|]. apply nonNegative_known. }
    split; [|done].
    eapply Forall_impl; [exact Hall|]. by intros t (? & ? & ?).
Qed.

Lemma alignWhisperToOriginal_chronological_witness :
  let out := alignWhisperToOriginal toLowerCaseRu heardAD scriptABCD in
  Forall (fun t => (0 <= start t)%Q /\ (end_ t <= lastEnd heardAD)%Q) out
  /\ forall i t t', out !! i = Some t -> out !! S i = Some t' ->
       (end_ t <= start t')%Q.
Proof.
  apply (alignWhisperToOriginal_chronological toLowerCaseRu heardAD scriptABCD).
  - repeat constructor; by vm_compute.
  - intros [|[|i]] w w' Hw Hw'; simplify_eq/=. by vm_compute.
Defined.

(** ** The matching made by [alignWhisperToOriginal] *)

Lemma isFuzzyMatch_sym (x y : jsstring) : isFuzzyMatch x y = isFuzzyMatch y x.
Proof.
  unfold isFuzzyMatch.
  rewrite !editDistance_levenshtein, (levenshtein_sym x y).
  by rewrite (Nat.max_comm (length x)), (orb_comm (length x <? 4)).
Qed.

Lemma sameWord_sym (x y : jsstring) : sameWord x y = sameWord y x.
Proof.
  unfold sameWord. rewrite isFuzzyMatch_sym. f_equal.
  apply bool_decide_ext. split; by intros ->.
Qed.

Section Extend.

Context {A : Type}.
Variable source : list A.
Variable rel : nat -> A -> option nat -> WordTimestamp -> Prop.

Local Abbreviation matching := (matching source rel).

Lemma matching_nil bound : matching [] bound 0 [].
Proof.
  split; [done|]. split; [done|]. split; [lia|]. split; [done|].
  split; [done|]. intros i x _ Hi. lia.
Qed.

(** The words [r2], pushed for the matching [ms2] of the next elements,
    extend a matching. *)
Lemma matching_extend ms bound n r ms2 r2 bound' :
  matching ms bound n r ->
  length ms2 = length r2 -> n + length r2 <= length source ->
  bound <= bound' ->
  (forall j k, ms2 !! j = Some (Some k) -> bound <= k < bound' /\ length ms2 = 1) ->
  (forall j x, source !! (n + j) = Some x -> j < length r2 ->
     exists m t, ms2 !! j = Some m /\ r2 !! j = Some t /\ rel (n + j) x m t) ->
  matching (ms ++ ms2) bound' (n + length r2) (r ++ r2).
Proof.
  intros (Hms & Hr & Hle & Hinc & Hbound & Hplaced) Hlen Hle2 Hwi Hnew Hplaced2.
  split; [rewrite length_app; lia|]. split; [rewrite length_app; lia|].
  split; [done|]. split; [|split].
  - intros i j k k' Hij Hi Hj.
    destruct (decide (j < length ms)) as [Hjl|Hjl].
    + rewrite lookup_app_l in Hi, Hj by lia. exact (Hinc i j k k' Hij Hi Hj).
    + rewrite lookup_app_r in Hj by lia.
      destruct (Hnew _ _ Hj) as [Hk' Hone].
      destruct (decide (i < length ms)) as [Hil|Hil].
      * rewrite lookup_app_l in Hi by lia. specialize (Hbound _ _ Hi). lia.
      * rewrite lookup_app_r in Hi by lia.
        apply lookup_lt_Some in Hi, Hj. lia.
  - intros i k Hi.
    destruct (decide (i < length ms)) as [Hil|Hil].
    + rewrite lookup_app_l in Hi by lia. specialize (Hbound _ _ Hi). lia.
    + rewrite lookup_app_r in Hi by lia. destruct (Hnew _ _ Hi). lia.
  - intros i x Hx Hi.
    destruct (decide (i < n)) as [Hil|Hil].
    + rewrite !lookup_app_l by lia. by apply Hplaced.
    + rewrite !lookup_app_r by lia. rewrite Hms, Hr.
      destruct (Hplaced2 (i - n) x) as (m & t & ? & ? & Hp); [|lia|].
      { by replace (n + (i - n)) with i by lia. }
      exists m, t. split; [done|]. split; [done|].
      by replace (n + (i - n)) with i in Hp by lia.
Qed.

(** One word [t], pushed for the element [x] of position [n]. *)
Lemma matching_push ms bound n r x m t bound' :
  source !! n = Some x ->
  matching ms bound n r ->
  bound <= bound' -> (forall k, m = Some k -> bound <= k < bound') ->
  rel n x m t ->
  matching (ms ++ [m]) bound' (S n) (r ++ [t]).
Proof.
  intros Hx Hs Hwi Hm Hp. apply lookup_lt_Some in Hx as Hlt.
  replace (S n) with (n + length [t]) by (simpl; lia).
  apply (matching_extend ms bound); try done.
  - simpl. lia.
  - intros [|j] k; simpl; [|done]. intros [= ->]. split; [by apply Hm | done].
  - intros [|j] y; simpl; [|lia]. rewrite Nat.add_0_r, Hx. intros [= <-] _.
    by exists m, t.
Qed.

(** Words pushed for the next [d] elements without a match. *)
Lemma matching_skip ms bound n r r2 :
  matching ms bound n r ->
  n + length r2 <= length source ->
  (forall j x, source !! (n + j) = Some x -> j < length r2 ->
     exists t, r2 !! j = Some t /\ rel (n + j) x None t) ->
  matching (ms ++ replicate (length r2) None) bound (n + length r2) (r ++ r2).
Proof.
  intros Hs Hle Hrel. apply (matching_extend ms bound); try done.
  - by rewrite length_replicate.
  - intros j k [Hk _]%lookup_replicate. done.
  - intros j x Hx Hj. destruct (Hrel j x Hx Hj) as (t & Ht & Hp).
    exists None, t. split; [by apply lookup_replicate | done].
Qed.

End Extend.

Section Matching.

Variable toLowerCase : jsstring -> jsstring.
Variable whisperWords : list WordTimestamp.
Variable originalWords : list jsstring.

Local Abbreviation base := (baseOf toLowerCase).
Local Abbreviation step := (alignStep toLowerCase whisperWords originalWords).
Local Abbreviation placed := (placed toLowerCase whisperWords).

Local Abbreviation matched := (fun s : AlignState =>
  exists ms, matching originalWords placed ms (wi s) (oi s) (result s)).

Lemma matched_step s origWord :
  originalWords !! oi s = Some origWord -> matched s -> matched (step s origWord).
Proof.
  intros Ho [ms Hs]. unfold alignStep.
  destruct (whisperWords !! wi s) as [w|] eqn:Hw.
  2: { exists (ms ++ [None]). cbn [wi oi result].
       by apply (matching_push originalWords placed ms (wi s) (oi s) _ origWord None). }
  destruct (sameWord (base origWord) (base (word w))) eqn:Hsame.
  { exists (ms ++ [Some (wi s)]). cbn [wi oi result].
    apply (matching_push originalWords placed ms (wi s) (oi s) _ origWord
             (Some (wi s))); try done; [lia| |].
    - intros k [= <-]. lia.
    - by exists w. }
  destruct (lookaheadWhisper _ _ _ _ _) as [[la lw]|] eqn:Hla.
  { apply lookaheadWhisper_Some in Hla as (_ & Hlw & Hmatch).
    exists (ms ++ [Some (wi s + la)]). cbn [wi oi result].
    apply (matching_push originalWords placed ms (wi s) (oi s) _ origWord
             (Some (wi s + la))); try done; [lia| |].
    - intros k [= <-]. lia.
    - exists lw. by rewrite sameWord_sym. }
  destruct (lookaheadOriginal _ _ _ _ _) as [la|] eqn:Hla'.
  - apply lookaheadOriginal_Some in Hla' as (_ & w' & Hw'%lookup_lt_Some & _).
    assert (length (skippedOriginals originalWords (oi s) la) = la) as Hlen
      by (unfold skippedOriginals; by rewrite length_fmap, length_seq).
    exists (ms ++ replicate la None). cbn [wi oi result].
    pose proof (matching_skip originalWords placed ms (wi s) (oi s) (result s)
                  (skippedOriginals originalWords (oi s) la) Hs) as Hext.
    rewrite Hlen in Hext. apply Hext; [lia|].
    intros j o Hj Hlt. eexists. split; [|done].
    unfold skippedOriginals. rewrite list_lookup_fmap, lookup_seq_lt by done.
    simpl. by rewrite Hj.
  - exists (ms ++ [None]). cbn [wi oi result].
    by apply (matching_push originalWords placed ms (wi s) (oi s) _ origWord None).
Qed.

Lemma alignWalk_matched :
  exists ms wi0,
    matching originalWords placed ms wi0 (length originalWords)
      (alignWalk toLowerCase whisperWords originalWords).
Proof.
  unfold alignWalk.
  destruct (alignLoop_invariant toLowerCase whisperWords originalWords
              matched matched_step {| wi := 0; oi := 0; result := [] |})
    as [[ms Hms] Hend].
  - exists []. apply matching_nil.
  - set (s := alignLoop toLowerCase whisperWords originalWords _) in *.
    exists ms, (wi s).
    apply lookup_ge_None in Hend.
    pose proof Hms as (_ & _ & Hle & _).
    assert (oi s = length originalWords) as Hoi by lia.
    by rewrite <- Hoi.
Qed.

End Matching.

(** X17. The walk of [alignWhisperToOriginal] matches the original words to
    whisper words in order. Every original word is pushed either under the
    start and the end of one whisper word whose text matches it (equal
    bases, or a fuzzy match), or with [-1] for the interpolation; a later
    original word is never placed on the same or an earlier whisper word;
    and a word placed on a whisper word that does not start at [-1] is
    returned under the start and the end of that whisper word. *)
Theorem alignWhisperToOriginal_matching (toLowerCase : jsstring -> jsstring)
  (whisperWords : list WordTimestamp) (originalWords : list jsstring) :
  exists ms,
    length ms = length originalWords
    /\ increasing ms
    /\ forall i o,
         originalWords !! i = Some o ->
         exists m t,
           ms !! i = Some m
           /\ alignWalk toLowerCase whisperWords originalWords !! i = Some t
           /\ placed toLowerCase whisperWords i o m t
           /\ (whisperWords <> [] -> ~ (start t == -1)%Q ->
               alignWhisperToOriginal toLowerCase whisperWords originalWords !! i
               = Some t).
Proof.
  destruct (alignWalk_matched toLowerCase whisperWords originalWords)
    as (ms & wi0 & Hlen & _ & _ & Hinc & _ & Hplaced).
  exists ms. split; [done|]. split; [done|].
  intros i o Ho. apply lookup_lt_Some in Ho as Hlt.
  destruct (Hplaced i o Ho Hlt) as (m & t & Hm & Ht & Hp).
  exists m, t. split; [done|]. split; [done|]. split; [done|].
  intros Hne Hknown. unfold alignWhisperToOriginal.
  destruct (Nat.eqb_spec (length whisperWords) 0) as [Hz%nil_length_inv|_]; [done|].
  destruct (Nat.eqb_spec (length originalWords) 0) as [Hz|_]; [lia|]. simpl.
  apply interpolate_keeps_known; [done|]. by apply isMinusOne_false.
Qed.

(** ** [addPunctuation]: the batches and the segments *)

Section Prepend.

Variable toLowerCase : jsstring -> jsstring.
Variable batchWords : list WordTimestamp.
Variable punctuatedBatch : list jsstring.

Local Abbreviation pstep :=
  (Transcription.punctStep toLowerCase batchWords punctuatedBatch).
Local Abbreviation ploop :=
  (Transcription.punctLoop toLowerCase batchWords punctuatedBatch).
Local Abbreviation oi := Transcription.oi.
Local Abbreviation pi := Transcription.pi.
Local Abbreviation matched := Transcription.matched.
Local Abbreviation punctuatedWords := Transcription.punctuatedWords.

(** The state [s] of a walk started on the words [pushed]. *)
Local Abbreviation prepend pushed s :=
  (Transcription.mkPunct (oi s) (pi s) (matched s) (pushed ++ punctuatedWords s)).

Lemma punctStep_prepend pushed s original :
  pstep (prepend pushed s) original = prepend pushed (pstep s original).
Proof.
  unfold Transcription.punctStep.
  cbn [Transcription.oi Transcription.pi Transcription.matched
       Transcription.punctuatedWords].
  repeat case_match;
    cbn [Transcription.oi Transcription.pi Transcription.matched
         Transcription.punctuatedWords];
    by rewrite app_assoc.
Qed.

Lemma punctLoop_prepend pushed s :
  ploop (prepend pushed s) = prepend pushed (ploop s).
Proof.
  remember (length batchWords - oi s) as n eqn:Hn.
  revert s Hn. induction n as [n IH] using lt_wf_ind. intros s Hn.
  rewrite (punctLoop_unfold _ _ _ s), punctLoop_unfold. cbn [Transcription.oi].
  destruct (batchWords !! oi s) as [w|] eqn:Hw; [|done].
  pose proof (punctStep_oi toLowerCase batchWords punctuatedBatch s w Hw).
  rewrite punctStep_prepend.
  apply (IH (length batchWords - oi (pstep s w))); [lia | done].
Qed.

(** The walk of a batch does not read the words pushed before it. *)
Lemma alignBatch_pushed pushed :
  punctuatedWords
    (Transcription.alignBatch toLowerCase batchWords punctuatedBatch pushed)
  = pushed
    ++ punctuatedWords
         (Transcription.alignBatch toLowerCase batchWords punctuatedBatch []).
Proof.
  unfold Transcription.alignBatch.
  pose proof (punctLoop_prepend pushed (Transcription.mkPunct 0 0 0 [])) as H.
  cbn [Transcription.oi Transcription.pi Transcription.matched
       Transcription.punctuatedWords] in H.
  rewrite app_nil_r in H. by rewrite H.
Qed.

End Prepend.

Section Blocks.

Variable toLowerCase : jsstring -> jsstring.
Variable service : nat -> list WordTimestamp -> option (list jsstring).
Variable words : list WordTimestamp.

Local Abbreviation bloop := (Transcription.batchLoop toLowerCase service words).
Local Abbreviation block :=
  (Transcription.punctuatedBatchWords toLowerCase service words).
Local Abbreviation BATCH_SIZE := Transcription.BATCH_SIZE.
Local Abbreviation keptOrReplaced := Transcription.keptOrReplaced.

Lemma block_keeps i :
  Forall2 keptOrReplaced (take BATCH_SIZE (drop i words)) (block i).
Proof.
  unfold Transcription.punctuatedBatchWords. cbv zeta.
  destruct (service i _) as [punctuatedBatch|]; [|apply keptOrReplaced_refl].
  destruct (alignBatch_outcomes toLowerCase (take BATCH_SIZE (drop i words))
              punctuatedBatch []) as (outs & -> & Houts).
  eapply Forall2_impl; [exact Houts | apply outcome_keptOrReplaced].
Qed.

Lemma block_length i :
  length (block i) = Nat.min BATCH_SIZE (length words - i).
Proof.
  rewrite <- (Forall2_length _ _ _ (block_keeps i)).
  by rewrite length_take, length_drop.
Qed.

Lemma batchLoop_step i acc :
  i < length words -> bloop i acc = bloop (i + BATCH_SIZE) (acc ++ block i).
Proof.
  intros Hi. rewrite batchLoop_unfold.
  destruct (Nat.ltb_spec i (length words)) as [_|]; [|lia].
  cbv zeta. f_equal. unfold Transcription.punctuatedBatchWords. cbv zeta.
  destruct (service i _) as [punctuatedBatch|]; [|done].
  apply alignBatch_pushed.
Qed.

Lemma batchLoop_blocks : forall n i acc,
  n = length words - i -> length acc = Nat.min i (length words) ->
  take (length acc) (bloop i acc) = acc
  /\ length (bloop i acc) = length words
  /\ forall k,
       take BATCH_SIZE (drop (i + BATCH_SIZE * k) (bloop i acc))
       = block (i + BATCH_SIZE * k).
Proof.
  induction n as [n IH] using lt_wf_ind. intros i acc Hn Hacc.
  destruct (Nat.lt_ge_cases i (length words)) as [Hi|Hi].
  - rewrite batchLoop_step by done.
    pose proof (block_length i) as Hb.
    destruct (IH (length words - (i + BATCH_SIZE)) ltac:(unfold Transcription.BATCH_SIZE; lia)
                (i + BATCH_SIZE) (acc ++ block i) eq_refl) as (Htake & Hlen & Hblocks).
    { rewrite length_app, Hacc, Hb. lia. }
    set (out := bloop (i + BATCH_SIZE) (acc ++ block i)) in *.
    assert (out = (acc ++ block i) ++ drop (length acc + length (block i)) out) as Hout.
    { rewrite <- Htake at 1. rewrite length_app. by rewrite take_drop. }
    split; [|split; [done|]].
    + rewrite Hout, <- app_assoc. by rewrite take_app_length.
    + intros [|k].
      * rewrite Nat.mul_0_r, Nat.add_0_r.
        rewrite Hout, <- app_assoc.
        replace i with (length acc) at 1 by lia.
        rewrite drop_app_length.
        destruct (decide (length (block i) = BATCH_SIZE)) as [Hfull|Hpart].
        -- rewrite <- Hfull at 1. by rewrite take_app_length.
        -- rewrite (drop_ge out) by lia. rewrite app_nil_r. apply take_ge. lia.
      * replace (i + BATCH_SIZE * S k) with (i + BATCH_SIZE + BATCH_SIZE * k) by lia.
        apply Hblocks.
  - rewrite batchLoop_unfold.
    destruct (Nat.ltb_spec i (length words)) as [|_]; [lia|].
    split; [by rewrite take_ge|]. split; [lia|].
    intros k. rewrite drop_ge by lia. rewrite take_nil.
    symmetry. apply nil_length_inv. rewrite block_length. lia.
Qed.

Lemma batchLoop_all_fail : forall n i,
  (forall j batch, service j batch = None) ->
  n = length words - i -> bloop i (take i words) = words.
Proof.
  intros n i Hfail. revert i.
  induction n as [n IH] using lt_wf_ind. intros i Hn.
  rewrite batchLoop_unfold.
  destruct (Nat.ltb_spec i (length words)) as [Hi|Hi]; cbv zeta.
  - rewrite Hfail, take_take_drop.
    apply (IH (length words - (i + BATCH_SIZE))); [unfold Transcription.BATCH_SIZE; lia | done].
  - by rewrite take_ge.
Qed.

End Blocks.

(** X18. [addPunctuation] treats the batches of 500 words apart from one
    another: the words [500 k .. 500 k + 499] it returns are the outcome of
    the walk of the batch [k] alone, over the answer of the service to this
    batch; and they are the words of the transcript when the request for
    this batch fails. *)
Theorem addPunctuation_batches (toLowerCase : jsstring -> jsstring)
  (service : nat -> list WordTimestamp -> option (list jsstring))
  (words : list WordTimestamp) (k : nat) :
  let out := Transcription.addPunctuation toLowerCase service words true in
  let i := Transcription.BATCH_SIZE * k in
  let batchWords := take Transcription.BATCH_SIZE (drop i words) in
  take Transcription.BATCH_SIZE (drop i out)
  = Transcription.punctuatedBatchWords toLowerCase service words i
  /\ (forall punctuatedBatch,
        service i batchWords = Some punctuatedBatch ->
        take Transcription.BATCH_SIZE (drop i out)
        = Transcription.punctuatedWords
            (Transcription.alignBatch toLowerCase batchWords punctuatedBatch []))
  /\ (service i batchWords = None ->
      take Transcription.BATCH_SIZE (drop i out) = batchWords).
Proof.
  cbv zeta.
  assert (take Transcription.BATCH_SIZE
            (drop (Transcription.BATCH_SIZE * k)
               (Transcription.addPunctuation toLowerCase service words true))
          = Transcription.punctuatedBatchWords toLowerCase service words
              (Transcription.BATCH_SIZE * k)) as H.
  { unfold Transcription.addPunctuation. simpl negb. rewrite orb_false_l.
    destruct (Nat.eqb_spec (length words) 0) as [Hz|Hz].
    - apply nil_length_inv in Hz. subst words.
      unfold Transcription.punctuatedBatchWords. cbv zeta.
      rewrite drop_nil, take_nil.
      destruct (service _ []) as [punctuatedBatch|]; [|done].
      by destruct (alignBatch_outcomes toLowerCase [] punctuatedBatch [])
        as (outs & -> & ->%Forall2_nil_inv_l).
    - destruct (batchLoop_blocks toLowerCase service words _ 0 [] eq_refl)
        as (_ & _ & Hblocks); [simpl; lia|].
      apply (Hblocks k). }
  split; [done|]. rewrite H. unfold Transcription.punctuatedBatchWords. cbv zeta.
  split.
  - by intros punctuatedBatch ->.
  - by intros ->.
Qed.

(** X19. When every request to the correction service fails,
    [addPunctuation] returns the words of the transcript as they are. *)
Theorem addPunctuation_all_requests_fail (toLowerCase : jsstring -> jsstring)
  (service : nat -> list WordTimestamp -> option (list jsstring))
  (words : list WordTimestamp) (apiKey : bool) :
  (forall i batchWords, service i batchWords = None) ->
  Transcription.addPunctuation toLowerCase service words apiKey = words.
Proof.
  intros Hfail. unfold Transcription.addPunctuation. case_match; [done|].
  apply (batchLoop_all_fail toLowerCase service words _ 0 Hfail eq_refl).
Qed.

Lemma addPunctuation_all_requests_fail_witness :
  Transcription.addPunctuation toLowerCaseRu (fun _ _ => None) greeting true
  = greeting.
Proof.
  apply (addPunctuation_all_requests_fail toLowerCaseRu (fun _ _ => None)
           greeting true).
  reflexivity.
Defined.

Section PunctMatching.

Variable toLowerCase : jsstring -> jsstring.
Variable batchWords : list WordTimestamp.
Variable punctuatedBatch : list jsstring.

Local Abbreviation base := (baseOf toLowerCase).
Local Abbreviation pstep :=
  (Transcription.punctStep toLowerCase batchWords punctuatedBatch).
Local Abbreviation oi := Transcription.oi.
Local Abbreviation pi := Transcription.pi.
Local Abbreviation matched := Transcription.matched.
Local Abbreviation punctuatedWords := Transcription.punctuatedWords.
Local Abbreviation placedToken := (fun (i : nat) =>
  Transcription.placedToken toLowerCase punctuatedBatch).

(** The tokens used so far, in their order, and their number. *)
Local Abbreviation tokensUsed := (fun s : Transcription.PunctState =>
  exists ms,
    matching batchWords placedToken ms (pi s) (oi s) (punctuatedWords s)
    /\ matched s = length (omap id ms)).

Lemma omap_replicate_None n : omap id (replicate n (@None nat)) = [].
Proof. induction n as [|n IH]; [done|]. simpl. apply IH. Qed.

Lemma keptOriginals_lookup oi0 la j :
  j < la ->
  Transcription.keptOriginals batchWords oi0 la !! j = batchWords !! (oi0 + j).
Proof.
  intros Hj. unfold Transcription.keptOriginals.
  by rewrite lookup_take_lt, lookup_drop.
Qed.

Lemma tokensUsed_step s original :
  batchWords !! oi s = Some original -> tokensUsed s -> tokensUsed (pstep s original).
Proof.
  intros Ho (ms & Hs & Hcount). unfold Transcription.punctStep.
  destruct (punctuatedBatch !! pi s) as [p|] eqn:Hp.
  2: { exists (ms ++ [None]).
       cbn [Transcription.oi Transcription.pi Transcription.matched
            Transcription.punctuatedWords].
       split; [|by rewrite omap_app, length_app, Nat.add_0_r].
       by apply (matching_push batchWords placedToken ms (pi s) (oi s) _
                   original None). }
  destruct (sameWord (base (word original)) (base p)) eqn:Hsame.
  { exists (ms ++ [Some (pi s)]).
    cbn [Transcription.oi Transcription.pi Transcription.matched
         Transcription.punctuatedWords].
    split; [|rewrite omap_app, length_app; simpl; lia].
    apply (matching_push batchWords placedToken ms (pi s) (oi s) _ original
             (Some (pi s))); try done; [lia| |].
    - intros k [= <-]. lia.
    - by exists p. }
  destruct (Transcription.lookaheadPunctuated _ _ _ _ _) as [[la p']|] eqn:Hla.
  { apply lookaheadPunctuated_Some in Hla as (_ & Hp' & Hmatch).
    exists (ms ++ [Some (pi s + la)]).
    cbn [Transcription.oi Transcription.pi Transcription.matched
         Transcription.punctuatedWords].
    split; [|rewrite omap_app, length_app; simpl; lia].
    apply (matching_push batchWords placedToken ms (pi s) (oi s) _ original
             (Some (pi s + la))); try done; [lia| |].
    - intros k [= <-]. lia.
    - exists p'. by rewrite sameWord_sym. }
  destruct (Transcription.lookaheadBatch _ _ _ _ _) as [la|] eqn:Hla'.
  - apply lookaheadBatch_Some in Hla' as (_ & w' & Hw'%lookup_lt_Some & _).
    assert (length (Transcription.keptOriginals batchWords (oi s) la) = la) as Hlen.
    { unfold Transcription.keptOriginals. rewrite length_take, length_drop. lia. }
    exists (ms ++ replicate la None).
    cbn [Transcription.oi Transcription.pi Transcription.matched
         Transcription.punctuatedWords].
    split; [|by rewrite omap_app, omap_replicate_None, app_nil_r].
    pose proof (matching_skip batchWords placedToken ms (pi s) (oi s)
                  (punctuatedWords s)
                  (Transcription.keptOriginals batchWords (oi s) la) Hs) as Hext.
    rewrite Hlen in Hext. apply Hext; [lia|].
    intros j x Hj Hlt. exists x. by rewrite keptOriginals_lookup.
  - exists (ms ++ [None]).
    cbn [Transcription.oi Transcription.pi Transcription.matched
         Transcription.punctuatedWords].
    split; [|by rewrite omap_app, length_app, Nat.add_0_r].
    by apply (matching_push batchWords placedToken ms (pi s) (oi s) _
                original None).
Qed.

Lemma alignBatch_tokensUsed :
  let s := Transcription.alignBatch toLowerCase batchWords punctuatedBatch [] in
  exists ms bound,
    matching batchWords placedToken ms bound (length batchWords) (punctuatedWords s)
    /\ matched s = length (omap id ms).
Proof.
  cbv zeta. unfold Transcription.alignBatch.
  destruct (punctLoop_invariant toLowerCase batchWords punctuatedBatch
              tokensUsed tokensUsed_step (Transcription.mkPunct 0 0 0 []))
    as [(ms & Hms & Hcount) Hend].
  - exists []. split; [apply matching_nil | done].
  - set (s := Transcription.punctLoop toLowerCase batchWords punctuatedBatch _) in *.
    exists ms, (pi s). split; [|done].
    apply lookup_ge_None in Hend.
    pose proof Hms as (_ & _ & Hle & _).
    assert (oi s = length batchWords) as Hoi by lia.
    by rewrite <- Hoi.
Qed.

End PunctMatching.

(** X20. The walk of a batch of [addPunctuation] uses the tokens of the
    answer in their order. Every word of the batch is pushed either under
    the text of one token that matches it (equal bases, or a fuzzy match),
    after its own leading white space and with its own times, or as it is;
    a later word is never placed on the same or an earlier token; and the
    counter [matched] is the number of words placed on a token. *)
Theorem addPunctuation_matching (toLowerCase : jsstring -> jsstring)
  (batchWords : list WordTimestamp) (punctuatedBatch : list jsstring) :
  let s := Transcription.alignBatch toLowerCase batchWords punctuatedBatch [] in
  exists ms,
    length ms = length batchWords
    /\ increasing ms
    /\ Transcription.matched s = length (omap id ms)
    /\ forall i original,
         batchWords !! i = Some original ->
         exists m out,
           ms !! i = Some m
           /\ Transcription.punctuatedWords s !! i = Some out
           /\ Transcription.placedToken toLowerCase punctuatedBatch original m out.
Proof.
  cbv zeta.
  destruct (alignBatch_tokensUsed toLowerCase batchWords punctuatedBatch)
    as (ms & bound & (Hlen & _ & _ & Hinc & _ & Hplaced) & Hcount).
  exists ms. split; [done|]. split; [done|]. split; [done|].
  intros i original Ho. apply lookup_lt_Some in Ho as Hlt.
  by apply Hplaced.
Qed.

Section RebuiltSegments.

Local Abbreviation keptOrReplaced := Transcription.keptOrReplaced.
Local Abbreviation inSegment := Transcription.inSegment.

Lemma keptOrReplaced_inSegment segment original out :
  keptOrReplaced original out ->
  inSegment segment out = inSegment segment original.
Proof. by intros [->|[p ->]]. Qed.

Lemma filter_inSegment_nil segment (words out : list WordTimestamp) :
  Forall2 keptOrReplaced words out ->
  (forall w, w ∈ words -> inSegment segment w = false) ->
  List.filter (inSegment segment) out = [].
Proof.
  induction 1 as [|w o words out Hw _ IH]; intros Hnone; [done|]. simpl.
  rewrite (keptOrReplaced_inSegment segment w o Hw), (Hnone w) by left.
  apply IH. intros w' Hw'. apply Hnone. by right.
Qed.

End RebuiltSegments.

(** X21. [addPunctuation] returns as many segments as the transcript has,
    each with the start and the end it had. A segment that holds no word of
    the transcript (no word that starts at or after its start and ends at or
    before its end) comes back as it is, and the text of a segment is never
    replaced by an empty one. *)
Theorem addPunctuation_segments (toLowerCase : jsstring -> jsstring)
  (service : nat -> list WordTimestamp -> option (list jsstring))
  (apiKey : bool) (transcript : Transcript.t) :
  let t := Transcription.addPunctuationTranscript toLowerCase service apiKey
             transcript in
  length (Transcript.segments t) = length (Transcript.segments transcript)
  /\ forall k segment,
       Transcript.segments transcript !! k = Some segment ->
       exists segment',
         Transcript.segments t !! k = Some segment'
         /\ Segment.start segment' = Segment.start segment
         /\ Segment.end_ segment' = Segment.end_ segment
         /\ ((forall w, w ∈ Transcript.words transcript ->
                Transcription.inSegment segment w = false) ->
             segment' = segment)
         /\ (Segment.text segment' = [] -> Segment.text segment = []).
Proof.
  cbv zeta. unfold Transcription.addPunctuationTranscript.
  destruct (negb apiKey || _) eqn:Hearly.
  - split; [done|]. intros k segment Hk. exists segment. by repeat split.
  - cbn [Transcript.segments]. split; [apply length_fmap|].
    intros k segment Hk. eexists. rewrite list_lookup_fmap, Hk.
    split; [done|]. split; [done|]. split; [done|].
    unfold Transcription.punctuatedSegment. cbv zeta. cbn [Segment.text].
    split.
    + intros Hnone.
      rewrite (filter_inSegment_nil segment (Transcript.words transcript)); [|  |done].
      * simpl. by destruct segment.
      * pose proof (addPunctuation_keeps toLowerCase service
                      (Transcript.words transcript) apiKey) as H.
        unfold Transcription.addPunctuation in H. by rewrite Hearly in H.
    + destruct (Nat.eqb_spec (length (trim (join [] (word <$> List.filter
                  (Transcription.inSegment segment)
                  (Transcription.batchLoop toLowerCase service
                     (Transcript.words transcript) 0 []))))) 0) as [_|Hne];
        [done|].
      intros Hnil. by rewrite Hnil in Hne.
Qed.

(** ** [lemmatizeWords] *)

Section Lemmas.

Import Transcription.Lemmatize.

Variable toLowerCase : jsstring -> jsstring.
Variable service : nat -> list jsstring -> option (list (jsstring * option jsstring)).
Variable words : list LemmaWord.

Local Abbreviation normalized := (normalizedOf toLowerCase).
Local Abbreviation add := (addWord toLowerCase).
Local Abbreviation unique := (uniqueWords toLowerCase words).
Local Abbreviation lloop := (lemmaLoop toLowerCase service words).
Local Abbreviation set := (setLemma toLowerCase).

Lemma addWord_spec wordSet w :
  NoDup wordSet ->
  NoDup (add wordSet w)
  /\ (forall x, x ∈ add wordSet w
                <-> x ∈ wordSet \/ (x <> [] /\ normalized w = x))
  /\ exists new, add wordSet w = wordSet ++ new /\ sublist new [normalized w].
Proof.
  intros Hnd. unfold addWord. cbv zeta.
  destruct (Nat.ltb_spec 0 (length (normalized w))) as [Hlen|Hlen];
    [case_bool_decide as Hin|]; simpl.
  - split; [done|]. split.
    + intros x. split; [by left|]. intros [?|[_ <-]]; done.
    + exists []. rewrite app_nil_r. split; [done|]. apply sublist_nil_l.
  - split; [|split].
    + apply NoDup_app. split; [done|]. split; [|apply NoDup_singleton].
      intros x Hx Heq%list_elem_of_singleton. by subst x.
    + intros x. rewrite elem_of_app, list_elem_of_singleton. split.
      * intros [? | ->]; [by left|]. right. split; [|done].
        intros Hnil. rewrite Hnil in Hlen. simpl in Hlen. lia.
      * intros [?|[_ <-]]; [by left | by right].
    + by exists [normalized w].
  - split; [done|]. split.
    + intros x. split; [by left|]. intros [?|[Hne <-]]; [done|].
      destruct (normalized w); [done|]. simpl in Hlen. lia.
    + exists []. rewrite app_nil_r. split; [done|]. apply sublist_nil_l.
Qed.

Lemma uniqueWords_from (ws : list LemmaWord) : forall wordSet,
  NoDup wordSet ->
  NoDup (foldl add wordSet ws)
  /\ (forall x, x ∈ foldl add wordSet ws
                <-> x ∈ wordSet
                    \/ (x <> [] /\ exists w, w ∈ ws /\ normalized w = x))
  /\ exists new, foldl add wordSet ws = wordSet ++ new
                 /\ sublist new (normalized <$> ws).
Proof.
  induction ws as [|w ws IH]; intros wordSet Hnd; simpl.
  - split; [done|]. split.
    + intros x. split; [by left|]. intros [?|(_ & w & Hw%elem_of_nil & _)]; done.
    + exists []. by rewrite app_nil_r.
  - destruct (addWord_spec wordSet w Hnd) as (Hnd' & Hin' & new' & Hnew' & Hsub').
    destruct (IH _ Hnd') as (Hnd'' & Hin'' & new'' & Hnew'' & Hsub'').
    split; [done|]. split.
    + intros x. rewrite Hin'', Hin'. split.
      * intros [[?|[? ?]]|(? & w' & ? & ?)]; [by left|right..].
        -- split; [done|]. exists w. split; [left|done].
        -- split; [done|]. exists w'. split; [by right|done].
      * intros [?|(Hne & w' & [-> | Hw']%elem_of_cons & Heq)].
        -- by left; left.
        -- left; right. done.
        -- right. split; [done|]. by exists w'.
    + exists (new' ++ new''). rewrite Hnew'', Hnew', <- app_assoc. split; [done|].
      by apply (sublist_app new' [normalized w] new'' (normalized <$> ws)).
Qed.

Lemma lemmaLoop_eq i lemmaMap :
  lloop i lemmaMap
  = if i <? length unique then
      lloop (i + BATCH_SIZE)
        match service i (take BATCH_SIZE (drop i unique)) with
        | Some entries => foldl set lemmaMap entries
        | None => lemmaMap
        end
    else lemmaMap.
Proof.
  rewrite (lemmaLoop_equation_1 toLowerCase service words i lemmaMap).
  destruct (inspect (i <? length unique)) as [[|] e]; simpl; by rewrite e.
Qed.

(** The rule of the loop over the batches, [q] being the number of the
    batch. *)
Lemma lemmaLoop_invariant (P : gmap jsstring jsstring -> Prop) :
  (forall q lemmaMap entries,
      BATCH_SIZE * q < length unique ->
      service (BATCH_SIZE * q) (take BATCH_SIZE (drop (BATCH_SIZE * q) unique))
      = Some entries ->
      P lemmaMap -> P (foldl set lemmaMap entries)) ->
  forall q lemmaMap, P lemmaMap -> P (lloop (BATCH_SIZE * q) lemmaMap).
Proof.
  intros Hstep q lemmaMap.
  remember (length unique - BATCH_SIZE * q) as n eqn:Hn.
  revert q lemmaMap Hn. induction n as [n IH] using lt_wf_ind.
  intros q lemmaMap Hn HP. rewrite lemmaLoop_eq.
  destruct (Nat.ltb_spec (BATCH_SIZE * q) (length unique)) as [Hq|Hq]; [|done].
  replace (BATCH_SIZE * q + BATCH_SIZE) with (BATCH_SIZE * S q) by lia.
  apply (IH (length unique - BATCH_SIZE * S q)); [unfold BATCH_SIZE in *; lia|done|].
  destruct (service _ _) as [entries|] eqn:Hs; [|done].
  by apply (Hstep q).
Qed.

(** The answer to the batch [q] holds the lemma [v] for the key [k], both
    in lower case. *)
Local Abbreviation answered k v :=
  (exists q entries key lemma,
      BATCH_SIZE * q < length unique
      /\ service (BATCH_SIZE * q) (take BATCH_SIZE (drop (BATCH_SIZE * q) unique))
         = Some entries
      /\ (key, Some lemma) ∈ entries
      /\ lemma <> []
      /\ toLowerCase key = k /\ toLowerCase lemma = v).

Lemma setLemma_lookup lemmaMap entry k v :
  set lemmaMap entry !! k = Some v ->
  lemmaMap !! k = Some v
  \/ exists lemma, entry.2 = Some lemma /\ lemma <> []
                   /\ toLowerCase entry.1 = k /\ toLowerCase lemma = v.
Proof.
  unfold setLemma. destruct entry as [key [lemma|]]; simpl; [|by left].
  destruct (Nat.ltb_spec 0 (length lemma)) as [Hlen|_]; [|by left].
  destruct (decide (toLowerCase key = k)) as [<-|Hk].
  - rewrite lookup_insert_eq. intros [= <-]. right. exists lemma.
    split; [done|]. split; [|done]. intros ->. simpl in Hlen. lia.
  - rewrite lookup_insert_ne by done. by left.
Qed.

Lemma foldl_setLemma_lookup entries : forall lemmaMap k v,
  foldl set lemmaMap entries !! k = Some v ->
  lemmaMap !! k = Some v
  \/ exists key lemma, (key, Some lemma) ∈ entries /\ lemma <> []
                       /\ toLowerCase key = k /\ toLowerCase lemma = v.
Proof.
  induction entries as [|entry entries IH]; intros lemmaMap k v; simpl; [by left|].
  intros [H|(key & lemma & Hin & Hrest)]%IH.
  - apply setLemma_lookup in H as [?|(lemma & He & Hrest)]; [by left|].
    right. exists entry.1, lemma. split; [|done].
    destruct entry as [key l]. simpl in *. subst l. left.
  - right. exists key, lemma. split; [by right | done].
Qed.

Lemma lemmaLoop_answered k v :
  lloop 0 ∅ !! k = Some v -> answered k v.
Proof.
  change 0 with (BATCH_SIZE * 0).
  revert k v.
  apply (lemmaLoop_invariant (fun m => forall k v, m !! k = Some v -> answered k v)).
  - intros q lemmaMap entries Hq Hs HP k v
      [H|(key & lemma & Hin & Hne & Hk & Hv)]%foldl_setLemma_lookup; [by apply HP|].
    by exists q, entries, key, lemma.
  - intros k v. by rewrite lookup_empty.
Qed.

Lemma lemmaLoop_all_fail :
  (forall i batch, service i batch = None) -> lloop 0 ∅ = ∅.
Proof.
  intros Hfail. change 0 with (BATCH_SIZE * 0).
  apply (lemmaLoop_invariant (fun m => m = ∅)); [|done].
  intros q lemmaMap entries _ Hs. by rewrite Hfail in Hs.
Qed.

End Lemmas.


(** X23. [lemmatizeWords] returns the words of the transcript in their
    order, each with the text and the times it had. A word comes back as it
    is, or with a lemma that the service returned: the answer to one of the
    batches of 300 unique words holds, under a key that is the word without
    punctuation up to case, a string that is not empty, and the lemma is this
    string in lower case. *)
Theorem lemmatizeWords_lemmas (toLowerCase : jsstring -> jsstring)
  (service : nat -> list jsstring -> option (list (jsstring * option jsstring)))
  (words : list Transcription.Lemmatize.LemmaWord) (apiKey : bool) :
  let out := Transcription.Lemmatize.lemmatizeWords toLowerCase service words apiKey in
  let unique := Transcription.Lemmatize.uniqueWords toLowerCase words in
  length out = length words
  /\ forall i w,
       words !! i = Some w ->
       exists o,
         out !! i = Some o
         /\ Transcription.Lemmatize.timestamp o = Transcription.Lemmatize.timestamp w
         /\ (o = w
             \/ exists q entries key lemma,
                  300 * q < length unique
                  /\ service (300 * q) (take 300 (drop (300 * q) unique)) = Some entries
                  /\ (key, Some lemma) ∈ entries
                  /\ lemma <> []
                  /\ toLowerCase key
                     = Transcription.Lemmatize.normalizedOf toLowerCase w
                  /\ Transcription.Lemmatize.lemma o = Some (toLowerCase lemma)).
Proof.
  cbv zeta. unfold Transcription.Lemmatize.lemmatizeWords.
  destruct (negb apiKey || _).
  - split; [done|]. intros i w Hw. exists w. split; [done|]. split; [done|]. by left.
  - split; [apply length_fmap|]. intros i w Hw.
    exists (Transcription.Lemmatize.attachLemma toLowerCase
              (Transcription.Lemmatize.lemmaLoop toLowerCase service words 0 ∅) w).
    rewrite list_lookup_fmap, Hw. split; [done|].
    unfold Transcription.Lemmatize.attachLemma.
    destruct (Transcription.Lemmatize.lemmaLoop toLowerCase service words 0 ∅ !! _)
      as [l|] eqn:Hl; [|split; [done | by left]].
    destruct (0 <? length l); [|split; [done | by left]].
    split; [done|]. right.
    apply lemmaLoop_answered in Hl
      as (q & entries & key & lemma & Hq & Hs & Hin & Hne & Hk & Hv).
    exists q, entries, key, lemma. simpl. by rewrite Hv.
Qed.

(** X24. When every request to the lemmatisation service fails,
    [lemmatizeWords] returns the words of the transcript as they are. *)
Theorem lemmatizeWords_all_requests_fail (toLowerCase : jsstring -> jsstring)
  (service : nat -> list jsstring -> option (list (jsstring * option jsstring)))
  (words : list Transcription.Lemmatize.LemmaWord) (apiKey : bool) :
  (forall i batch, service i batch = None) ->
  Transcription.Lemmatize.lemmatizeWords toLowerCase service words apiKey = words.
Proof.
  intros Hfail. unfold Transcription.Lemmatize.lemmatizeWords.
  destruct (negb apiKey || _); [done|].
  rewrite lemmaLoop_all_fail by done.
  rewrite <- (list_fmap_id words) at 2. apply list_fmap_ext.
  intros i w _. unfold Transcription.Lemmatize.attachLemma.
  by rewrite lookup_empty.
Qed.

Lemma lemmatizeWords_all_requests_fail_witness :
  Transcription.Lemmatize.lemmatizeWords toLowerCaseRu (fun _ _ => None)
    privetTwice true
  = privetTwice.
Proof.
  apply (lemmatizeWords_all_requests_fail toLowerCaseRu (fun _ _ => None)
           privetTwice true).
  reflexivity.
Defined.

(** The two words of [privetTwice] are one unique word, and both receive the
    lemma of the answer. *)
Example test_lemmatizeWords :
  Transcription.Lemmatize.uniqueWords toLowerCaseRu privetTwice = [privet]
  /\ Transcription.Lemmatize.lemma
       <$> Transcription.Lemmatize.lemmatizeWords toLowerCaseRu
             (fun _ batch => Some ((fun w => (w, Some Privet)) <$> batch))
             privetTwice true
     = [Some privet; Some privet].
Proof. split; vm_compute; reflexivity. Qed.

(** ** [mapProgress], [computeRanges] and [createHeartbeat] *)

Section Rounding.

Import ProgressUtils.

Lemma Qfloor_between (z : Z) (x : Q) :
  (inject_Z z <= x)%Q -> (x < inject_Z (z + 1))%Q -> Qfloor x = z.
Proof.
  intros Hlo Hhi.
  pose proof (Qfloor_le x) as H1. pose proof (Qlt_floor x) as H2.
  assert (inject_Z (Qfloor x) < inject_Z (z + 1))%Q as H3 by lra.
  assert (inject_Z z < inject_Z (Qfloor x + 1))%Q as H4 by lra.
  rewrite <- Zlt_Qlt in H3, H4. lia.
Qed.

Lemma round_integer (z : Z) (x : Q) : (x == inject_Z z)%Q -> round x = z.
Proof.
  intros Hx. unfold round. apply Qfloor_between.
  - rewrite Hx. lra.
  - rewrite Hx, inject_Z_plus. change (inject_Z 1) with 1%Q. lra.
Qed.

Lemma round_mono (x y : Q) : (x <= y)%Q -> (round x <= round y)%Z.
Proof. intros H. unfold round. apply Qfloor_resp_le. lra. Qed.

Lemma round_comp (x y : Q) : (x == y)%Q -> round x = round y.
Proof. intros H. unfold round. by rewrite H. Qed.

End Rounding.

Section MapProgress.

Variables rangeStart rangeEnd : Z.

Local Abbreviation map := (fun p : Q =>
  ProgressUtils.mapProgress p (inject_Z rangeStart) (inject_Z rangeEnd)).

Lemma mapProgress_0 : map 0%Q = rangeStart.
Proof. unfold ProgressUtils.mapProgress. apply round_integer. field. Qed.

Lemma mapProgress_100 : map 100%Q = rangeEnd.
Proof. unfold ProgressUtils.mapProgress. apply round_integer. field. Qed.

Lemma mapProgress_mono (p p' : Q) :
  (rangeStart <= rangeEnd)%Z -> (p <= p')%Q -> (map p <= map p')%Z.
Proof.
  intros Hle Hp.
  assert (inject_Z rangeStart <= inject_Z rangeEnd)%Q as Hle'
    by by rewrite <- Zle_Qle.
  unfold ProgressUtils.mapProgress. apply round_mono.
  assert (0 <= (p' - p) * (inject_Z rangeEnd - inject_Z rangeStart) * (1 / 100))%Q
    as Hprod
    by (apply Qmult_le_0_compat; [apply Qmult_le_0_compat; lra | done]).
  apply Qle_minus_iff.
  assert (inject_Z rangeStart
          + p' / 100 * (inject_Z rangeEnd - inject_Z rangeStart)
          + - (inject_Z rangeStart
               + p / 100 * (inject_Z rangeEnd - inject_Z rangeStart))
          == (p' - p) * (inject_Z rangeEnd - inject_Z rangeStart) * (1 / 100))%Q
    as Heq by field.
  by rewrite Heq.
Qed.

Lemma mapProgress_bounds (p : Q) :
  (rangeStart <= rangeEnd)%Z -> (0 <= p <= 100)%Q ->
  (rangeStart <= map p <= rangeEnd)%Z.
Proof.
  intros Hle [Hp0 Hp100].
  pose proof (mapProgress_mono 0 p Hle Hp0) as H1.
  pose proof (mapProgress_mono p 100 Hle Hp100) as H2.
  pose proof mapProgress_0 as E0. pose proof mapProgress_100 as E1.
  cbv beta in *. lia.
Qed.

End MapProgress.



Section Ranges.

Import ProgressUtils.

Variable T : Q.

Implicit Types st : Q * list (Z * Z).

Local Abbreviation step := (rangeStep T).

(** The ranges so far follow one another from [c0] to the cursor. *)
Local Abbreviation chained := (fun (c0 c : Q) (l : list (Z * Z)) =>
  (forall r, l !! 0 = Some r -> r.1 = round c0)
  /\ (forall k r r', l !! k = Some r -> l !! S k = Some r' -> r'.1 = r.2)
  /\ (forall r, last l = Some r -> r.2 = round c)).

Lemma rangeStep_chained c0 st w :
  (st.2 = [] -> st.1 = c0) ->
  chained c0 st.1 st.2 ->
  chained c0 (step st w).1 (step st w).2.
Proof.
  destruct st as [c l]. simpl. intros Hempty (Hhead & Hnext & Hlast).
  split; [|split].
  - intros r. destruct l as [|r0 l]; simpl.
    + intros [= <-]. simpl. by rewrite Hempty.
    + apply Hhead.
  - intros k r r' Hr Hr'.
    destruct (decide (S k < length l)) as [Hk|Hk].
    + rewrite lookup_app_l in Hr, Hr' by lia. by eapply Hnext.
    + apply lookup_lt_Some in Hr' as Hlt. rewrite length_app in Hlt. simpl in Hlt.
      assert (S k = length l) as Hk' by lia.
      rewrite lookup_app_l in Hr by lia.
      rewrite lookup_app_r, Hk', Nat.sub_diag in Hr' by lia.
      injection Hr' as <-. simpl. symmetry. apply Hlast.
      rewrite last_lookup. replace (pred (length l)) with k by lia. done.
  - intros r. rewrite last_snoc. by intros [= <-].
Qed.

Lemma ranges_chained c0 weights : forall st,
  (st.2 = [] -> st.1 = c0) ->
  chained c0 st.1 st.2 ->
  chained c0 (foldl step st weights).1 (foldl step st weights).2.
Proof.
  induction weights as [|w weights IH]; intros st Hempty Hst; [done|].
  simpl. apply IH; [|by apply rangeStep_chained].
  destruct st as [c l]. simpl. intros H. by destruct l.
Qed.

Lemma ranges_length weights : forall st,
  length (foldl step st weights).2 = length st.2 + length weights.
Proof.
  induction weights as [|w weights IH]; intros st; simpl; [lia|].
  rewrite IH. simpl. rewrite length_app. simpl. lia.
Qed.

Lemma total_from (weights : list Q) : forall x,
  (foldl Qplus x weights == x + total weights)%Q.
Proof.
  unfold total. induction weights as [|w weights IH]; intros x; simpl; [ring|].
  rewrite (IH (x + w)%Q), (IH (0 + w)%Q). ring.
Qed.

Lemma ranges_cursor weights : forall st,
  ((foldl step st weights).1 == st.1 + total weights / T * 100)%Q.
Proof.
  induction weights as [|w weights IH]; intros st; simpl.
  - unfold total. simpl. unfold Qdiv. ring.
  - rewrite IH. simpl. unfold total at 2. simpl. rewrite total_from.
    unfold Qdiv. ring.
Qed.

Hypothesis positive : (0 < T)%Q.

(** Every range so far lies between [c0] and the cursor. *)
Local Abbreviation bounded := (fun (c0 c : Q) (l : list (Z * Z)) =>
  (c0 <= c)%Q
  /\ Forall (fun r => (round c0 <= r.1 /\ r.1 <= r.2 /\ r.2 <= round c)%Z) l).

Lemma ranges_bounded c0 weights :
  Forall (fun w => (0 <= w)%Q) weights -> forall st,
  bounded c0 st.1 st.2 ->
  bounded c0 (foldl step st weights).1 (foldl step st weights).2.
Proof.
  induction 1 as [|w weights Hw _ IH]; intros st Hst; [done|].
  simpl. apply IH. destruct st as [c l]. destruct Hst as [Hc Hl]. simpl in *.
  assert (0 <= w / T * 100)%Q as Hd.
  { apply Qmult_le_0_compat; [|lra].
    apply Qmult_le_0_compat; [done|]. apply Qinv_le_0_compat. lra. }
  split; [lra|]. apply Forall_app. split.
  - eapply Forall_impl; [exact Hl|]. intros r (? & ? & ?).
    split; [done|]. split; [done|].
    etrans; [eassumption|]. apply round_mono. lra.
  - constructor; [|constructor]. simpl.
    split; [by apply round_mono|]. split; [apply round_mono; lra | lia].
Qed.

End Ranges.

Section CloseLast.

Import ProgressUtils.

Lemma closeLast_length ranges : length (closeLast ranges) = length ranges.
Proof.
  unfold closeLast. destruct (0 <? length ranges); [|done].
  apply length_alter.
Qed.

Lemma closeLast_lookup ranges k :
  closeLast ranges !! k
  = (fun r => if decide (k = length ranges - 1) then (r.1, 100%Z) else r)
      <$> ranges !! k.
Proof.
  unfold closeLast. destruct (Nat.ltb_spec 0 (length ranges)) as [Hn|Hn].
  - destruct (decide (k = length ranges - 1)) as [->|Hk].
    + by rewrite list_lookup_alter_eq.
    + rewrite list_lookup_alter_ne by done. by destruct (ranges !! k).
  - destruct ranges; [|simpl in Hn; lia]. done.
Qed.

End CloseLast.



(** The ranges of the downloads of audio and of video, without and with
    cached information. *)
Example test_computeRanges :
  ProgressUtils.computeRanges [60; 45; 5]%Q = [(0, 55); (55, 95); (95, 100)]%Z
  /\ ProgressUtils.computeRanges [2; 45; 5]%Q = [(0, 4); (4, 90); (90, 100)]%Z
  /\ ProgressUtils.computeRanges [60; 25; 10]%Q = [(0, 63); (63, 89); (89, 100)]%Z
  /\ ProgressUtils.computeRanges [2; 25; 10]%Q = [(0, 5); (5, 73); (73, 100)]%Z
  /\ ProgressUtils.computeRanges [] = [].
Proof. repeat split; vm_compute; reflexivity. Qed.

(** The same ranges have the same ends when [rangeEnd] is computed on
    doubles. *)
Lemma binary64_computeRanges :
  Binary64.sameRangeEnds [60; 45; 5]%float [60; 45; 5]%Q
  && Binary64.sameRangeEnds [2; 45; 5]%float [2; 45; 5]%Q
  && Binary64.sameRangeEnds [60; 25; 10]%float [60; 25; 10]%Q
  && Binary64.sameRangeEnds [2; 25; 10]%float [2; 25; 10]%Q
  = true.
Proof. by vm_compute. Qed.

Section HeartbeatRun.

Import ProgressUtils.

Variable type : jsstring.
Variable messageBuilder : nat -> BuilderResult.

Local Abbreviation handle := (ProgressUtils.handle type messageBuilder).
Local Abbreviation reports n0 n :=
  (concat ((fun s => report type (messageBuilder s)) <$> seq (S n0) n)).

Lemma handle_stopped events : forall h calls,
  stopped h = true -> foldl handle (h, calls) events = (h, calls).
Proof.
  induction events as [|e events IH]; intros h calls Hh; [done|].
  simpl. destruct e; simpl.
  - unfold tick. rewrite Hh. simpl. rewrite app_nil_r. by apply IH.
  - unfold stop. rewrite Hh. by apply IH.
Qed.

Lemma handle_live events : forall n calls,
  foldl handle ({| seconds := n; stopped := false |}, calls) events
  = ({| seconds := n + liveTicks events; stopped := stops events |},
     calls ++ reports n (liveTicks events)).
Proof.
  induction events as [|e events IH]; intros n calls.
  - simpl. by rewrite Nat.add_0_r, app_nil_r.
  - destruct e.
    + change (foldl handle ({| seconds := n; stopped := false |}, calls) (Tick :: events))
        with (foldl handle ({| seconds := S n; stopped := false |},
                            calls ++ report type (messageBuilder (S n))) events).
      rewrite IH. cbn [liveTicks stops existsb orb].
      rewrite Nat.add_succ_r, <- app_assoc. done.
    + change (foldl handle ({| seconds := n; stopped := false |}, calls) (Stop :: events))
        with (foldl handle ({| seconds := n; stopped := true |}, calls) events).
      rewrite handle_stopped by done. simpl.
      by rewrite Nat.add_0_r, app_nil_r.
Qed.

End HeartbeatRun.

(** X27. A heartbeat counts the times its timer fires before the first call
    of [stop()]: after any events, [seconds] is this number [n], the calls
    of [onProgress] made so far are those for the seconds [1 .. n] in order,
    and the heartbeat is stopped when [stop()] was called. Nothing that
    comes after the first [stop()] changes the heartbeat or makes a call. *)
Theorem createHeartbeat_run (type : jsstring)
  (messageBuilder : nat -> ProgressUtils.BuilderResult)
  (events : list ProgressUtils.Event) :
  let n := ProgressUtils.liveTicks events in
  ProgressUtils.run type messageBuilder events
  = ({| ProgressUtils.seconds := n;
        ProgressUtils.stopped := ProgressUtils.stops events |},
     concat ((fun s => ProgressUtils.report type (messageBuilder s)) <$> seq 1 n))
  /\ forall before after,
       events = before ++ ProgressUtils.Stop :: after ->
       ProgressUtils.run type messageBuilder events
       = ProgressUtils.run type messageBuilder (before ++ [ProgressUtils.Stop]).
Proof.
  cbv zeta. unfold ProgressUtils.run, ProgressUtils.createHeartbeat.
  split; [apply (handle_live type messageBuilder events 0 [])|].
  intros before after ->.
  rewrite !foldl_app. simpl.
  apply handle_stopped. unfold ProgressUtils.stop. by case_match.
Qed.

(** ** The progress reported by [lemmatizeWords] *)

Section LemmaProgress.

Variable L : nat.
Hypothesis positive : 0 < L.

Local Abbreviation share := (fun x : nat =>
  ProgressUtils.round (num x / num L * 95)).

Lemma share_mono x y : x <= y -> (share x <= share y)%Z.
Proof.
  intros Hxy. apply round_mono.
  apply Qmult_le_compat_r; [|done].
  apply Qmult_le_compat_r; [by apply num_le|].
  apply Qinv_le_0_compat, num_nonneg.
Qed.

Lemma share_0 : share 0 = 0%Z.
Proof. apply round_integer. unfold num. simpl. unfold Qdiv. ring. Qed.

Lemma share_all : share L = 95%Z.
Proof.
  apply round_integer.
  assert (~ (num L == 0)%Q) as HL.
  { unfold num. change 0%Q with (inject_Z 0). rewrite inject_Z_injective. lia. }
  change (inject_Z 95) with 95%Q. field. done.
Qed.

End LemmaProgress.



(** ** The heartbeat of [generateTtsAudio] *)

Lemma ttsPercent_mono (text : jsstring) (n m : nat) :
  n <= m -> (Tts.ttsPercent text n <= Tts.ttsPercent text m)%Z.
Proof.
  intros Hnm. unfold Tts.ttsPercent. cbv zeta.
  apply Z.min_le_compat_l, round_mono.
  assert (0 <= inject_Z (Tts.estimatedSeconds text))%Q as Hest.
  { change 0%Q with (inject_Z 0). rewrite <- Zle_Qle. unfold Tts.estimatedSeconds. lia. }
  apply Qmult_le_compat_r; [|done].
  apply Qmult_le_compat_r; [|by apply Qinv_le_0_compat].
  apply Qmult_le_compat_r; [by apply num_le | done].
Qed.

Lemma ttsPercent_bounds (text : jsstring) (n : nat) :
  (0 <= Tts.ttsPercent text n <= 95)%Z.
Proof.
  split; [|apply Z.le_min_l].
  unfold Tts.ttsPercent. cbv zeta. apply Z.min_glb; [done|].
  rewrite <- (round_integer 0 0 ltac:(done)). apply round_mono.
  apply Qmult_le_0_compat; [|done].
  apply Qmult_le_0_compat.
  - apply Qmult_le_0_compat; [apply num_nonneg | done].
  - apply Qinv_le_0_compat. change 0%Q with (inject_Z 0). rewrite <- Zle_Qle.
    unfold Tts.estimatedSeconds. lia.
Qed.

Lemma concat_fmap_singleton {A B} (f : A -> B) (l : list A) :
  concat ((fun s => [f s]) <$> l) = f <$> l.
Proof. induction l as [|x l IH]; [done|]. rewrite !fmap_cons. simpl. by f_equal. Qed.

